(** * configurator: a shallow embedding of the reflection-driven loaders

    The Go package populates a caller-defined struct from defaults,
    environment variables, mounted secrets and files, and then validates it.
    All of that is written against [reflect]; this development models the
    part of [reflect] the package uses and transcribes the package's
    functions over it.

    Conventions of the embedding.
    - A Go type is an [rtype], a Go value of that type is a [gval]; the two
      travel together as in [reflect.Value].  An [rtype] is a finite tree.
      A struct type that mentions itself through a pointer is no tree: it
      is given by a table of declarations ([declared]), and the traversal
      of the environment provider, the one function that allocates along
      the types and so need not come to an end on them, is given on those
      as well, with fuel.  Embedded (anonymous) fields are outside the
      model.  Two pointers never alias.
    - A [Value] is a [reflect.Value]: its type, what it currently holds,
      where it lives inside the record it was taken from, and the read-only
      and addressable flags.
    - Code that mutates through a [reflect.Value] becomes a function that
      returns the handle with its new contents; the caller stores it back
      ([store]) at the handle's location.
    - [int] and [uint] are 64 bits wide.  Integers are [Z] with the wrap
      around written out.  Strings are byte strings; the case conversions
      and the white-space test are the ASCII ones.
    - Go maps are [gmap]s; ranging over a map visits its entries in an
      arbitrary order, which the loops take as an explicit list that must be
      a permutation of [map_to_list].
    - A call ends in a [result]: it returns nil, returns an error, or
      panics.  What a call reads from or writes to the outside (the
      environment, the file system, the log) is an argument or a component of
      what it returns.
    - Floats are binary64.  The float and duration parsers, and the
      conversions of floats that the language leaves to the implementation,
      come in a [Runtime] record. *)

From Stdlib Require Import ZArith String Ascii List Bool Lia Floats.
From stdpp Require Import gmap strings list fin_maps.
Import ListNotations.

Set Warnings "-register-all".

Local Open Scope string_scope.
Local Open Scope Z_scope.

(** ** Package [strings] *)

Module strings.

Definition isUpperAscii (c : ascii) : bool :=
  let n := nat_of_ascii c in (Nat.leb 65 n && Nat.leb n 90)%bool.

Definition isLowerAscii (c : ascii) : bool :=
  let n := nat_of_ascii c in (Nat.leb 97 n && Nat.leb n 122)%bool.

Definition isDigitAscii (c : ascii) : bool :=
  let n := nat_of_ascii c in (Nat.leb 48 n && Nat.leb n 57)%bool.

Definition upperAscii (c : ascii) : ascii :=
  if isLowerAscii c then ascii_of_nat (nat_of_ascii c - 32) else c.

Definition lowerAscii (c : ascii) : ascii :=
  if isUpperAscii c then ascii_of_nat (nat_of_ascii c + 32) else c.

Fixpoint ToUpper (s : string) : string :=
  match s with
  | EmptyString => EmptyString
  | String c r => String (upperAscii c) (ToUpper r)
  end.

Fixpoint ToLower (s : string) : string :=
  match s with
  | EmptyString => EmptyString
  | String c r => String (lowerAscii c) (ToLower r)
  end.

(** [unicode.IsSpace] on the ASCII range: tab, line feed, vertical tab, form
    feed, carriage return and space. *)
Definition isSpace (c : ascii) : bool :=
  let n := nat_of_ascii c in
  (Nat.leb 9 n && Nat.leb n 13 || Nat.eqb n 32)%bool.

Fixpoint TrimLeft (s : string) : string :=
  match s with
  | EmptyString => EmptyString
  | String c r => if isSpace c then TrimLeft r else s
  end.

Fixpoint TrimRight (s : string) : string :=
  match s with
  | EmptyString => EmptyString
  | String c r =>
      match TrimRight r with
      | EmptyString => if isSpace c then EmptyString else String c EmptyString
      | r' => String c r'
      end
  end.

Definition TrimSpace (s : string) : string := TrimRight (TrimLeft s).

(** [strings.Split(s, sep)] for a one-byte separator, which is all the
    package passes.  The empty string splits into one empty piece. *)
Fixpoint Split (s : string) (sep : ascii) : list string :=
  match s with
  | EmptyString => [EmptyString]
  | String c r =>
      if Ascii.eqb c sep then EmptyString :: Split r sep
      else match Split r sep with
           | h :: t => String c h :: t
           | [] => [String c EmptyString]
           end
  end.

(** The text before and after the first [sep], when there is one. *)
Fixpoint cut (s : string) (sep : ascii) : option (string * string) :=
  match s with
  | EmptyString => None
  | String c r =>
      if Ascii.eqb c sep then Some (EmptyString, r)
      else match cut r sep with
           | Some (a, b) => Some (String c a, b)
           | None => None
           end
  end.

(** [strings.SplitN(s, sep, 2)]. *)
Definition SplitN2 (s : string) (sep : ascii) : list string :=
  match cut s sep with
  | Some (a, b) => [a; b]
  | None => [s]
  end.

Fixpoint Join (parts : list string) (sep : string) : string :=
  match parts with
  | [] => EmptyString
  | [p] => p
  | p :: rest => p ++ sep ++ Join rest sep
  end.

(** [strings.Title]: the first letter of every word is upper-cased; letters,
    digits and the underscore continue a word. *)
Definition isSeparator (c : ascii) : bool :=
  negb (isUpperAscii c || isLowerAscii c || isDigitAscii c
        || Nat.eqb (nat_of_ascii c) 95)%bool.

Fixpoint titleFrom (prevSep : bool) (s : string) : string :=
  match s with
  | EmptyString => EmptyString
  | String c r =>
      String (if prevSep then upperAscii c else c) (titleFrom (isSeparator c) r)
  end.

Definition Title (s : string) : string := titleFrom true s.

End strings.

(** ** Package [strconv] *)

Module strconv.

Inductive NumErr := ErrSyntax | ErrRange.

Definition maxUint64 : Z := 2 ^ 64 - 1.

Definition digitVal (c : ascii) : Z := Z.of_nat (nat_of_ascii c) - 48.

(** The digit loop of [ParseUint(s, 10, 64)]: [n] is the value read so
    far; the overflow tests are the ones of the library, on a 64-bit
    accumulator. *)
Fixpoint parseUintLoop (s : string) (n : Z) : Z + NumErr :=
  match s with
  | EmptyString => inl n
  | String c r =>
      if strings.isDigitAscii c then
        if n >=? maxUint64 / 10 + 1 then inr ErrRange
        else
          let n10 := n * 10 in
          let n1 := (n10 + digitVal c) mod 2 ^ 64 in
          if (n1 <? n10) || (n1 >? maxUint64) then inr ErrRange
          else parseUintLoop r n1
      else inr ErrSyntax
  end.

Definition ParseUint (s : string) : Z + NumErr :=
  match s with
  | EmptyString => inr ErrSyntax
  | _ => parseUintLoop s 0
  end.

(** [ParseInt(s, 10, 64)]. *)
Definition ParseInt (s : string) : Z + NumErr :=
  match s with
  | EmptyString => inr ErrSyntax
  | String c r =>
      let neg := Ascii.eqb c "-" in
      let digits := if Ascii.eqb c "+" || neg then r else s in
      let cutoff := 2 ^ 63 in
      match ParseUint digits with
      | inr ErrSyntax => inr ErrSyntax
      | inr ErrRange => inr ErrRange
      | inl un =>
          if negb neg && (un >=? cutoff) then inr ErrRange
          else if neg && (un >? cutoff) then inr ErrRange
          else inl (if neg then - un else un)
      end
  end.

Definition ParseBool (s : string) : option bool :=
  if (String.eqb s "1" || String.eqb s "t" || String.eqb s "T"
      || String.eqb s "TRUE" || String.eqb s "true" || String.eqb s "True")%bool
  then Some true
  else if (String.eqb s "0" || String.eqb s "f" || String.eqb s "F"
      || String.eqb s "FALSE" || String.eqb s "false" || String.eqb s "False")%bool
  then Some false
  else None.

End strconv.

(** ** Package [reflect] *)

Module reflect.

(** The kinds, in the order of their declaration: the package compares
    kinds with [<=]. *)
Inductive Kind :=
| Invalid | Bool
| Int | Int8 | Int16 | Int32 | Int64
| Uint | Uint8 | Uint16 | Uint32 | Uint64 | Uintptr
| Float32 | Float64 | Complex64 | Complex128
| Array | Chan | Func | Interface | Map | Ptr | Slice | String | Struct
| UnsafePointer.

Definition ord (k : Kind) : Z :=
  match k with
  | Invalid => 0 | Bool => 1
  | Int => 2 | Int8 => 3 | Int16 => 4 | Int32 => 5 | Int64 => 6
  | Uint => 7 | Uint8 => 8 | Uint16 => 9 | Uint32 => 10 | Uint64 => 11
  | Uintptr => 12
  | Float32 => 13 | Float64 => 14 | Complex64 => 15 | Complex128 => 16
  | Array => 17 | Chan => 18 | Func => 19 | Interface => 20 | Map => 21
  | Ptr => 22 | Slice => 23 | String => 24 | Struct => 25
  | UnsafePointer => 26
  end.

Definition eqb (a b : Kind) : bool := ord a =? ord b.
Definition leb (a b : Kind) : bool := ord a <=? ord b.

(** The three numeric families the package switches on. *)
Definition isInt (k : Kind) : bool :=
  match k with Int | Int8 | Int16 | Int32 | Int64 => true | _ => false end.

Definition isUint (k : Kind) : bool :=
  match k with Uint | Uint8 | Uint16 | Uint32 | Uint64 => true | _ => false end.

Definition isFloat (k : Kind) : bool :=
  match k with Float32 | Float64 => true | _ => false end.

(** Width in bits of the integer kinds. *)
Definition bits (k : Kind) : Z :=
  match k with
  | Int8 | Uint8 => 8
  | Int16 | Uint16 => 16
  | Int32 | Uint32 | Float32 => 32
  | _ => 64
  end.

End reflect.

Abbreviation Kind := reflect.Kind.

(** A struct tag, already split into its [key:"value"] pairs. *)
Definition StructTag := list (string * string).

Fixpoint tagGet (tag : StructTag) (key : string) : string :=
  match tag with
  | [] => ""
  | (k, v) :: rest => if String.eqb k key then v else tagGet rest key
  end.

Record StructField := mkField { Name : string; Tag : StructTag }.

(** A field is exported when its name starts with an upper-case letter. *)
Definition IsExported (f : StructField) : bool :=
  match Name f with
  | EmptyString => false
  | String c _ => strings.isUpperAscii c
  end.

(** Go types.  [TPrim k name] is a type that the package never looks
    inside: the booleans, numbers and strings (predeclared or defined, so
    [TPrim reflect.Int64 "time.Duration"] is a type of its own), and maps,
    channels, functions, interfaces and so on.  Pointers, slices, arrays and
    structs have constructors of their own and are never a [TPrim]. *)
Inductive rtype :=
| TPrim (k : Kind) (name : string)
| TPtr (elem : rtype)
| TSlice (elem : rtype)
| TArray (len : nat) (elem : rtype)
| TStruct (name : string) (fields : list (StructField * rtype)).

Definition kindOf (t : rtype) : Kind :=
  match t with
  | TPrim k _ => k
  | TPtr _ => reflect.Ptr
  | TSlice _ => reflect.Slice
  | TArray _ _ => reflect.Array
  | TStruct _ _ => reflect.Struct
  end.

(** What a variable of some type holds.  A nil pointer or slice is [None];
    values the package only asks [Len] or [IsNil] of are [VOpaque]. *)
Inductive gval :=
| VBool (b : bool)
| VInt (i : Z)
| VUint (u : Z)
| VFloat (f : float)
| VString (s : string)
| VPtr (p : option gval)
| VSlice (xs : option (list gval))
| VStruct (fs : list gval)
| VIface (dyn : option (rtype * gval))
| VOpaque (len : nat) (isnil : bool).

(** [interface{}]: nil, or a type with a value of it. *)
Definition iface := option (rtype * gval).

Definition tag_eqb (a b : StructTag) : bool :=
  bool_decide (a = b).

(** Type identity: defined types by name, composite types by structure,
    struct tags included. *)
Fixpoint rtype_eqb (a b : rtype) {struct a} : bool :=
  match a, b with
  | TPrim k n, TPrim k' n' => reflect.eqb k k' && String.eqb n n'
  | TPtr e, TPtr e' => rtype_eqb e e'
  | TSlice e, TSlice e' => rtype_eqb e e'
  | TArray l e, TArray l' e' => Nat.eqb l l' && rtype_eqb e e'
  | TStruct n fs, TStruct n' fs' =>
      String.eqb n n' &&
      (fix fields_eqb (xs ys : list (StructField * rtype)) {struct xs} : bool :=
         match xs, ys with
         | [], [] => true
         | (f, t) :: xs', (f', t') :: ys' =>
             String.eqb (Name f) (Name f') && tag_eqb (Tag f) (Tag f')
             && rtype_eqb t t' && fields_eqb xs' ys'
         | _, _ => false
         end) fs fs'
  | _, _ => false
  end.

(** The zero value of a type, what [reflect.New(t).Elem()] holds. *)
Fixpoint zero (t : rtype) : gval :=
  match t with
  | TPrim k _ =>
      match k with
      | reflect.Bool => VBool false
      | reflect.Int | reflect.Int8 | reflect.Int16 | reflect.Int32
      | reflect.Int64 => VInt 0
      | reflect.Uint | reflect.Uint8 | reflect.Uint16 | reflect.Uint32
      | reflect.Uint64 | reflect.Uintptr => VUint 0
      | reflect.Float32 | reflect.Float64 => VFloat 0%float
      | reflect.String => VString ""
      | reflect.Interface => VIface None
      | reflect.Complex64 | reflect.Complex128 => VOpaque 0 false
      | _ => VOpaque 0 true
      end
  | TPtr _ => VPtr None
  | TSlice _ => VSlice None
  | TArray n _ => VOpaque n false
  | TStruct _ fields => VStruct (map (fun ft => zero (snd ft)) fields)
  end.

Fixpoint TypeString (t : rtype) : string :=
  match t with
  | TPrim _ n => n
  | TPtr e => "*" ++ TypeString e
  | TSlice e => "[]" ++ TypeString e
  | TArray _ e => "[...]" ++ TypeString e
  | TStruct n _ => n
  end.

(** A position inside a record: through field [i] of a struct, or through a
    pointer. *)
Inductive step := SField (i : nat) | SElem.

Definition loc := list step.

(** [reflect.Value].  [VZero] is the zero Value, of kind [Invalid]. *)
Inductive Value :=
| VZero
| V (typ : rtype) (cur : gval) (at_ : loc) (flagRO flagAddr : bool).

Definition ValueOf (i : iface) : Value :=
  match i with
  | None => VZero
  | Some (t, c) => V t c [] false false
  end.

Definition IsValid (v : Value) : bool :=
  match v with VZero => false | V _ _ _ _ _ => true end.

Definition KindOf (v : Value) : Kind :=
  match v with VZero => reflect.Invalid | V t _ _ _ _ => kindOf t end.

Definition CanSet (v : Value) : bool :=
  match v with VZero => false | V _ _ _ ro addr => addr && negb ro end.

Definition Type_ (v : Value) : rtype :=
  match v with VZero => TPrim reflect.Invalid "<nil>" | V t _ _ _ _ => t end.

Definition NumField (v : Value) : nat :=
  match v with
  | V (TStruct _ fields) _ _ _ _ => length fields
  | _ => 0%nat
  end.

(** [v.Field(i)]: the handle inherits the flags, and is read-only below an
    unexported field. *)
Definition Field (v : Value) (i : nat) : Value :=
  match v with
  | V (TStruct _ fields) (VStruct fs) l ro addr =>
      match fields !! i, fs !! i with
      | Some (f, t), Some c => V t c (l ++ [SField i])%list (ro || negb (IsExported f)) addr
      | _, _ => VZero
      end
  | _ => VZero
  end.

Fixpoint fieldIndex (fields : list (StructField * rtype)) (name : string) : option nat :=
  match fields with
  | [] => None
  | (f, _) :: rest =>
      if String.eqb (Name f) name then Some 0%nat
      else option_map S (fieldIndex rest name)
  end.

(** [v.FieldByName(name)]: the zero Value when there is no such field. *)
Definition FieldByName (v : Value) (name : string) : Value :=
  match v with
  | V (TStruct _ fields) _ _ _ _ =>
      match fieldIndex fields name with
      | Some i => Field v i
      | None => VZero
      end
  | _ => VZero
  end.

Definition IsNil (v : Value) : bool :=
  match v with
  | V _ (VPtr None) _ _ _ | V _ (VSlice None) _ _ _ | V _ (VIface None) _ _ _ => true
  | V _ (VOpaque _ n) _ _ _ => n
  | _ => false
  end.

(** [v.Elem()] of a pointer: the zero Value under a nil pointer, otherwise
    an addressable handle on what it points to.  (The package calls it on
    pointers only.) *)
Definition Elem (v : Value) : Value :=
  match v with
  | V (TPtr e) (VPtr (Some c)) l ro _ => V e c (l ++ [SElem])%list ro true
  | _ => VZero
  end.

Definition Len (v : Value) : Z :=
  match v with
  | V _ (VSlice (Some xs)) _ _ _ => Z.of_nat (length xs)
  | V _ (VOpaque n _) _ _ _ => Z.of_nat n
  | V _ (VString s) _ _ _ => Z.of_nat (String.length s)
  | _ => 0
  end.

Definition getBool (v : Value) : bool :=
  match v with V _ (VBool b) _ _ _ => b | _ => false end.

Definition getInt (v : Value) : Z :=
  match v with V _ (VInt i) _ _ _ => i | _ => 0 end.

Definition getUint (v : Value) : Z :=
  match v with V _ (VUint u) _ _ _ => u | _ => 0 end.

Definition getFloat (v : Value) : float :=
  match v with V _ (VFloat f) _ _ _ => f | _ => 0%float end.

Definition getString (v : Value) : string :=
  match v with V _ (VString s) _ _ _ => s | _ => "" end.

(** [v.Interface()] hands the contents out as an [interface{}]; it panics
    ([None]) on the zero Value and on a value reached through an unexported
    field.  An interface-typed field hands out what it holds. *)
Definition Interface (v : Value) : option iface :=
  match v with
  | VZero => None
  | V t c _ ro _ =>
      if ro then None
      else match kindOf t, c with
           | reflect.Interface, VIface d => Some d
           | reflect.Interface, _ => Some None
           | _, _ => Some (Some (t, c))
           end
  end.

(** *** Machine integers and floats *)

Definition wrapU64 (z : Z) : Z := z mod 2 ^ 64.
Definition wrapS64 (z : Z) : Z := (z + 2 ^ 63) mod 2 ^ 64 - 2 ^ 63.

(** [(x << (64 - bitSize)) >> (64 - bitSize)] on an [int64]. *)
Definition truncInt (bitSize x : Z) : Z :=
  Z.shiftr (wrapS64 (Z.shiftl x (64 - bitSize))) (64 - bitSize).

(** The same on a [uint64]. *)
Definition truncUint (bitSize x : Z) : Z :=
  Z.shiftr (wrapU64 (Z.shiftl x (64 - bitSize))) (64 - bitSize).

Definition OverflowInt (v : Value) (x : Z) : bool :=
  negb (x =? truncInt (reflect.bits (KindOf v)) x).

Definition OverflowUint (v : Value) (x : Z) : bool :=
  negb (x =? truncUint (reflect.bits (KindOf v)) x).

(** [float64(i)] for an integer: round to nearest, ties to even. *)
Definition float64OfZ (z : Z) : float :=
  SF2Prim (SpecFloat.binary_normalize 53 1024 z 0 false).

Definition MaxFloat32 : float :=
  float64OfZ 340282346638528859811704183484516925440.

Definition MaxFloat64 : float :=
  float64OfZ ((2 ^ 53 - 1) * 2 ^ 971).

Definition overflowFloat32 (x : float) : bool :=
  let x := if PrimFloat.ltb x 0%float then PrimFloat.opp x else x in
  PrimFloat.ltb MaxFloat32 x && PrimFloat.leb x MaxFloat64.

Definition OverflowFloat (v : Value) (x : float) : bool :=
  match KindOf v with
  | reflect.Float32 => overflowFloat32 x
  | _ => false
  end.

(** [float32(x)] read back as a [float64]. *)
Definition roundFloat32 (x : float) : float :=
  match Prim2SF x with
  | SpecFloat.S754_finite s m e =>
      SF2Prim (SpecFloat.binary_normalize 24 128 (if s then Z.neg m else Z.pos m) e s)
  | _ => x
  end.

(** The integer part of a finite float. *)
Definition truncFloat (x : float) : option Z :=
  match Prim2SF x with
  | SpecFloat.S754_zero _ => Some 0
  | SpecFloat.S754_finite s m e =>
      let mag := if 0 <=? e then Z.pos m * 2 ^ e else Z.pos m / 2 ^ (- e) in
      Some (if s then - mag else mag)
  | _ => None
  end.

(** What the package takes from the Go runtime and library without this
    development looking inside: the two parsers, and the result of
    converting a float that the integer type cannot represent, which the
    language leaves to the implementation. *)
Record Runtime := mkRuntime {
  ParseFloat : string -> float + strconv.NumErr;
  ParseDuration : string -> option Z;
  int64OfBadFloat : float -> Z;
  uint64OfBadFloat : float -> Z
}.

(** [int64(f)] and [uint64(f)]. *)
Definition int64OfFloat (rt : Runtime) (f : float) : Z :=
  match truncFloat f with
  | Some z => if (- 2 ^ 63 <=? z) && (z <? 2 ^ 63) then z
              else wrapS64 (int64OfBadFloat rt f)
  | None => wrapS64 (int64OfBadFloat rt f)
  end.

Definition uint64OfFloat (rt : Runtime) (f : float) : Z :=
  match truncFloat f with
  | Some z => if (0 <=? z) && (z <? 2 ^ 64) then z
              else wrapU64 (uint64OfBadFloat rt f)
  | None => wrapU64 (uint64OfBadFloat rt f)
  end.

(** *** Setters

    Each returns the handle with its new contents.  In Go they panic on a
    handle that is not settable; every call in the package comes after a
    [CanSet] test. *)

Definition withCur (v : Value) (c : gval) : Value :=
  match v with
  | VZero => VZero
  | V t _ l ro addr => V t c l ro addr
  end.

Definition SetBool (v : Value) (b : bool) : Value := withCur v (VBool b).

Definition SetString (v : Value) (s : string) : Value := withCur v (VString s).

Definition SetInt (v : Value) (x : Z) : Value :=
  withCur v (VInt (truncInt (reflect.bits (KindOf v)) x)).

Definition SetUint (v : Value) (x : Z) : Value :=
  withCur v (VUint (truncUint (reflect.bits (KindOf v)) x)).

Definition SetFloat (v : Value) (x : float) : Value :=
  withCur v (VFloat (match KindOf v with
                     | reflect.Float32 => roundFloat32 x
                     | _ => x
                     end)).

Fixpoint fieldsIdentical (xs ys : list (StructField * rtype)) : bool :=
  match xs, ys with
  | [], [] => true
  | (f, t) :: xs', (f', t') :: ys' =>
      String.eqb (Name f) (Name f') && tag_eqb (Tag f) (Tag f')
      && rtype_eqb t t' && fieldsIdentical xs' ys'
  | _, _ => false
  end.

(** [directlyAssignable(T, V)]: the same type, or struct types with
    identical fields of which at least one has no name. *)
Definition directlyAssignable (T V : rtype) : bool :=
  rtype_eqb T V ||
  match T, V with
  | TStruct n fs, TStruct n' fs' =>
      (String.eqb n "" || String.eqb n' "") && fieldsIdentical fs fs'
  | _, _ => false
  end.

(** [v.Set(x)]: panics ([None]) when [x]'s type is not assignable to
    [v]'s. *)
Definition Set_ (v x : Value) : option Value :=
  match v, x with
  | V t _ _ _ _, V t' c' _ _ _ =>
      if directlyAssignable t t' then Some (withCur v c') else None
  | _, _ => None
  end.

(** *** The record behind the handles *)

(** What sits at a position. *)
Fixpoint fetch (t : rtype) (c : gval) (l : loc) {struct l} : option (rtype * gval) :=
  match l with
  | [] => Some (t, c)
  | SField i :: l' =>
      match t, c with
      | TStruct _ fields, VStruct fs =>
          match fields !! i, fs !! i with
          | Some (_, ft), Some fc => fetch ft fc l'
          | _, _ => None
          end
      | _, _ => None
      end
  | SElem :: l' =>
      match t, c with
      | TPtr e, VPtr (Some p) => fetch e p l'
      | _, _ => None
      end
  end.

(** The record with the contents at a position replaced. *)
Fixpoint store (c : gval) (l : loc) (new : gval) {struct l} : gval :=
  match l with
  | [] => new
  | SField i :: l' =>
      match c with
      | VStruct fs => VStruct (alter (fun fc => store fc l' new) i fs)
      | _ => c
      end
  | SElem :: l' =>
      match c with
      | VPtr (Some p) => VPtr (Some (store p l' new))
      | _ => c
      end
  end.

(** Writing a handle's contents back into the [interface{}] it was taken
    from. *)
Definition assign (cfg : iface) (field : Value) : iface :=
  match cfg, field with
  | Some (t, c), V _ new l _ _ => Some (t, store c l new)
  | _, _ => cfg
  end.

(** ** Errors *)

Inductive arg :=
| AStr (s : string) | AInt (n : Z) | AFloat (f : float) | AKind (k : Kind).

(** The package's sentinel errors, the errors of the libraries it calls,
    and [fmt.Errorf] with its format, its arguments and the error it wraps
    with [%w]. *)
Inductive error :=
| ErrInvalidConfig | ErrLoadFailed | ErrValidation
| ErrFieldNotSettable | ErrIncompatibleType | ErrFieldNotFound
| NumError (func num : string) (err : strconv.NumErr)
| Foreign (msg : string)
| Errorf (format : string) (args : list arg) (wrapped : option error).

(** How a call ends: it returns nil, returns an error, or panics. *)
Inductive result :=
| ok
| failed (e : error)
| panicked (msg : string).

Definition ofError (e : option error) : result :=
  match e with None => ok | Some err => failed err end.

(** ** provider_default.go *)

(** [isZeroValue] checks if a field has its zero/empty value. *)
Definition isZeroValue (v : Value) : bool :=
  match KindOf v with
  | reflect.Bool => negb (getBool v)
  | reflect.Int | reflect.Int8 | reflect.Int16 | reflect.Int32 | reflect.Int64 =>
      getInt v =? 0
  | reflect.Uint | reflect.Uint8 | reflect.Uint16 | reflect.Uint32
  | reflect.Uint64 =>
      getUint v =? 0
  | reflect.Float32 | reflect.Float64 => PrimFloat.eqb (getFloat v) 0%float
  | reflect.String => String.eqb (getString v) ""
  | reflect.Ptr | reflect.Interface => IsNil v
  | reflect.Slice | reflect.Map | reflect.Array => Len v =? 0
  | _ => false
  end.

Definition convertFromString (rt : Runtime) (field : Value) (strValue : string)
  : Value * bool :=
  match KindOf field with
  | reflect.Bool =>
      match strconv.ParseBool strValue with
      | Some b => (SetBool field b, true)
      | None => (field, false)
      end
  | reflect.Int | reflect.Int8 | reflect.Int16 | reflect.Int32 | reflect.Int64 =>
      match strconv.ParseInt strValue with
      | inl i => if OverflowInt field i then (field, false)
                 else (SetInt field i, true)
      | inr _ => (field, false)
      end
  | reflect.Uint | reflect.Uint8 | reflect.Uint16 | reflect.Uint32
  | reflect.Uint64 =>
      match strconv.ParseUint strValue with
      | inl u => if OverflowUint field u then (field, false)
                 else (SetUint field u, true)
      | inr _ => (field, false)
      end
  | reflect.Float32 | reflect.Float64 =>
      match ParseFloat rt strValue with
      | inl f => if OverflowFloat field f then (field, false)
                 else (SetFloat field f, true)
      | inr _ => (field, false)
      end
  | _ => (field, false)
  end.

Definition tryConversion (rt : Runtime) (field val : Value) : Value * bool :=
  if reflect.leb reflect.Int (KindOf val) && reflect.leb (KindOf val) reflect.Int64
  then
    (* Int -> other numeric types *)
    let i := getInt val in
    match KindOf field with
    | reflect.Float32 | reflect.Float64 =>
        if negb (OverflowFloat field (float64OfZ i))
        then (SetFloat field (float64OfZ i), true) else (field, false)
    | reflect.Uint | reflect.Uint8 | reflect.Uint16 | reflect.Uint32
    | reflect.Uint64 =>
        if (i >=? 0) && negb (OverflowUint field (wrapU64 i))
        then (SetUint field (wrapU64 i), true) else (field, false)
    | _ => (field, false)
    end
  else if reflect.leb reflect.Uint (KindOf val)
          && reflect.leb (KindOf val) reflect.Uint64
  then
    (* Uint -> other numeric types *)
    let u := getUint val in
    match KindOf field with
    | reflect.Float32 | reflect.Float64 =>
        if negb (OverflowFloat field (float64OfZ u))
        then (SetFloat field (float64OfZ u), true) else (field, false)
    | reflect.Int | reflect.Int8 | reflect.Int16 | reflect.Int32
    | reflect.Int64 =>
        if negb (OverflowInt field (wrapS64 u))
        then (SetInt field (wrapS64 u), true) else (field, false)
    | _ => (field, false)
    end
  else if reflect.eqb (KindOf val) reflect.Float32
          || reflect.eqb (KindOf val) reflect.Float64
  then
    (* Float -> other numeric types (with truncation) *)
    let f := getFloat val in
    match KindOf field with
    | reflect.Int | reflect.Int8 | reflect.Int16 | reflect.Int32
    | reflect.Int64 =>
        if negb (OverflowInt field (int64OfFloat rt f))
        then (SetInt field (int64OfFloat rt f), true) else (field, false)
    | reflect.Uint | reflect.Uint8 | reflect.Uint16 | reflect.Uint32
    | reflect.Uint64 =>
        if PrimFloat.leb 0%float f && negb (OverflowUint field (uint64OfFloat rt f))
        then (SetUint field (uint64OfFloat rt f), true) else (field, false)
    | _ => (field, false)
    end
  else (field, false).

(** [setFieldValue] sets a value on a field, converting types if
    necessary.  The handle comes back with what the field holds
    afterwards. *)
Definition setFieldValue (rt : Runtime) (field : Value) (value : iface)
  : Value * result :=
  if negb (CanSet field) then (field, failed ErrFieldNotSettable)
  else
    let val := ValueOf value in
    if negb (reflect.eqb (KindOf field) (KindOf val)) then
      let '(field', converted) :=
        if reflect.eqb (KindOf val) reflect.String
        then convertFromString rt field (getString val)
        else tryConversion rt field val in
      if negb converted then (field', failed ErrIncompatibleType)
      else (field', ok)
    else
      match Set_ field val with
      | Some field' => (field', ok)
      | None => (field, panicked "reflect.Set: value is not assignable to type")
      end.

(** The loop of [getFieldByPath] over the parts that are left; [value] is
    the struct reached so far.  A part is the last one when nothing
    follows it. *)
Fixpoint getFieldByPathFrom (value : Value) (parts : list string)
  : Value + error :=
  match parts with
  | [] => inr ErrFieldNotFound
  | part :: rest =>
      let field := FieldByName value part in
      if negb (IsValid field) then inr ErrFieldNotFound
      else
        match rest with
        | [] => inl field
        | _ =>
            if reflect.eqb (KindOf field) reflect.Ptr && IsNil field
            then inr ErrFieldNotFound
            else
              let field :=
                if reflect.eqb (KindOf field) reflect.Ptr then Elem field
                else field in
              if negb (reflect.eqb (KindOf field) reflect.Struct)
              then inr ErrFieldNotFound
              else getFieldByPathFrom field rest
        end
  end.

(** [getFieldByPath] gets a field by its path (e.g., "Server.Port"). *)
Definition getFieldByPath (structValue : Value) (path : string) : Value + error :=
  getFieldByPathFrom structValue (strings.Split path ".").

Record DefaultProvider := mkDefaultProvider {
  DefaultValues : gmap string iface
}.

Definition NewDefaultProvider : DefaultProvider :=
  mkDefaultProvider ∅.

Definition WithDefault (p : DefaultProvider) (fieldPath : string) (value : iface)
  : DefaultProvider :=
  mkDefaultProvider (<[fieldPath := value]> (DefaultValues p)).

Definition isPtrToStruct (cfg : iface) : bool :=
  let v := ValueOf cfg in
  reflect.eqb (KindOf v) reflect.Ptr
  && reflect.eqb (KindOf (Elem v)) reflect.Struct.

(** The body of the loop of [DefaultProvider.Load], over the entries still
    to visit. *)
Fixpoint applyDefaults (rt : Runtime) (entries : list (string * iface))
  (cfg : iface) : iface * result :=
  match entries with
  | [] => (cfg, ok)
  | (fieldPath, defaultValue) :: rest =>
      match getFieldByPath (Elem (ValueOf cfg)) fieldPath with
      | inr _ => applyDefaults rt rest cfg
      | inl field =>
          if isZeroValue field then
            match setFieldValue rt field defaultValue with
            | (field', panicked msg) => (assign cfg field', panicked msg)
            | (field', _) => applyDefaults rt rest (assign cfg field')
            end
          else applyDefaults rt rest cfg
      end
  end.

(** [DefaultProvider.Load]; [order] is the order in which the range over
    the map delivers its entries. *)
Definition DefaultProvider_Load (rt : Runtime) (p : DefaultProvider)
  (order : list (string * iface)) (cfg : iface) : iface * result :=
  if decide (size (DefaultValues p) = 0%nat) then (cfg, ok)
  else if negb (isPtrToStruct cfg) then (cfg, failed ErrInvalidConfig)
  else applyDefaults rt order cfg.

(** An order is one the range may take when it lists the map's entries,
    each once. *)
Definition rangeOrder {A} (m : gmap string A) (order : list (string * A)) : Prop :=
  order ≡ₚ map_to_list m.

(** ** The environment provider *)

Definition elemKind (t : rtype) : Kind :=
  match t with
  | TPtr e | TSlice e | TArray _ e => kindOf e
  | _ => reflect.Invalid
  end.

Definition durationType : rtype := TPrim reflect.Int64 "time.Duration".
Definition stringType : rtype := TPrim reflect.String "string".

(** The element type of a pointer, slice or array type. *)
Definition elemType (t : rtype) : rtype :=
  match t with
  | TPtr e | TSlice e | TArray _ e => e
  | _ => TPrim reflect.Invalid "<nil>"
  end.

(** The loop that appends the comma-separated pieces to the new slice:
    each piece is trimmed and an empty one is passed over.
    [reflect.Append(slice, reflect.ValueOf(v))] panics ([None]) unless a
    [string] is assignable to the element type [elem] of the slice. *)
Fixpoint appendTrimmed (elem : rtype) (values : list string) : option (list gval) :=
  match values with
  | [] => Some []
  | v :: rest =>
      let v := strings.TrimSpace v in
      if negb (String.eqb v "") then
        if directlyAssignable elem stringType
        then option_map (cons (VString v)) (appendTrimmed elem rest)
        else None
      else appendTrimmed elem rest
  end.

(** [applyValueToField] applies a value to a field based on its type. *)
Definition applyValueToField (rt : Runtime) (field : Value) (value : string)
  : Value * result :=
  match KindOf field with
  | reflect.String => (SetString field value, ok)
  | reflect.Int | reflect.Int8 | reflect.Int16 | reflect.Int32 | reflect.Int64 =>
      if String.eqb (TypeString (Type_ field)) "time.Duration" then
        match ParseDuration rt value with
        | None => (field, failed (Foreign "time: invalid duration"))
        | Some duration =>
            match Set_ field (ValueOf (Some (durationType, VInt duration))) with
            | Some field' => (field', ok)
            | None => (field, panicked "reflect.Set: value is not assignable to type")
            end
        end
      else
        match strconv.ParseInt value with
        | inr e => (field, failed (NumError "ParseInt" value e))
        | inl intValue =>
            if OverflowInt field intValue
            then (field, failed (Errorf "value %d overflows field %s"
                                   [AInt intValue; AStr (TypeString (Type_ field))] None))
            else (SetInt field intValue, ok)
        end
  | reflect.Uint | reflect.Uint8 | reflect.Uint16 | reflect.Uint32
  | reflect.Uint64 =>
      match strconv.ParseUint value with
      | inr e => (field, failed (NumError "ParseUint" value e))
      | inl uintValue =>
          if OverflowUint field uintValue
          then (field, failed (Errorf "value %d overflows field %s"
                                 [AInt uintValue; AStr (TypeString (Type_ field))] None))
          else (SetUint field uintValue, ok)
      end
  | reflect.Float32 | reflect.Float64 =>
      match ParseFloat rt value with
      | inr e => (field, failed (NumError "ParseFloat" value e))
      | inl floatValue =>
          if OverflowFloat field floatValue
          then (field, failed (Errorf "value %f overflows field %s"
                                 [AFloat floatValue; AStr (TypeString (Type_ field))] None))
          else (SetFloat field floatValue, ok)
      end
  | reflect.Bool =>
      match strconv.ParseBool value with
      | None => (field, failed (NumError "ParseBool" value strconv.ErrSyntax))
      | Some boolValue => (SetBool field boolValue, ok)
      end
  | reflect.Slice =>
      if reflect.eqb (elemKind (Type_ field)) reflect.String then
        (* Handle string slices (comma-separated values) *)
        match appendTrimmed (elemType (Type_ field)) (strings.Split value ",") with
        | Some slice => (withCur field (VSlice (Some slice)), ok)
        | None => (field, panicked "reflect.Set: value is not assignable to type")
        end
      else (field, ok)
  | _ =>
      (field, failed (Errorf "unsupported field type: %s"
                        [AStr (TypeString (Type_ field))] None))
  end.

(** The name of the variable [processStruct] asks the environment for. *)
Definition envVarName (prefix : string) (fieldType : StructField) : string :=
  let tag := tagGet (Tag fieldType) "env" in
  let envTag := if negb (String.eqb tag "") then tag else Name fieldType in
  let envVarName := strings.ToUpper envTag in
  if negb (String.eqb prefix "") then prefix ++ "_" ++ envVarName
  else envVarName.

(** What a call of [processStruct] leaves behind: the struct as it is
    afterwards, the variables it asked [os.Getenv] for, in order, and how it
    ended. *)
Definition walk : Type := gval * list string * result.

(** [processStruct] processes a struct's fields for environment variables.
    [t] and [c] are the type and the contents of [v], which is settable at
    every call: it is what [cfg] points to, a field that passed [CanSet], or
    a struct that was just allocated.  So a field can be set exactly when it
    is exported.  The inner function is the loop over the fields.  This is
    the traversal on a type that is a tree, where it follows the type down
    and ends; [declared.processStruct] below is the traversal on struct
    types that may mention themselves, where it need not. *)
Fixpoint processStruct (rt : Runtime) (env : string -> string)
  (t : rtype) (c : gval) (prefix parent : string) {struct t} : walk :=
  match t, c with
  | TStruct _ fields, VStruct fs =>
      let '(fs', asked, r) :=
        (fix loop (fields : list (StructField * rtype)) (fs : list gval)
           {struct fields} : list gval * list string * result :=
           match fields, fs with
           | (fieldType, ft) :: fields', fc :: fs' =>
               let field := V ft fc [] (negb (IsExported fieldType)) true in
               let continue (fc' : gval) (asked : list string) :=
                 let '(fs'', asked', r) := loop fields' fs' in
                 (fc' :: fs'', (asked ++ asked')%list, r) in
               (* Skip unexported fields *)
               if negb (CanSet field) then continue fc []
               else
                 let fieldName := Name fieldType in
                 let path :=
                   if negb (String.eqb parent "") then parent ++ "_" ++ fieldName
                   else fieldName in
                 match ft with
                 | TStruct _ _ =>
                     (* Recurse into nested structs *)
                     let '(fc', asked, r) := processStruct rt env ft fc prefix path in
                     match r with
                     | ok => continue fc' asked
                     | _ => (fc' :: fs', asked, r)
                     end
                 | TPtr e =>
                     match e with
                     | TStruct _ _ =>
                         (* nil: create a new struct, set it and process it;
                            otherwise process the existing struct *)
                         let target :=
                           match fc with
                           | VPtr (Some p) => p
                           | _ => zero e
                           end in
                         let '(p', asked, r) :=
                           processStruct rt env e target prefix path in
                         match r with
                         | ok => continue (VPtr (Some p')) asked
                         | _ => (VPtr (Some p') :: fs', asked, r)
                         end
                     | _ => continue fc []
                     end
                 | _ =>
                     let name := envVarName prefix fieldType in
                     let envValue := env name in
                     if String.eqb envValue "" then continue fc [name]
                     else
                       match applyValueToField rt field envValue with
                       | (field', ok) =>
                           continue (match field' with
                                     | V _ c' _ _ _ => c'
                                     | VZero => fc
                                     end) [name]
                       | (field', failed err) =>
                           (match field' with V _ c' _ _ _ => c' | VZero => fc end
                              :: fs',
                            [name],
                            failed (Errorf "failed to apply environment variable %s: %w"
                                      [AStr name] (Some err)))
                       | (field', panicked msg) =>
                           (match field' with V _ c' _ _ _ => c' | VZero => fc end
                              :: fs',
                            [name], panicked msg)
                       end
                 end
           | _, _ => (fs, [], ok)
           end) fields fs in
      (VStruct fs', asked, r)
  | _, _ => (c, [], ok)
  end.

(** [applyEnvVariables] applies environment variables to the configuration. *)
Definition applyEnvVariables (rt : Runtime) (env : string -> string)
  (cfg : iface) (prefix : string) : iface * list string * result :=
  if negb (isPtrToStruct cfg) then (cfg, [], failed ErrInvalidConfig)
  else
    match cfg with
    | Some (TPtr t, VPtr (Some c)) =>
        let '(c', asked, r) := processStruct rt env t c prefix "" in
        (Some (TPtr t, VPtr (Some c')), asked, r)
    | _ => (cfg, [], failed ErrInvalidConfig)
    end.

Record EnvProvider := mkEnvProvider { Prefix : string }.

Definition NewEnvProvider (prefix : string) : EnvProvider := mkEnvProvider prefix.

Definition EnvProvider_Load (rt : Runtime) (env : string -> string)
  (p : EnvProvider) (cfg : iface) : iface * list string * result :=
  applyEnvVariables rt env cfg (Prefix p).

(** ** The validator *)

Definition ValidationTagName : string := "validate".

(** A validation function, [func(interface{}) error]. *)
Definition Rule : Type := iface -> option error.

Record DefaultValidator := mkDefaultValidator {
  Rules : gmap string Rule;
  UseTagValidation : bool
}.

Definition NewDefaultValidator : DefaultValidator :=
  mkDefaultValidator ∅ true.

Definition AddRule (v : DefaultValidator) (fieldPath : string) (rule : Rule)
  : DefaultValidator :=
  mkDefaultValidator (<[fieldPath := rule]> (Rules v)) (UseTagValidation v).

Definition DisableTagValidation (v : DefaultValidator) : DefaultValidator :=
  mkDefaultValidator (Rules v) false.

Definition EnableTagValidation (v : DefaultValidator) : DefaultValidator :=
  mkDefaultValidator (Rules v) true.

(** [RequiredRule] validates that a field is not empty. *)
Definition RequiredRule : Rule := fun value =>
  let v := ValueOf value in
  let required := Some (Errorf "value is required" [] None) in
  match KindOf v with
  | reflect.String => if String.eqb (getString v) "" then required else None
  | reflect.Int | reflect.Int8 | reflect.Int16 | reflect.Int32 | reflect.Int64 =>
      if getInt v =? 0 then required else None
  | reflect.Uint | reflect.Uint8 | reflect.Uint16 | reflect.Uint32
  | reflect.Uint64 =>
      if getUint v =? 0 then required else None
  | reflect.Float32 | reflect.Float64 =>
      if PrimFloat.eqb (getFloat v) 0%float then required else None
  | reflect.Slice | reflect.Map | reflect.Array =>
      if Len v =? 0 then required else None
  | reflect.Ptr | reflect.Interface => if IsNil v then required else None
  | _ => None
  end.

(** [RangeRule] validates that a numeric field is within a range. *)
Definition RangeRule (min max : Z) : Rule := fun value =>
  let v := ValueOf value in
  let check (val : Z) :=
    if val <? min
    then Some (Errorf "value %d is less than minimum %d" [AInt val; AInt min] None)
    else if val >? max
    then Some (Errorf "value %d is greater than maximum %d" [AInt val; AInt max] None)
    else None in
  match KindOf v with
  | reflect.Int | reflect.Int8 | reflect.Int16 | reflect.Int32 | reflect.Int64 =>
      check (getInt v)
  | reflect.Uint | reflect.Uint8 | reflect.Uint16 | reflect.Uint32
  | reflect.Uint64 =>
      let uval := getUint v in
      if uval >? wrapU64 max
      then Some (Errorf "value %d is greater than maximum %d" [AInt uval; AInt max] None)
      else check (wrapS64 uval)
  | _ => Some (Errorf "value must be numeric" [] None)
  end.

(** [MinRule] validates that a numeric field is at least the minimum value. *)
Definition MinRule (min : Z) : Rule := fun value =>
  let v := ValueOf value in
  match KindOf v with
  | reflect.Int | reflect.Int8 | reflect.Int16 | reflect.Int32 | reflect.Int64 =>
      let val := getInt v in
      if val <? min
      then Some (Errorf "value %d is less than minimum %d" [AInt val; AInt min] None)
      else None
  | reflect.Uint | reflect.Uint8 | reflect.Uint16 | reflect.Uint32
  | reflect.Uint64 =>
      let val := getUint v in
      if val <? wrapU64 min
      then Some (Errorf "value %d is less than minimum %d" [AInt val; AInt min] None)
      else None
  | reflect.Float32 | reflect.Float64 =>
      let val := getFloat v in
      if PrimFloat.ltb val (float64OfZ min)
      then Some (Errorf "value %f is less than minimum %d" [AFloat val; AInt min] None)
      else None
  | reflect.Slice | reflect.Map | reflect.Array =>
      let length := Len v in
      if length <? min
      then Some (Errorf "length %d is less than minimum %d" [AInt length; AInt min] None)
      else None
  | _ => Some (Errorf "value type does not support min validation" [] None)
  end.

(** [MaxRule] validates that a numeric field is at most the maximum value. *)
Definition MaxRule (max : Z) : Rule := fun value =>
  let v := ValueOf value in
  match KindOf v with
  | reflect.Int | reflect.Int8 | reflect.Int16 | reflect.Int32 | reflect.Int64 =>
      let val := getInt v in
      if val >? max
      then Some (Errorf "value %d is greater than maximum %d" [AInt val; AInt max] None)
      else None
  | reflect.Uint | reflect.Uint8 | reflect.Uint16 | reflect.Uint32
  | reflect.Uint64 =>
      let val := getUint v in
      if val >? wrapU64 max
      then Some (Errorf "value %d is greater than maximum %d" [AInt val; AInt max] None)
      else None
  | reflect.Float32 | reflect.Float64 =>
      let val := getFloat v in
      if PrimFloat.ltb (float64OfZ max) val
      then Some (Errorf "value %f is greater than maximum %d" [AFloat val; AInt max] None)
      else None
  | reflect.Slice | reflect.Map | reflect.Array =>
      let length := Len v in
      if length >? max
      then Some (Errorf "length %d is greater than maximum %d" [AInt length; AInt max] None)
      else None
  | _ => Some (Errorf "value type does not support max validation" [] None)
  end.

(** Applying a rule to what the field holds, with the error wrapped as
    [validateFieldByTag] wraps it. *)
Definition applyRule (rule : Rule) (field : Value) (fieldPath : string) : result :=
  match Interface field with
  | None => panicked "reflect.Value.Interface: cannot return value obtained from unexported field or method"
  | Some value =>
      match rule value with
      | Some err =>
          failed (Errorf "validation failed for field %s: %w" [AStr fieldPath] (Some err))
      | None => ok
      end
  end.

Definition parseArg (what : string) (fieldPath s : string) : Z + error :=
  match strconv.ParseInt s with
  | inl n => inl n
  | inr e => inr (Errorf what [AStr fieldPath] (Some (NumError "ParseInt" s e)))
  end.

(** One clause of a validation tag, already trimmed and not empty. *)
Definition validateClause (field : Value) (fieldPath rule : string) : result :=
  let parts := strings.SplitN2 rule ":" in
  let ruleName := hd "" parts in
  if String.eqb ruleName "required" then applyRule RequiredRule field fieldPath
  else if String.eqb ruleName "range" then
    match parts with
    | [_; arg] =>
        (* Parse range values *)
        match strings.Split arg "-" with
        | [lo; hi] =>
            match parseArg "invalid range minimum for field %s: %w" fieldPath lo with
            | inr err => failed err
            | inl min =>
                match parseArg "invalid range maximum for field %s: %w" fieldPath hi with
                | inr err => failed err
                | inl max => applyRule (RangeRule min max) field fieldPath
                end
            end
        | _ => failed (Errorf "invalid range format for field %s: expected min-max"
                         [AStr fieldPath] None)
        end
    | _ => failed (Errorf "invalid range rule for field %s: missing range values"
                     [AStr fieldPath] None)
    end
  else if String.eqb ruleName "min" then
    match parts with
    | [_; arg] =>
        match parseArg "invalid min value for field %s: %w" fieldPath arg with
        | inr err => failed err
        | inl min => applyRule (MinRule min) field fieldPath
        end
    | _ => failed (Errorf "invalid min rule for field %s: missing value"
                     [AStr fieldPath] None)
    end
  else if String.eqb ruleName "max" then
    match parts with
    | [_; arg] =>
        match parseArg "invalid max value for field %s: %w" fieldPath arg with
        | inr err => failed err
        | inl max => applyRule (MaxRule max) field fieldPath
        end
    | _ => failed (Errorf "invalid max rule for field %s: missing value"
                     [AStr fieldPath] None)
    end
  else ok.

(** The loop of [validateFieldByTag] over the comma-separated clauses. *)
Fixpoint validateClauses (field : Value) (fieldPath : string) (rules : list string)
  : result :=
  match rules with
  | [] => ok
  | rule :: rest =>
      let rule := strings.TrimSpace rule in
      if String.eqb rule "" then validateClauses field fieldPath rest
      else
        match validateClause field fieldPath rule with
        | ok => validateClauses field fieldPath rest
        | r => r
        end
  end.

(** [validateFieldByTag] validates a field based on its validation tag. *)
Definition validateFieldByTag (field : Value) (fieldPath tag : string) : result :=
  validateClauses field fieldPath (strings.Split tag ",").

(** [validateStructFields] validates all fields in a struct recursively.
    [t] and [c] are the type and contents of [value]; [settable] says
    whether [value] is addressable and not read-only, which its fields
    inherit.  The inner function is the loop over the fields. *)
Fixpoint validateStructFields (t : rtype) (c : gval) (settable : bool)
  (prefix : string) {struct t} : result :=
  match t, c with
  | TStruct _ fields, VStruct fs =>
      (fix loop (fields : list (StructField * rtype)) (fs : list gval)
         {struct fields} : result :=
         match fields, fs with
         | (fieldType, ft) :: fields', fc :: fs' =>
             let field := V ft fc [] (negb settable || negb (IsExported fieldType)) settable in
             (* Skip unexported fields *)
             if negb (CanSet field) then loop fields' fs'
             else
               let fieldPath :=
                 if negb (String.eqb prefix "") then prefix ++ "." ++ Name fieldType
                 else Name fieldType in
               (* Process tag validation *)
               let tag := tagGet (Tag fieldType) ValidationTagName in
               match (if negb (String.eqb tag "")
                      then validateFieldByTag field fieldPath tag else ok) with
               | ok =>
                   (* Recursively validate nested structs *)
                   match
                     match ft with
                     | TStruct _ _ => validateStructFields ft fc true fieldPath
                     | TPtr e =>
                         match e, fc with
                         | TStruct _ _, VPtr (Some p) =>
                             validateStructFields e p true fieldPath
                         | _, _ => ok
                         end
                     | _ => ok
                     end
                   with
                   | ok => loop fields' fs'
                   | r => r
                   end
               | r => r
               end
         | _, _ => ok
         end) fields fs
  | _, _ => ok
  end.

(** The struct [cfg] is or points to, as [validateTags] and
    [getFieldValue] reach it. *)
Definition derefStruct (obj : iface) : Value :=
  let value := ValueOf obj in
  if reflect.eqb (KindOf value) reflect.Ptr then Elem value else value.

(** [validateTags] validates fields based on their tags. *)
Definition validateTags (cfg : iface) : result :=
  let value := derefStruct cfg in
  if negb (reflect.eqb (KindOf value) reflect.Struct) then ok
  else
    match value with
    | V t c _ _ _ => validateStructFields t c (CanSet value) ""
    | VZero => ok
    end.

(** The loop of [getFieldValue]; [i] counts the parts already walked. *)
Fixpoint getFieldValueFrom (value : Value) (parts : list string) (i : Z)
  (path : string) : Value + error :=
  match parts with
  | [] => inr (Errorf "invalid field path: %s" [AStr path] None)
  | part :: rest =>
      let field := FieldByName value part in
      if negb (IsValid field)
      then inr (Errorf "field %s not found at part %d of path %s"
                  [AStr part; AInt i; AStr path] None)
      else
        match rest with
        | [] => inl field
        | _ =>
            if reflect.eqb (KindOf field) reflect.Ptr && IsNil field
            then inr (Errorf "field %s is nil at part %d of path %s"
                        [AStr part; AInt i; AStr path] None)
            else
              let field :=
                if reflect.eqb (KindOf field) reflect.Ptr then Elem field
                else field in
              if negb (reflect.eqb (KindOf field) reflect.Struct)
              then inr (Errorf "field %s is not a struct at part %d of path %s"
                          [AStr part; AInt i; AStr path] None)
              else getFieldValueFrom field rest (i + 1) path
        end
  end.

(** [getFieldValue] returns the value of a field at the given path. *)
Definition getFieldValue (obj : iface) (path : string) : Value + error :=
  let value := derefStruct obj in
  if negb (reflect.eqb (KindOf value) reflect.Struct)
  then inr (Errorf "expected struct, got %v" [AKind (KindOf value)] None)
  else getFieldValueFrom value (strings.Split path ".") 0 path.

(** The body of the loop of [Validate] over the explicit rules: one entry
    of [Rules] against the record. *)
Definition applyExplicitRule (cfg : iface) (entry : string * Rule) : result :=
  let '(fieldPath, rule) := entry in
  match getFieldValue cfg fieldPath with
  | inr err => failed (Errorf "validation error: %w" [] (Some err))
  | inl value => applyRule rule value fieldPath
  end.

(** The loop itself, over the entries in the order the range delivers
    them; the first entry that does not pass ends it. *)
Fixpoint applyExplicitRules (entries : list (string * Rule)) (cfg : iface) : result :=
  match entries with
  | [] => ok
  | entry :: rest =>
      match applyExplicitRule cfg entry with
      | ok => applyExplicitRules rest cfg
      | r => r
      end
  end.

(** [DefaultValidator.Validate]; [order] is the order in which the range
    over [Rules] delivers its entries. *)
Definition Validate (v : DefaultValidator) (order : list (string * Rule))
  (cfg : iface) : result :=
  match cfg with
  | None => failed (Errorf "configuration is nil" [] None)
  | Some _ =>
      (* Apply explicit validation rules *)
      match applyExplicitRules order cfg with
      | ok =>
          (* Apply tag-based validation if enabled *)
          if UseTagValidation v then validateTags cfg else ok
      | r => r
      end
  end.

(** ** The secrets provider *)





(** [secretKeyToFieldPath] converts a secret key to a field path. *)
Definition secretKeyToFieldPath (key : string) : string :=
  let parts := strings.Split key "_" in
  strings.Join (map (fun part => strings.Title (strings.ToLower part)) parts) ".".

(** [applySecret] applies a secret value to a configuration field. *)
Definition applySecret (rt : Runtime) (cfg : iface) (secretKey secretValue : string)
  : iface * result :=
  if negb (isPtrToStruct cfg) then (cfg, failed ErrInvalidConfig)
  else
    let fieldPath := secretKeyToFieldPath secretKey in
    match getFieldValue cfg fieldPath with
    | inr err => (cfg, failed err)
    | inl field =>
        let '(field', r) := setFieldValue rt field (Some (stringType, VString secretValue)) in
        (assign cfg field', r)
    end.



(** ** The configurator *)

(** A provider: its name and what its [Load] does to the record. *)
Record Provider := mkProvider {
  ProviderName : string;
  ProviderLoad : iface -> iface * result
}.

(** A validator, [Validate(cfg) error]. *)
Definition Validator : Type := iface -> iface * result.

Record Configurator := mkConfigurator {
  providers : list Provider;
  validator : option Validator;
  logger : bool
}.

Definition New (logger : bool) : Configurator := mkConfigurator [] None logger.

Definition WithProvider (c : Configurator) (provider : Provider) : Configurator :=
  mkConfigurator (providers c ++ [provider])%list (validator c) (logger c).

Definition WithValidator (c : Configurator) (v : Validator) : Configurator :=
  mkConfigurator (providers c) (Some v) (logger c).

(** What [Configurator.Load] does that a caller can observe from outside
    the record: the log lines, the calls of [Load] on providers, the call of
    [Validate]. *)
Inductive event :=
| LogInfo (provider : string)
| CallLoad (provider : string)
| CallValidate.

(** The loop of [Configurator.Load] over the providers. *)
Fixpoint loadProviders (logger : bool) (ps : list Provider) (cfg : iface)
  : iface * list event * result :=
  match ps with
  | [] => (cfg, [], ok)
  | provider :: rest =>
      let logged := if logger then [LogInfo (ProviderName provider)] else [] in
      let called := (logged ++ [CallLoad (ProviderName provider)])%list in
      match ProviderLoad provider cfg with
      | (cfg', ok) =>
          let '(cfg'', trace, r) := loadProviders logger rest cfg' in
          (cfg'', (called ++ trace)%list, r)
      | (cfg', r) => (cfg', called, r)
      end
  end.

(** [Configurator.Load] loads configuration from all registered providers
    into the provided config object. *)
Definition Load (c : Configurator) (cfg : iface) : iface * list event * result :=
  (* Ensure cfg is a pointer to a struct *)
  if negb (isPtrToStruct cfg) then (cfg, [], failed ErrInvalidConfig)
  else
    match loadProviders (logger c) (providers c) cfg with
    | (cfg', trace, ok) =>
        (* Validate the configuration if a validator is set *)
        match validator c with
        | Some validate =>
            let '(cfg'', r) := validate cfg' in
            (cfg'', (trace ++ [CallValidate])%list, r)
        | None => (cfg', trace, ok)
        end
    | (cfg', trace, r) => (cfg', trace, r)
    end.

(** ** What the claims speak about *)

(** Every provider of the list returns nil in turn, taking the record from
    [cfg] to [cfg']. *)
Inductive allSucceed : list Provider -> iface -> iface -> Prop :=
| allSucceed_nil cfg : allSucceed [] cfg cfg
| allSucceed_cons p ps cfg cfg1 cfg' :
    ProviderLoad p cfg = (cfg1, ok) ->
    allSucceed ps cfg1 cfg' ->
    allSucceed (p :: ps) cfg cfg'.

(** The events of loading from the providers of a list, one after the
    other. *)
Definition loadEvents (logger : bool) (ps : list Provider) : list event :=
  flat_map (fun p =>
              ((if logger then [LogInfo (ProviderName p)] else [])
                 ++ [CallLoad (ProviderName p)])%list) ps.

Definition isCallValidate (e : event) : bool :=
  match e with CallValidate => true | _ => false end.

(** ** Records and collaborators used in the examples *)

Definition intType : rtype := TPrim reflect.Int "int".
Definition int8Type : rtype := TPrim reflect.Int8 "int8".
Definition int64Type : rtype := TPrim reflect.Int64 "int64".
Definition uint8Type : rtype := TPrim reflect.Uint8 "uint8".
Definition uint16Type : rtype := TPrim reflect.Uint16 "uint16".
Definition uint64Type : rtype := TPrim reflect.Uint64 "uint64".
Definition float64Type : rtype := TPrim reflect.Float64 "float64".
Definition boolType : rtype := TPrim reflect.Bool "bool".

(** [TestConfig] of configurator_test.go. *)
Definition TestConfig : rtype :=
  TStruct "configurator.TestConfig"
    [ (mkField "Server" [("json", "server")],
       TStruct ""
         [ (mkField "Host" [("json", "host"); ("env", "SERVER_HOST");
                            ("validate", "required")], stringType);
           (mkField "Port" [("json", "port"); ("env", "SERVER_PORT");
                            ("validate", "range:1-65535")], intType) ]);
      (mkField "Database" [("json", "database")],
       TStruct ""
         [ (mkField "URL" [("json", "url"); ("env", "DB_URL");
                           ("validate", "required")], stringType);
           (mkField "Username" [("json", "username"); ("env", "DB_USER");
                                ("validate", "required")], stringType);
           (mkField "Password" [("json", "password"); ("env", "DB_PASS");
                                ("secret", "true"); ("validate", "required")],
            stringType) ]) ].

(** [&TestConfig{}]. *)
Definition emptyTestConfig : iface :=
  Some (TPtr TestConfig, VPtr (Some (zero TestConfig))).

(** A runtime whose float and duration parsers reject everything; the
    examples below never reach them. *)
Definition noFloats : Runtime :=
  mkRuntime (fun _ => inr strconv.ErrSyntax) (fun _ => None) (fun _ => 0) (fun _ => 0).

(** A dynamic provider that sets [Server.Port] to 7070, and one that fails. *)
Definition setPort : Provider :=
  mkProvider "port"
    (fun cfg =>
       (assign cfg (V intType (VInt 7070) [SElem; SField 0%nat; SField 1%nat] false true),
        ok)).

Definition failing : Provider :=
  mkProvider "failing" (fun cfg => (cfg, failed ErrLoadFailed)).

Definition neverCalled : Provider :=
  mkProvider "later" (fun cfg => (cfg, ok)).

(** A record with a [time.Duration] field, and a default for it written as
    a plain [int64]. *)
Definition TimeoutConfig : rtype :=
  TStruct "main.Config" [ (mkField "Timeout" [], durationType) ].

Definition emptyTimeoutConfig : iface :=
  Some (TPtr TimeoutConfig, VPtr (Some (zero TimeoutConfig))).

Definition timeoutDefault : DefaultProvider :=
  WithDefault NewDefaultProvider "Timeout" (Some (int64Type, VInt 30)).

(** A record with an optional sub-record, [Sub *Inner], empty and
    populated. *)
Definition InnerType : rtype := TStruct "main.Inner" [ (mkField "X" [], intType) ].

Definition OuterType : rtype :=
  TStruct "main.Outer" [ (mkField "Sub" [], TPtr InnerType) ].

Definition outerNil : iface :=
  Some (TPtr OuterType, VPtr (Some (zero OuterType))).

Definition outerSet : iface :=
  Some (TPtr OuterType, VPtr (Some (VStruct [VPtr (Some (VStruct [VInt 5]))]))).

Definition subDefault : DefaultProvider :=
  WithDefault NewDefaultProvider "Sub.X" (Some (intType, VInt 9)).

(** Whether a byte occurs in a string. *)
Fixpoint hasByte (s : string) (c : ascii) : bool :=
  match s with
  | EmptyString => false
  | String d r => Ascii.eqb d c || hasByte r c
  end.


(** The validator after a sequence of [AddRule] calls, first call first. *)
Definition registerAll (v : DefaultValidator) (calls : list (string * Rule))
  : DefaultValidator :=
  fold_left (fun v call => AddRule v (fst call) (snd call)) calls v.

(** Two explicit rules for the test record, registered port first. *)
Definition portThenHost : list (string * Rule) :=
  [ ("Server.Port", RangeRule 1 65535); ("Server.Host", RequiredRule) ].

Definition hostThenPort : list (string * Rule) :=
  [ ("Server.Host", RequiredRule); ("Server.Port", RangeRule 1 65535) ].


(** A handle taken from the record [c0] of type [t0] is faithful when the
    record holds, at the handle's position, what the handle says it
    holds. *)
Definition faithful (t0 : rtype) (c0 : gval) (v : Value) : Prop :=
  match v with
  | VZero => True
  | V t c l _ _ => fetch t0 c0 l = Some (t, c)
  end.




(** A record with one field of every scalar kind, each set, and defaults
    for all of them. *)
Definition ScalarsType : rtype :=
  TStruct "main.Scalars"
    [ (mkField "Name" [], stringType); (mkField "Count" [], intType);
      (mkField "Level" [], uint8Type); (mkField "Ratio" [], float64Type);
      (mkField "Debug" [], boolType); (mkField "Limit" [], intType) ].

Definition scalarsSet : iface :=
  Some (TPtr ScalarsType,
        VPtr (Some (VStruct [VString "explicit"; VInt 7; VUint 3;
                             VFloat 0.5%float; VBool true; VInt 0]))).

Definition scalarsDefaults : DefaultProvider :=
  WithDefault
    (WithDefault
       (WithDefault
          (WithDefault
             (WithDefault
                (WithDefault NewDefaultProvider "Name" (Some (stringType, VString "default")))
                "Count" (Some (intType, VInt 1)))
             "Level" (Some (uint8Type, VUint 1)))
          "Ratio" (Some (float64Type, VFloat 1%float)))
       "Debug" (Some (boolType, VBool false)))
    "Limit" (Some (intType, VInt 100)).






(** Every field declared in a type, at any depth the traversals reach:
    the fields of a struct, of its struct fields, and of the structs its
    pointer fields point to. *)
Fixpoint allFields (t : rtype) : list StructField :=
  match t with
  | TStruct _ fields =>
      (fix go (fields : list (StructField * rtype)) : list StructField :=
         match fields with
         | [] => []
         | (f, ft) :: rest => f :: (allFields ft ++ go rest)%list
         end) fields
  | TPtr e => allFields e
  | _ => []
  end.

(** The external name of a field: its [env] tag, or its own name when it
    has none. *)
Definition externalName (f : StructField) : string :=
  let tag := tagGet (Tag f) "env" in
  if String.eqb tag "" then Name f else tag.

(** The nested, untagged [Server.Port], and an environment that sets only
    the name with the enclosing field joined in. *)
Definition AppConfig : rtype :=
  TStruct "main.AppConfig"
    [ (mkField "Server" [], TStruct "" [ (mkField "Port" [], intType) ]) ].

Definition emptyAppConfig : iface :=
  Some (TPtr AppConfig, VPtr (Some (zero AppConfig))).

Definition onlyJoinedName (name : string) : string :=
  if String.eqb name "APP_SERVER_PORT" then "9090" else "".

Definition onlyOwnName (name : string) : string :=
  if String.eqb name "APP_PORT" then "9090" else "".


(** The three parts of what a traversal leaves behind. *)
Definition recordOf (w : walk) : gval := fst (fst w).
Definition askedOf (w : walk) : list string := snd (fst w).
Definition resultOf (w : walk) : result := snd w.

(** A variable name is the one of some field of the type, under a
    prefix. *)
Definition namesField (prefix : string) (t : rtype) (name : string) : Prop :=
  exists f, In f (allFields t) /\ name = envVarName prefix f.


(** The environment of [TestEnvProvider] in configurator_test.go. *)
Definition testEnvironment (name : string) : string :=
  if String.eqb name "TEST_SERVER_HOST" then "testhost"
  else if String.eqb name "TEST_SERVER_PORT" then "9090"
  else if String.eqb name "TEST_DB_URL" then "postgres://localhost:5432/testdb"
  else if String.eqb name "TEST_DB_USER" then "pguser"
  else if String.eqb name "TEST_DB_PASS" then "pgpass"
  else "".


(** No exported pointer-to-struct field that the environment traversal
    reaches is nil: the traversal goes through the exported fields that are
    structs or pointers to structs. *)
Fixpoint populated (t : rtype) (c : gval) {struct t} : bool :=
  match t, c with
  | TStruct _ fields, VStruct fs =>
      (fix loop (fields : list (StructField * rtype)) (fs : list gval)
         {struct fields} : bool :=
         match fields, fs with
         | (f, ft) :: fields', fc :: fs' =>
             (if IsExported f then
                match ft with
                | TStruct _ _ => populated ft fc
                | TPtr e =>
                    match e with
                    | TStruct _ _ =>
                        match fc with
                        | VPtr (Some p) => populated e p
                        | _ => false
                        end
                    | _ => true
                    end
                | _ => true
                end
              else true)
             && loop fields' fs'
         | _, _ => true
         end) fields fs
  | _, _ => true
  end.

(** The record with a zero-valued struct attached to every nil pointer the
    traversal reaches, and nothing else changed. *)
Fixpoint materialize (t : rtype) (c : gval) {struct t} : gval :=
  match t, c with
  | TStruct _ fields, VStruct fs =>
      VStruct
        ((fix loop (fields : list (StructField * rtype)) (fs : list gval)
            {struct fields} : list gval :=
            match fields, fs with
            | (f, ft) :: fields', fc :: fs' =>
                (if IsExported f then
                   match ft with
                   | TStruct _ _ => materialize ft fc
                   | TPtr e =>
                       match e with
                       | TStruct _ _ =>
                           VPtr (Some (materialize e
                                         match fc with
                                         | VPtr (Some p) => p
                                         | _ => zero e
                                         end))
                       | _ => fc
                       end
                   | _ => fc
                   end
                 else fc)
                :: loop fields' fs'
            | _, _ => fs
            end) fields fs)
  | _, _ => c
  end.

(** A record with a number before an optional sub-record, one with an
    optional sub-record inside an unexported field, and an environment
    that sets the number to something that is not one. *)
Definition PortThenSub : rtype :=
  TStruct "main.Config"
    [ (mkField "Port" [], intType); (mkField "Sub" [], TPtr InnerType) ].

Definition emptyPortThenSub : iface :=
  Some (TPtr PortThenSub, VPtr (Some (zero PortThenSub))).

Definition HiddenSub : rtype :=
  TStruct "main.Hidden"
    [ (mkField "inner" [], TStruct "" [ (mkField "Sub" [], TPtr InnerType) ]) ].

Definition emptyHiddenSub : iface :=
  Some (TPtr HiddenSub, VPtr (Some (zero HiddenSub))).

Definition badPort (name : string) : string :=
  if String.eqb name "APP_PORT" then "not-a-number" else "".

Definition nothingSet (name : string) : string := "".




(** The built-in providers and the default validator as the configurator
    sees them, with the order their ranges take made explicit. *)
Definition defaultProvider (rt : Runtime) (p : DefaultProvider)
  (order : list (string * iface)) : Provider :=
  mkProvider "default" (DefaultProvider_Load rt p order).

Definition envProvider (rt : Runtime) (env : string -> string) (p : EnvProvider)
  : Provider :=
  mkProvider "environment" (fun cfg =>
    let '(cfg', _, r) := EnvProvider_Load rt env p cfg in (cfg', r)).

Definition defaultValidator (v : DefaultValidator) (order : list (string * Rule))
  : Validator :=
  fun cfg => (cfg, Validate v order cfg).

(** The defaults of [TestDefaultProvider] and of the first half of
    [TestValidation] in configurator_test.go. *)
Definition allDefaults : DefaultProvider :=
  WithDefault
    (WithDefault
       (WithDefault
          (WithDefault
             (WithDefault NewDefaultProvider
                "Server.Host" (Some (stringType, VString "localhost")))
             "Server.Port" (Some (intType, VInt 8080)))
          "Database.URL" (Some (stringType, VString "mysql://localhost:3306/testdb")))
       "Database.Username" (Some (stringType, VString "testuser")))
    "Database.Password" (Some (stringType, VString "testpass")).

Definition portDefaultOnly : DefaultProvider :=
  WithDefault NewDefaultProvider "Server.Port" (Some (intType, VInt 8080)).

Definition filledTestConfig : iface :=
  Some (TPtr TestConfig,
        VPtr (Some (VStruct
                      [ VStruct [VString "localhost"; VInt 8080];
                        VStruct [VString "mysql://localhost:3306/testdb";
                                 VString "testuser"; VString "testpass"] ]))).


(** ** provider_file.go and the helpers of monitoring.go *)

(** What [os.Stat] answers: the file's info (here, whether it is a
    directory), the error that says the file does not exist, or another
    error; with an error the info is nil. *)
Inductive StatResult :=
| StatInfo (isDir : bool)
| StatNotExist
| StatError (err : error).

(** The codecs of the three formats are collaborators: [Unmarshal format
    data cfg] is what [json.Unmarshal], [yaml.Unmarshal] or [toml.Unmarshal]
    does to the record, and the error it returns. *)
Record Disk := mkDisk {
  Stat : string -> StatResult;
  ReadFileBytes : string -> string + error;
  Unmarshal : Z -> string -> iface -> iface * option error
}.

Module helpers.

(** [fileExists] checks if a file exists.  When [os.Stat] fails for another
    reason than the file not existing, [info] is nil and [info.IsDir()]
    panics ([None]). *)
Definition fileExists (disk : Disk) (filePath : string) : option bool :=
  match Stat disk filePath with
  | StatNotExist => Some false
  | StatInfo isDir => Some (negb isDir)
  | StatError _ => None
  end.


End helpers.

Module filepath.

(** [filepath.Ext]: the suffix that starts at the last dot of the last
    element of the path, or nothing when that element has no dot. *)
Fixpoint Ext (path : string) : string :=
  match path with
  | EmptyString => EmptyString
  | String c r =>
      match Ext r with
      | EmptyString =>
          if hasByte r "/" then EmptyString
          else if Ascii.eqb c "." then path
          else EmptyString
      | ext => ext
      end
  end.

End filepath.

(** [FileFormat] is an [int]; the four constants are 0 to 3. *)
Definition FileFormat : Type := Z.
Definition FormatJSON : FileFormat := 0.
Definition FormatYAML : FileFormat := 1.
Definition FormatTOML : FileFormat := 2.
Definition FormatAuto : FileFormat := 3.

Record FileProvider := mkFileProvider { Path : string; Format : FileFormat }.

Definition NewFileProvider (path : string) : FileProvider :=
  mkFileProvider path FormatAuto.
Definition NewJSONFileProvider (path : string) : FileProvider :=
  mkFileProvider path FormatJSON.
Definition NewYAMLFileProvider (path : string) : FileProvider :=
  mkFileProvider path FormatYAML.
Definition NewTOMLFileProvider (path : string) : FileProvider :=
  mkFileProvider path FormatTOML.

(** [detectFormatFromExtension] detects the file format from the file
    extension. *)
Definition detectFormatFromExtension (path : string) : FileFormat :=
  let ext := strings.ToLower (filepath.Ext path) in
  if String.eqb ext ".json" then FormatJSON
  else if String.eqb ext ".yaml" || String.eqb ext ".yml" then FormatYAML
  else if String.eqb ext ".toml" then FormatTOML
  else FormatJSON.

Definition decodeWith (disk : Disk) (format : FileFormat) (what : string)
  (data : string) (cfg : iface) : iface * result :=
  match Unmarshal disk format data cfg with
  | (cfg', Some err) => (cfg', failed (Errorf what [] (Some err)))
  | (cfg', None) => (cfg', ok)
  end.

(** [FileProvider.Load] loads configuration from a file. *)
Definition FileProvider_Load (disk : Disk) (p : FileProvider) (cfg : iface)
  : iface * result :=
  if String.eqb (Path p) "" then (cfg, ok)
  else
    match helpers.fileExists disk (Path p) with
    | None => (cfg, panicked "invalid memory address or nil pointer dereference")
    | Some false =>
        (cfg, failed (Errorf "configuration file not found: %s" [AStr (Path p)] None))
    | Some true =>
        match ReadFileBytes disk (Path p) with
        | inr err =>
            (cfg, failed (Errorf "failed to read configuration file: %w" [] (Some err)))
        | inl data =>
            let format :=
              if Format p =? FormatAuto then detectFormatFromExtension (Path p)
              else Format p in
            if format =? FormatJSON
            then decodeWith disk FormatJSON "failed to decode JSON configuration: %w" data cfg
            else if format =? FormatYAML
            then decodeWith disk FormatYAML "failed to decode YAML configuration: %w" data cfg
            else if format =? FormatTOML
            then decodeWith disk FormatTOML "failed to decode TOML configuration: %w" data cfg
            else (cfg, failed (Errorf "unsupported file format" [] None))
        end
    end.

(** [LoadFromFile] is a utility function to load any config from a file. *)
Definition LoadFromFile (disk : Disk) (cfg : iface) (path : string) : iface * result :=
  FileProvider_Load disk (NewFileProvider path) cfg.

Definition fileProvider (disk : Disk) (p : FileProvider) : Provider :=
  mkProvider "file" (FileProvider_Load disk p).

(** [DefaultLoad] provides a simplified way to load configuration.  The
    default provider it adds has no defaults, so the order of its range is
    the empty one. *)
Definition DefaultLoad (rt : Runtime) (env : string -> string) (disk : Disk)
  (configPath envPrefix : string) (cfg : iface) (logger : bool)
  : iface * list event * result :=
  let configurator := New logger in
  let configurator := WithProvider configurator (defaultProvider rt NewDefaultProvider []) in
  let configurator :=
    if negb (String.eqb configPath "")
    then WithProvider configurator (fileProvider disk (NewFileProvider configPath))
    else configurator in
  let configurator :=
    if negb (String.eqb envPrefix "")
    then WithProvider configurator (envProvider rt env (NewEnvProvider envPrefix))
    else configurator in
  Load configurator cfg.

(** ** monitoring.go *)

Record LoadEvent := mkLoadEvent {
  LoadWhen : Z; LoadProvider : string; ConfigType : string; LoadDuration : Z
}.

Record ValidationEvent := mkValidationEvent {
  ValidationWhen : Z; Valid : bool; FailedRules : option (list string);
  ValidationDuration : Z
}.

Record ErrorEvent := mkErrorEvent {
  ErrorWhen : Z; Operation : string; Error : error
}.

(** A call the wrapper makes on an observer; observers are told apart by
    their place in the list. *)
Inductive notification :=
| OnLoad (observer : nat) (e : LoadEvent)
| OnValidate (observer : nat) (e : ValidationEvent)
| OnError (observer : nat) (e : ErrorEvent).

(** An [ObservableConfigurator]: the configurator it wraps and the number
    of observers added with [WithObserver]. *)
Record ObservableConfigurator := mkObservable {
  wrapped : Configurator;
  observers : nat
}.

Definition NewObservable (configurator : Configurator) : ObservableConfigurator :=
  mkObservable configurator 0.

Definition WithObserver (c : ObservableConfigurator) : ObservableConfigurator :=
  mkObservable (wrapped c) (S (observers c)).

(** [getTypeName] returns the type name of an object. *)
Definition getTypeName (obj : iface) : string :=
  match obj with
  | None => "nil"
  | Some (t, _) => TypeString t
  end.

(** The three [notify] loops: the same event to every observer, in the
    order they were added. *)
Definition notifyLoad (c : ObservableConfigurator) (now : Z)
  (provider configType : string) (duration : Z) : list notification :=
  let event := mkLoadEvent now provider configType duration in
  map (fun observer => OnLoad observer event) (seq 0 (observers c)).

Definition notifyValidation (c : ObservableConfigurator) (now : Z)
  (valid : bool) (failedRules : option (list string)) (duration : Z)
  : list notification :=
  let event := mkValidationEvent now valid failedRules duration in
  map (fun observer => OnValidate observer event) (seq 0 (observers c)).

Definition notifyError (c : ObservableConfigurator) (now : Z)
  (operation : string) (err : error) : list notification :=
  let event := mkErrorEvent now operation err in
  map (fun observer => OnError observer event) (seq 0 (observers c)).

(** [ObservableConfigurator.Load] loads the configuration and notifies
    observers.  [clock n] is what the [n]-th reading of the clock by the
    wrapper gives: [time.Now] at the start, [time.Since] after the load,
    then [time.Now] in each [notify]. *)
Definition ObservableLoad (c : ObservableConfigurator) (clock : nat -> Z) (cfg : iface)
  : iface * list event * list notification * result :=
  let startTime := clock 0%nat in
  let provider := "" in
  let cfgType := getTypeName cfg in
  let '(cfg', trace, r) := Load (wrapped c) cfg in
  let duration := clock 1%nat - startTime in
  match r with
  | failed err => (cfg', trace, notifyError c (clock 2%nat) "Load" err, failed err)
  | panicked msg => (cfg', trace, [], panicked msg)
  | ok =>
      (cfg', trace,
       (notifyLoad c (clock 2%nat) provider cfgType duration
          ++ notifyValidation c (clock 3%nat) true None duration)%list,
       ok)
  end.


(** What the notifications of the wrapper say. *)
Definition isOnLoadWith (configType : string) (duration : Z) (n : notification) : Prop :=
  match n with
  | OnLoad _ e =>
      LoadProvider e = "" /\ ConfigType e = configType /\ LoadDuration e = duration
  | _ => False
  end.

Definition isValidWith (duration : Z) (n : notification) : Prop :=
  match n with
  | OnValidate _ e =>
      Valid e = true /\ FailedRules e = None /\ ValidationDuration e = duration
  | _ => False
  end.

Definition isOnErrorWith (err : error) (n : notification) : Prop :=
  match n with
  | OnError _ e => Operation e = "Load" /\ Error e = err
  | _ => False
  end.

Definition observerOf (n : notification) : nat :=
  match n with
  | OnLoad i _ | OnValidate i _ | OnError i _ => i
  end.

(** Fixtures for the file provider: a disk with one YAML file and a codec
    that sets [Server.Port], and a path whose parent cannot be searched. *)
Definition oneYamlFile : Disk :=
  mkDisk
    (fun path =>
       if String.eqb path "conf/app.YAML" then StatInfo false
       else if String.eqb path "conf" then StatInfo true
       else if String.eqb path "/root/secret.json"
       then StatError (Foreign "permission denied")
       else StatNotExist)
    (fun path =>
       if String.eqb path "conf/app.YAML" then inl "server: {port: 7070}"
       else inr (Foreign "no such file"))
    (fun format data cfg =>
       if format =? FormatYAML
       then (assign cfg (V intType (VInt 7070) [SElem; SField 0%nat; SField 1%nat] false true),
             None)
       else (cfg, Some (Foreign "invalid character 's' looking for beginning of value"))).


(** How often a byte occurs in a string, and whether a string is free of
    white space. *)
Fixpoint countByte (s : string) (c : ascii) : nat :=
  match s with
  | EmptyString => 0%nat
  | String d r => ((if Ascii.eqb d c then 1 else 0) + countByte r c)%nat
  end.

Fixpoint noSpace (s : string) : bool :=
  match s with
  | EmptyString => true
  | String c r => negb (strings.isSpace c) && noSpace r
  end.

(** A bound of [min] or [max] as an unsigned field sees it: the [int64]
    converted to [uint64]. *)
Definition asUnsigned (n : Z) : Z := if n <? 0 then 2 ^ 64 + n else n.


(** The field types on which a text coming from the environment and the
    same text coming as a string default or as a secret are coerced by
    sibling code: booleans, integers other than [time.Duration], floats,
    and [string] itself. *)
Definition coercedAlike (t : rtype) : bool :=
  match t with
  | TPrim k name =>
      reflect.eqb k reflect.Bool
      || (reflect.isInt k && negb (String.eqb name "time.Duration"))
      || reflect.isUint k
      || reflect.isFloat k
      || (reflect.eqb k reflect.String && String.eqb name "string")
  | _ => false
  end.

(** The kinds a text with a trailing line feed can never be coerced to. *)
Definition strictlyParsed (k : Kind) : bool :=
  reflect.eqb k reflect.Bool || reflect.isInt k || reflect.isUint k.

Definition lineFeed : ascii := ascii_of_nat 10.

(** Whether a string has an upper-case letter right after a letter, a digit
    or an underscore, as the field names [URL] and [APIKey] have. *)
Fixpoint capitalInsideWord (inWord : bool) (s : string) : bool :=
  match s with
  | EmptyString => false
  | String c r =>
      (inWord && strings.isUpperAscii c)
      || capitalInsideWord (negb (strings.isSeparator c)) r
  end.


(** A key with every underscore turned into a dot. *)
Fixpoint underscoresToDots (s : string) : string :=
  match s with
  | EmptyString => EmptyString
  | String c r => String (if Ascii.eqb c "_" then "." else c) (underscoresToDots r)
  end.

(** The comma-separated pieces of a text, trimmed, the empty ones
    dropped. *)
Definition trimmedPieces (text : string) : list string :=
  List.filter (fun s => negb (String.eqb s ""))
    (map strings.TrimSpace (strings.Split text ",")).

(** ** One field at a time *)

(** What the loop of [processStruct] does with one field: the traversal of
    a struct that has this field alone. *)
Definition processField (rt : Runtime) (env : string -> string)
  (fieldType : StructField) (ft : rtype) (fc : gval) (prefix parent : string)
  : gval * list string * result :=
  match processStruct rt env (TStruct "" [(fieldType, ft)]) (VStruct [fc]) prefix parent with
  | (VStruct (fc' :: _), asked, r) => (fc', asked, r)
  | (_, asked, r) => (fc, asked, r)
  end.

(** ** The variable of a field *)

(** The variable of a field, in words: the prefix and an underscore, when
    there is a prefix, and the upper-cased external name of the field
    itself. *)
Definition variableOf (prefix : string) (f : StructField) : string :=
  if String.eqb prefix "" then strings.ToUpper (externalName f)
  else prefix ++ "_" ++ strings.ToUpper (externalName f).

(** The fields a variable is consulted for, in the order of the
    declarations: the exported fields that are neither structs nor
    pointers, at the top and inside the exported struct fields and the
    structs that exported pointer fields point to (the zero struct under a
    nil pointer). *)
Fixpoint consulted (t : rtype) (c : gval) {struct t} : list StructField :=
  match t, c with
  | TStruct _ fields, VStruct fs =>
      (fix loop (fields : list (StructField * rtype)) (fs : list gval)
         {struct fields} : list StructField :=
         match fields, fs with
         | (f, ft) :: fields', fc :: fs' =>
             ((if IsExported f then
                 match ft with
                 | TStruct _ _ => consulted ft fc
                 | TPtr e =>
                     match e with
                     | TStruct _ _ =>
                         consulted e match fc with
                                     | VPtr (Some p) => p
                                     | _ => zero e
                                     end
                     | _ => []
                     end
                 | _ => [f]
                 end
               else []) ++ loop fields' fs')%list
         | _, _ => []
         end) fields fs
  | _, _ => []
  end.

(** What a field holds once its own variable has been applied to it: what
    it held when the variable is not set, otherwise what
    [applyValueToField] makes of the value. *)
Definition fieldFromVariable (rt : Runtime) (env : string -> string) (prefix : string)
  (f : StructField) (ft : rtype) (fc : gval) : gval :=
  let value := env (variableOf prefix f) in
  if String.eqb value "" then fc
  else match fst (applyValueToField rt (V ft fc [] false true) value) with
       | V _ c' _ _ _ => c'
       | VZero => fc
       end.

(** The record in which every consulted field has been set from its own
    variable and every nil pointer on the way has been given a struct. *)
Fixpoint fromEnvironment (rt : Runtime) (env : string -> string) (prefix : string)
  (t : rtype) (c : gval) {struct t} : gval :=
  match t, c with
  | TStruct _ fields, VStruct fs =>
      VStruct
        ((fix loop (fields : list (StructField * rtype)) (fs : list gval)
            {struct fields} : list gval :=
            match fields, fs with
            | (f, ft) :: fields', fc :: fs' =>
                (if IsExported f then
                   match ft with
                   | TStruct _ _ => fromEnvironment rt env prefix ft fc
                   | TPtr e =>
                       match e with
                       | TStruct _ _ =>
                           VPtr (Some (fromEnvironment rt env prefix e
                                         match fc with
                                         | VPtr (Some p) => p
                                         | _ => zero e
                                         end))
                       | _ => fc
                       end
                   | _ => fieldFromVariable rt env prefix f ft fc
                   end
                 else fc)
                :: loop fields' fs'
            | _, _ => fs
            end) fields fs)
  | _, _ => c
  end.

(** The same two, for one field. *)
Definition consultedField (f : StructField) (ft : rtype) (fc : gval) : list StructField :=
  consulted (TStruct "" [(f, ft)]) (VStruct [fc]).

Definition fieldFromEnvironment (rt : Runtime) (env : string -> string) (prefix : string)
  (f : StructField) (ft : rtype) (fc : gval) : gval :=
  match fromEnvironment rt env prefix (TStruct "" [(f, ft)]) (VStruct [fc]) with
  | VStruct (fc' :: _) => fc'
  | _ => fc
  end.

(** The path down to a field: the names of the enclosing fields and its
    own, joined by underscores. *)
Definition pathTo (parent : string) (f : StructField) : string :=
  if negb (String.eqb parent "") then parent ++ "_" ++ Name f else Name f.

(** The types of the fields the traversal consults a variable for. *)
Definition isConsultedType (ft : rtype) : bool :=
  match ft with
  | TStruct _ _ | TPtr _ => false
  | _ => true
  end.

(** What one run of the traversal has to do with the fields it consults:
    the variables it asked for are theirs, in order, up to where it stopped;
    and when it returns nil the record is the one set from them. *)
Definition consults (prefix : string) (fields : list StructField) (expected : gval)
  (run : gval * list string * result) : Prop :=
  (exists rest, map (variableOf prefix) fields = (snd (fst run) ++ rest)%list
                /\ (snd run = ok -> rest = []))
  /\ (snd run = ok -> fst (fst run) = expected).

(** ** Struct types that mention themselves

    A Go struct type can have a field that points to the struct type
    itself, or to a struct type that leads back to it ([type Node struct {
    Val int; Next *Node }]).  Such a type is no tree.  It is given by a
    table of declarations: a name stands for the fields of a struct, and a
    field is of a tree type or is a pointer to a declared struct.  On these
    types the traversal of the environment provider need not come to an end,
    so it takes fuel: [None] says that the fuel did not suffice. *)

Module declared.

Inductive ftype :=
| FTree (t : rtype)
| FPtrTo (name : string).

Definition Decls : Type := string -> option (list (StructField * ftype)).

(** The zero value of a field and of a declared struct. *)
Definition zeroField (ft : ftype) : gval :=
  match ft with
  | FTree t => zero t
  | FPtrTo _ => VPtr None
  end.

Definition zero (decls : Decls) (name : string) : gval :=
  match decls name with
  | Some fields => VStruct (map (fun field => zeroField (snd field)) fields)
  | None => VStruct []
  end.

(** The loop of [processStruct] over the fields of a declared struct;
    [recurse] is [processStruct] itself on the struct a pointer field points
    to. *)
Fixpoint loop (rt : Runtime) (env : string -> string) (decls : Decls)
  (recurse : string -> gval -> string -> option walk)
  (fields : list (StructField * ftype)) (fs : list gval) (prefix parent : string)
  {struct fields} : option (list gval * list string * result) :=
  match fields, fs with
  | (fieldType, ft) :: fields', fc :: fs' =>
      let continue (fc' : gval) (asked : list string) :=
        match loop rt env decls recurse fields' fs' prefix parent with
        | Some (fs'', asked', r) => Some (fc' :: fs'', (asked ++ asked')%list, r)
        | None => None
        end in
      (* Skip unexported fields *)
      if negb (IsExported fieldType) then continue fc []
      else
        match ft with
        | FTree t =>
            let '(fc', asked, r) := processField rt env fieldType t fc prefix parent in
            match r with
            | ok => continue fc' asked
            | _ => Some (fc' :: fs', asked, r)
            end
        | FPtrTo name =>
            let fieldName := Name fieldType in
            let path :=
              if negb (String.eqb parent "") then parent ++ "_" ++ fieldName
              else fieldName in
            (* nil: create a new struct, set it and process it; otherwise
               process the existing struct *)
            let target :=
              match fc with
              | VPtr (Some p) => p
              | _ => zero decls name
              end in
            match recurse name target path with
            | None => None
            | Some (p', asked, r) =>
                match r with
                | ok => continue (VPtr (Some p')) asked
                | _ => Some (VPtr (Some p') :: fs', asked, r)
                end
            end
        end
  | _, _ => Some (fs, [], ok)
  end.

(** [processStruct] on a value of the declared struct [name]. *)
Fixpoint processStruct (fuel : nat) (rt : Runtime) (env : string -> string)
  (decls : Decls) (name : string) (c : gval) (prefix parent : string)
  {struct fuel} : option walk :=
  match fuel with
  | O => None
  | S fuel' =>
      match decls name, c with
      | Some fields, VStruct fs =>
          match loop rt env decls
                  (fun name' target path =>
                     processStruct fuel' rt env decls name' target prefix path)
                  fields fs prefix parent with
          | Some (fs', asked, r) => Some (VStruct fs', asked, r)
          | None => None
          end
      | _, _ => Some (c, [], ok)
      end
  end.

(** The declaration of a struct all of whose fields are of tree types. *)
Definition ofTree (fields : list (StructField * rtype)) : list (StructField * ftype) :=
  map (fun field => (fst field, FTree (snd field))) fields.

End declared.

(** [type Node struct { Val int; Next *Node }]. *)
Definition nodeDecls : declared.Decls :=
  fun name =>
    if String.eqb name "main.Node"
    then Some [ (mkField "Val" [], declared.FTree intType);
                (mkField "Next" [], declared.FPtrTo "main.Node") ]
    else None.


(** * Properties *)

(** ** The provider pipeline *)

Lemma loadProviders_success logger ps cfg cfg' :
  allSucceed ps cfg cfg' ->
  loadProviders logger ps cfg = (cfg', loadEvents logger ps, ok).
Proof.
  induction 1 as [cfg | p ps cfg cfg1 cfg' Hp _ IH]; simpl.
  - reflexivity.
  - rewrite Hp, IH. by rewrite <- app_assoc.
Qed.

Lemma loadProviders_abort logger before p after cfg cfgk cfge r :
  allSucceed before cfg cfgk ->
  ProviderLoad p cfgk = (cfge, r) ->
  r <> ok ->
  loadProviders logger (before ++ p :: after) cfg
  = (cfge, loadEvents logger (before ++ [p]), r).
Proof.
  induction 1 as [cfg | q qs cfg cfg1 cfg' Hq _ IH]; intros Hp Hr; simpl.
  - rewrite Hp. rewrite app_nil_r. destruct r; congruence.
  - rewrite Hq. rewrite (IH Hp Hr). by rewrite <- app_assoc.
Qed.

Lemma loadEvents_no_validate logger ps :
  filter (fun e => isCallValidate e = true) (loadEvents logger ps) = [].
Proof.
  induction ps as [| p ps IH]; [reflexivity |].
  unfold loadEvents in *. simpl. rewrite !filter_app, IH.
  destruct logger; reflexivity.
Qed.

(** C2. [Configurator.Load] on a pointer to a struct calls the providers in
    registration order.  When the providers before some provider all
    return nil and that one does not, [Load] ends as that provider ended,
    with the record as that provider left it (so with everything the
    earlier ones wrote), having called no later provider and no validator.
    When all return nil, the validator, if there is one, is called once, on
    the record as the last provider left it, and [Load] ends as it ends. *)
Theorem Load_runs_providers_in_order_then_validates
  (c : Configurator) (cfg : iface) (Hcfg : isPtrToStruct cfg = true) :
  (forall before p after cfgk cfge r,
      providers c = (before ++ p :: after)%list ->
      allSucceed before cfg cfgk ->
      ProviderLoad p cfgk = (cfge, r) ->
      r <> ok ->
      Load c cfg = (cfge, loadEvents (logger c) (before ++ [p]), r))
  /\
  (forall cfgn,
      allSucceed (providers c) cfg cfgn ->
      match validator c with
      | Some validate =>
          Load c cfg
          = (fst (validate cfgn),
             (loadEvents (logger c) (providers c) ++ [CallValidate])%list,
             snd (validate cfgn))
          /\ length (filter (fun e => isCallValidate e = true)
                       (snd (fst (Load c cfg)))) = 1%nat
      | None => Load c cfg = (cfgn, loadEvents (logger c) (providers c), ok)
      end).
Proof.
  split.
  - intros before p after cfgk cfge r Hps Hbefore Hp Hr.
    unfold Load. rewrite Hcfg. simpl. rewrite Hps.
    rewrite (loadProviders_abort _ _ _ _ _ _ _ _ Hbefore Hp Hr).
    destruct r; congruence.
  - intros cfgn Hall. unfold Load. rewrite Hcfg. simpl.
    rewrite (loadProviders_success _ _ _ _ Hall).
    destruct (validator c) as [validate |]; [| reflexivity].
    destruct (validate cfgn) as [cfg'' r] eqn:Hv. simpl. split; [reflexivity |].
    rewrite filter_app, loadEvents_no_validate. reflexivity.
Qed.

Lemma Load_runs_providers_in_order_then_validates_witness :
  Load (WithProvider (WithProvider (WithProvider (New true) setPort) failing) neverCalled)
       emptyTestConfig
  = (assign emptyTestConfig
       (V intType (VInt 7070) [SElem; SField 0%nat; SField 1%nat] false true),
     [LogInfo "port"; CallLoad "port"; LogInfo "failing"; CallLoad "failing"],
     failed ErrLoadFailed).
Proof.
  refine (proj1 (Load_runs_providers_in_order_then_validates
                   (WithProvider (WithProvider (WithProvider (New true) setPort) failing)
                      neverCalled)
                   emptyTestConfig eq_refl)
            [setPort] failing [neverCalled] _ _ _ eq_refl _ eq_refl _).
  - eapply allSucceed_cons; [reflexivity | apply allSucceed_nil].
  - discriminate.
Defined.

(** ** Coercion *)

Ltac by_kind v :=
  destruct v as [| [k n | e | e | len e | n fields] c l ro addr];
  [ | destruct k | | | | ]; simpl; try reflexivity; try discriminate.

Lemma convertFromString_unchanged rt field s :
  snd (convertFromString rt field s) = false ->
  fst (convertFromString rt field s) = field.
Proof.
  unfold convertFromString. by_kind field; repeat case_match; simpl; congruence.
Qed.

Lemma tryConversion_unchanged rt field val :
  snd (tryConversion rt field val) = false ->
  fst (tryConversion rt field val) = field.
Proof.
  unfold tryConversion.
  by_kind field; repeat case_match; simpl; congruence.
Qed.

(** A coercion through [setFieldValue] that does not return nil has not
    touched the field. *)
Lemma setFieldValue_unchanged rt field value :
  snd (setFieldValue rt field value) <> ok ->
  fst (setFieldValue rt field value) = field.
Proof.
  unfold setFieldValue.
  destruct (CanSet field); simpl; [| reflexivity].
  destruct (reflect.eqb (KindOf field) (KindOf (ValueOf value))); simpl.
  - destruct (Set_ field (ValueOf value)); simpl; congruence.
  - destruct (reflect.eqb (KindOf (ValueOf value)) reflect.String).
    + pose proof (convertFromString_unchanged rt field (getString (ValueOf value))) as H.
      destruct (convertFromString rt field (getString (ValueOf value))) as [f' [|]];
        simpl in *; [congruence | auto].
    + pose proof (tryConversion_unchanged rt field (ValueOf value)) as H.
      destruct (tryConversion rt field (ValueOf value)) as [f' [|]];
        simpl in *; [congruence | auto].
Qed.

(** The same for the environment provider's [applyValueToField]. *)
Lemma applyValueToField_unchanged rt field value :
  snd (applyValueToField rt field value) <> ok ->
  fst (applyValueToField rt field value) = field.
Proof.
  unfold applyValueToField.
  by_kind field; repeat case_match; simpl; congruence.
Qed.

(** The literal 300 does not fit an 8-bit unsigned field, whatever the
    field holds and whichever way the value arrives: as a string from the
    environment, as a string default, as an [int], a [uint16] or a
    [float64] default.  Each time an error comes back and the field is as it
    was. *)
Lemma uint8_rejects_300 rt name prior l :
  let field := V (TPrim reflect.Uint8 name) (VUint prior) l false true in
  applyValueToField rt field "300"
  = (field, failed (Errorf "value %d overflows field %s" [AInt 300; AStr name] None))
  /\ setFieldValue rt field (Some (stringType, VString "300"))
     = (field, failed ErrIncompatibleType)
  /\ setFieldValue rt field (Some (intType, VInt 300))
     = (field, failed ErrIncompatibleType)
  /\ setFieldValue rt field (Some (uint16Type, VUint 300))
     = (field, failed ErrIncompatibleType)
  /\ setFieldValue rt field (Some (float64Type, VFloat 300%float))
     = (field, failed ErrIncompatibleType).
Proof. repeat split; reflexivity. Qed.

(** C7.  An unsigned default of [math.MaxUint64] for an [int8] field: the
    value is converted to [int64] before [OverflowInt] sees it, wraps to
    [-1], passes the test, and is stored; [setFieldValue] returns nil. *)
Theorem uint64_default_wraps_into_int8 (rt : Runtime) :
  setFieldValue rt (V int8Type (VInt 0) [SElem; SField 0%nat] false true)
    (Some (uint64Type, VUint (2 ^ 64 - 1)))
  = (V int8Type (VInt (-1)) [SElem; SField 0%nat] false true, ok).
Proof. reflexivity. Qed.

(** The same slip at full width: [uint64(1 << 63)] lands in an [int64]
    field as the smallest [int64]. *)
Lemma uint64_default_wraps_into_int64 rt :
  setFieldValue rt (V int64Type (VInt 0) [] false true) (Some (uint64Type, VUint (2 ^ 63)))
  = (V int64Type (VInt (- 2 ^ 63)) [] false true, ok).
Proof. reflexivity. Qed.

(** ** The Default provider never returns an error of its own *)



(** C10.  A default of Go type [int64] for a field of type
    [time.Duration]: both have kind [Int64], so [setFieldValue] takes the
    direct assignment, and [reflect.Value.Set] panics because the types
    differ.  [Load] does not return. *)
Theorem DefaultProvider_Load_panics_on_same_kind_other_type (rt : Runtime) :
  rangeOrder (DefaultValues timeoutDefault) [("Timeout", Some (int64Type, VInt 30))]
  /\ isPtrToStruct emptyTimeoutConfig = true
  /\ DefaultProvider_Load rt timeoutDefault [("Timeout", Some (int64Type, VInt 30))]
       emptyTimeoutConfig
     = (emptyTimeoutConfig, panicked "reflect.Set: value is not assignable to type").
Proof.
  split; [| split]; [| reflexivity | reflexivity].
  unfold rangeOrder. vm_compute. reflexivity.
Qed.

(** ** Path resolution *)

Lemma Split_cons_sep (a b : string) (sep : ascii) :
  hasByte a sep = false ->
  strings.Split (a ++ String sep b) sep = a :: strings.Split b sep.
Proof.
  induction a as [| c a IH]; simpl; intros H.
  - by rewrite Ascii.eqb_refl.
  - apply orb_false_iff in H as [Hc Ha]. rewrite Hc, (IH Ha). reflexivity.
Qed.

Lemma Split_not_nil (s : string) (sep : ascii) : strings.Split s sep <> [].
Proof.
  destruct s as [| c s]; simpl; [discriminate |].
  destruct (Ascii.eqb c sep); [discriminate |].
  destruct (strings.Split s sep); discriminate.
Qed.

Lemma Ptr_IsValid field : KindOf field = reflect.Ptr -> IsValid field = true.
Proof. destruct field; simpl; [discriminate | reflexivity]. Qed.

Lemma getFieldByPathFrom_step value part r rs :
  getFieldByPathFrom value (part :: r :: rs)
  = let field := FieldByName value part in
    if negb (IsValid field) then inr ErrFieldNotFound
    else if reflect.eqb (KindOf field) reflect.Ptr && IsNil field
    then inr ErrFieldNotFound
    else
      let field :=
        if reflect.eqb (KindOf field) reflect.Ptr then Elem field else field in
      if negb (reflect.eqb (KindOf field) reflect.Struct) then inr ErrFieldNotFound
      else getFieldByPathFrom field (r :: rs).
Proof. reflexivity. Qed.

Lemma getFieldValueFrom_step value part r rs i path :
  getFieldValueFrom value (part :: r :: rs) i path
  = let field := FieldByName value part in
    if negb (IsValid field)
    then inr (Errorf "field %s not found at part %d of path %s"
                [AStr part; AInt i; AStr path] None)
    else if reflect.eqb (KindOf field) reflect.Ptr && IsNil field
    then inr (Errorf "field %s is nil at part %d of path %s"
                [AStr part; AInt i; AStr path] None)
    else
      let field :=
        if reflect.eqb (KindOf field) reflect.Ptr then Elem field else field in
      if negb (reflect.eqb (KindOf field) reflect.Struct)
      then inr (Errorf "field %s is not a struct at part %d of path %s"
                  [AStr part; AInt i; AStr path] None)
      else getFieldValueFrom field (r :: rs) (i + 1) path.
Proof. reflexivity. Qed.

(** C4, as the code has it.  When the segment [part] of a path is a pointer
    field and more segments follow, both resolvers fail if the pointer is
    nil: [getFieldByPath] with [ErrFieldNotFound], [getFieldValue] with
    "field ... is nil".  Neither allocates: they return a handle or an
    error and write nothing.  If the pointer is set they go on inside what it
    points to, provided that is a struct. *)
Theorem resolution_at_pointer_segment
  (value : Value) (part rest : string) (i : Z) (path : string)
  (Hpart : hasByte part "." = false)
  (Hptr : KindOf (FieldByName value part) = reflect.Ptr) :
  let field := FieldByName value part in
  let parts := strings.Split (part ++ "." ++ rest) "." in
  (IsNil field = true ->
     getFieldByPath value (part ++ "." ++ rest) = inr ErrFieldNotFound
     /\ getFieldValueFrom value parts i path
        = inr (Errorf "field %s is nil at part %d of path %s"
                 [AStr part; AInt i; AStr path] None))
  /\
  (IsNil field = false ->
     KindOf (Elem field) = reflect.Struct ->
     getFieldByPath value (part ++ "." ++ rest) = getFieldByPath (Elem field) rest
     /\ getFieldValueFrom value parts i path
        = getFieldValueFrom (Elem field) (strings.Split rest ".") (i + 1) path).
Proof.
  intros field parts. unfold getFieldByPath. subst field parts.
  change (part ++ "." ++ rest) with (part ++ String "." rest).
  rewrite (Split_cons_sep _ _ _ Hpart).
  pose proof (Split_not_nil rest ".") as Hne.
  pose proof (Ptr_IsValid _ Hptr) as Hvalid.
  destruct (strings.Split rest ".") as [| r rs]; [congruence |].
  rewrite getFieldByPathFrom_step, getFieldValueFrom_step.
  cbv zeta. rewrite Hvalid, Hptr.
  change (reflect.eqb reflect.Ptr reflect.Ptr) with true.
  cbn [negb andb].
  split.
  - intros Hnil. rewrite Hnil. auto.
  - intros Hnil Hstruct. rewrite Hnil, Hstruct. auto.
Qed.

Lemma resolution_at_pointer_segment_witness :
  getFieldByPath (Elem (ValueOf outerSet)) "Sub.X"
  = inl (V intType (VInt 5) [SElem; SField 0%nat; SElem; SField 0%nat] false true).
Proof.
  pose proof (resolution_at_pointer_segment (Elem (ValueOf outerSet)) "Sub" "X" 0 "Sub.X"
                eq_refl eq_refl) as H.
  simpl in H. destruct H as [_ H].
  destruct (H eq_refl eq_refl) as [H1 _].
  exact H1.
Defined.

(** On [&Outer{}], whose [Sub] is nil, the path [Sub.X] does not resolve,
    and a default for it leaves the pointer nil. *)
Lemma nil_pointer_on_path_is_not_allocated :
  getFieldByPath (Elem (ValueOf outerNil)) "Sub.X" = inr ErrFieldNotFound
  /\ getFieldValue outerNil "Sub.X"
     = inr (Errorf "field %s is nil at part %d of path %s"
              [AStr "Sub"; AInt 0; AStr "Sub.X"] None)
  /\ DefaultProvider_Load noFloats subDefault [("Sub.X", Some (intType, VInt 9))] outerNil
     = (outerNil, ok).
Proof. repeat split; reflexivity. Qed.

(** ** The range clause *)

Lemma wrapS64_small u : 0 <= u < 2 ^ 63 -> wrapS64 u = u.
Proof.
  intros H. unfold wrapS64.
  rewrite Z.mod_small; lia.
Qed.

Lemma range_1_65535_unfold field path :
  validateFieldByTag field path "range:1-65535"
  = applyRule (RangeRule 1 65535) field path.
Proof.
  change (validateFieldByTag field path "range:1-65535")
    with (match applyRule (RangeRule 1 65535) field path with
          | ok => ok
          | r => r
          end).
  destruct (applyRule (RangeRule 1 65535) field path); reflexivity.
Qed.

(** On a signed integer field the clause [range:1-65535] passes exactly
    the values from 1 to 65535. *)
Lemma range_tag_on_signed k name x l path :
  reflect.isInt k = true ->
  validateFieldByTag (V (TPrim k name) (VInt x) l false true) path "range:1-65535" = ok
  <-> 1 <= x <= 65535.
Proof.
  intros Hk.
  rewrite range_1_65535_unfold.
  unfold applyRule, RangeRule.
  destruct k; try discriminate; simpl;
    destruct (x <? 1) eqn:H1; destruct (x >? 65535) eqn:H2; simpl;
    split; try discriminate; try reflexivity; lia.
Qed.

(** On an unsigned integer field too; and a value above 65535 is refused
    by the unsigned comparison, with the unsigned value in the message,
    before the value is converted to [int64]. *)
Lemma range_tag_on_unsigned k name u l path :
  reflect.isUint k = true ->
  0 <= u < 2 ^ 64 ->
  (validateFieldByTag (V (TPrim k name) (VUint u) l false true) path "range:1-65535" = ok
   <-> 1 <= u <= 65535)
  /\ (65535 < u ->
      validateFieldByTag (V (TPrim k name) (VUint u) l false true) path "range:1-65535"
      = failed (Errorf "validation failed for field %s: %w" [AStr path]
                  (Some (Errorf "value %d is greater than maximum %d"
                           [AInt u; AInt 65535] None)))).
Proof.
  intros Hk Hu.
  rewrite range_1_65535_unfold.
  unfold applyRule, RangeRule.
  change (wrapU64 65535) with 65535.
  destruct k; try discriminate; simpl;
    change (wrapU64 65535) with 65535;
    (destruct (u >? 65535) eqn:H0; simpl;
     [ split; [split; [discriminate | lia] | reflexivity]
     | rewrite wrapS64_small by lia;
       destruct (u <? 1) eqn:H1; simpl; rewrite ?H0; simpl;
       (split; [split; [try discriminate; try reflexivity; lia | try reflexivity; lia] | lia]) ]).
Qed.

(** The four values of the claim, on the [int] field [Server.Port] of the
    test record and on a [uint16] and a [uint64] field. *)
Lemma range_1_65535_on_Port :
  let port x := V intType (VInt x) [] false true in
  validateFieldByTag (port 1) "Server.Port" "range:1-65535" = ok
  /\ validateFieldByTag (port 65535) "Server.Port" "range:1-65535" = ok
  /\ validateFieldByTag (port 0) "Server.Port" "range:1-65535"
     = failed (Errorf "validation failed for field %s: %w" [AStr "Server.Port"]
                 (Some (Errorf "value %d is less than minimum %d" [AInt 0; AInt 1] None)))
  /\ validateFieldByTag (port 65536) "Server.Port" "range:1-65535"
     = failed (Errorf "validation failed for field %s: %w" [AStr "Server.Port"]
                 (Some (Errorf "value %d is greater than maximum %d"
                          [AInt 65536; AInt 65535] None)))
  /\ validateFieldByTag (V uint64Type (VUint (2 ^ 64 - 1)) [] false true) "N" "range:1-65535"
     = failed (Errorf "validation failed for field %s: %w" [AStr "N"]
                 (Some (Errorf "value %d is greater than maximum %d"
                          [AInt (2 ^ 64 - 1); AInt 65535] None))).
Proof. repeat split; reflexivity. Qed.

(** C8.  A [float64] field holding 1 and tagged [range:1-65535] is
    refused: [RangeRule] has cases for the signed and the unsigned integer
    kinds only, and sends a float to "value must be numeric". *)
Theorem range_tag_refuses_float_field :
  validateFieldByTag (V float64Type (VFloat 1%float) [] false true) "Ratio" "range:1-65535"
  = failed (Errorf "validation failed for field %s: %w" [AStr "Ratio"]
              (Some (Errorf "value must be numeric" [] None)))
  /\ validateFieldByTag (V float64Type (VFloat 1%float) [] false true) "Ratio" "min:1" = ok
  /\ validateFieldByTag (V float64Type (VFloat 1%float) [] false true) "Ratio" "max:65535" = ok.
Proof. repeat split; reflexivity. Qed.

(** ** Explicit rules before tags *)

Lemma applyExplicitRules_first_failure before entry after cfg :
  Forall (fun e => applyExplicitRule cfg e = ok) before ->
  applyExplicitRule cfg entry <> ok ->
  applyExplicitRules (before ++ entry :: after) cfg = applyExplicitRule cfg entry.
Proof.
  induction 1 as [| e before He _ IH]; intros Hr; simpl.
  - destruct (applyExplicitRule cfg entry); congruence.
  - rewrite He. auto.
Qed.

Lemma applyExplicitRules_all_pass entries cfg :
  Forall (fun e => applyExplicitRule cfg e = ok) entries ->
  applyExplicitRules entries cfg = ok.
Proof.
  induction 1 as [| e entries He _ IH]; simpl; [reflexivity |].
  by rewrite He.
Qed.

(** C5, as the code has it.  [Validate] goes through the explicit rules
    first, in the order the range over the [Rules] map delivers them, which
    is not an order of registration: the first entry of that order that does
    not pass ends the validation with its result.  Only when all pass does
    the tag traversal run, and only if tag validation is enabled. *)
Theorem Validate_explicit_rules_in_range_order_then_tags
  (v : DefaultValidator) (order : list (string * Rule)) (cfg : iface)
  (Horder : rangeOrder (Rules v) order)
  (Hcfg : cfg <> None) :
  (forall before entry after,
      order = (before ++ entry :: after)%list ->
      Forall (fun e => applyExplicitRule cfg e = ok) before ->
      applyExplicitRule cfg entry <> ok ->
      Validate v order cfg = applyExplicitRule cfg entry)
  /\
  (Forall (fun e => applyExplicitRule cfg e = ok) order ->
   Validate v order cfg = if UseTagValidation v then validateTags cfg else ok).
Proof.
  destruct cfg as [tc |]; [| congruence].
  split.
  - intros before entry after -> Hbefore Hentry. unfold Validate.
    rewrite (applyExplicitRules_first_failure _ _ _ _ Hbefore Hentry).
    destruct (applyExplicitRule (Some tc) entry); congruence.
  - intros Hall. unfold Validate.
    by rewrite (applyExplicitRules_all_pass _ _ Hall).
Qed.

Lemma rangeOrder_hostThenPort :
  rangeOrder (Rules (registerAll NewDefaultValidator portThenHost)) hostThenPort.
Proof.
  unfold rangeOrder, registerAll, portThenHost, hostThenPort. simpl.
  rewrite map_to_list_insert by (by rewrite lookup_insert_ne).
  rewrite map_to_list_insert by apply lookup_empty.
  by rewrite map_to_list_empty.
Qed.

Lemma Validate_explicit_rules_in_range_order_then_tags_witness :
  Validate (registerAll NewDefaultValidator portThenHost) hostThenPort emptyTestConfig
  = failed (Errorf "validation failed for field %s: %w" [AStr "Server.Host"]
              (Some (Errorf "value is required" [] None))).
Proof.
  refine (proj1 (Validate_explicit_rules_in_range_order_then_tags
                   (registerAll NewDefaultValidator portThenHost) hostThenPort
                   emptyTestConfig rangeOrder_hostThenPort _)
            [] ("Server.Host", RequiredRule) [("Server.Port", RangeRule 1 65535)]
            eq_refl (List.Forall_nil _) _);
    discriminate.
Defined.

(** Port is registered before host; the range may deliver host first, and
    then [Validate] reports the host, while going through the rules in
    the order of registration reports the port. *)
Lemma explicit_rules_not_in_registration_order :
  rangeOrder (Rules (registerAll NewDefaultValidator portThenHost)) hostThenPort
  /\ Validate (registerAll NewDefaultValidator portThenHost) hostThenPort emptyTestConfig
     = failed (Errorf "validation failed for field %s: %w" [AStr "Server.Host"]
                 (Some (Errorf "value is required" [] None)))
  /\ applyExplicitRules portThenHost emptyTestConfig
     = failed (Errorf "validation failed for field %s: %w" [AStr "Server.Port"]
                 (Some (Errorf "value %d is less than minimum %d" [AInt 0; AInt 1] None))).
Proof.
  split; [apply rangeOrder_hostThenPort |].
  split; reflexivity.
Qed.

(** ** Handles and the record behind them *)

Lemma fetch_app t0 c0 l l' t c :
  fetch t0 c0 l = Some (t, c) ->
  fetch t0 c0 (l ++ l')%list = fetch t c l'.
Proof.
  revert t0 c0. induction l as [| s l IH]; intros t0 c0 H; simpl in *.
  - by inversion H.
  - destruct s.
    + destruct t0; try discriminate. destruct c0; try discriminate.
      destruct (fields !! i) as [[f ft] |]; try discriminate.
      destruct (fs !! i); try discriminate. auto.
    + destruct t0; try discriminate. destruct c0 as [| | | | | [p |] | | | |]; try discriminate.
      auto.
Qed.

Lemma faithful_ValueOf t c : faithful t c (ValueOf (Some (t, c))).
Proof. reflexivity. Qed.

Lemma faithful_Elem t0 c0 v : faithful t0 c0 v -> faithful t0 c0 (Elem v).
Proof.
  destruct v as [| t c l ro addr]; simpl; [done |].
  destruct t; try done. destruct c as [| | | | | [p |] | | | |]; try done.
  simpl. intros H. by rewrite (fetch_app _ _ _ _ _ _ H).
Qed.

Lemma faithful_Field t0 c0 v i : faithful t0 c0 v -> faithful t0 c0 (Field v i).
Proof.
  destruct v as [| t c l ro addr]; simpl; [done |].
  destruct t; try done. destruct c; try done.
  destruct (fields !! i) as [[f ft] |] eqn:Hf; try done.
  destruct (fs !! i) as [fc |] eqn:Hc; try done.
  simpl. intros H. rewrite (fetch_app _ _ _ _ _ _ H). simpl. by rewrite Hf, Hc.
Qed.

Lemma faithful_FieldByName t0 c0 v name :
  faithful t0 c0 v -> faithful t0 c0 (FieldByName v name).
Proof.
  intros H. unfold FieldByName.
  destruct v as [| t c l ro addr]; [done |].
  destruct t; try done.
  destruct (fieldIndex fields name); [| done].
  by apply faithful_Field.
Qed.


Lemma faithful_getFieldValueFrom t0 c0 parts :
  forall value field i path,
    faithful t0 c0 value ->
    getFieldValueFrom value parts i path = inl field ->
    faithful t0 c0 field.
Proof.
  induction parts as [| part rest IH]; intros value field i path Hv H; simpl in H.
  - discriminate.
  - pose proof (faithful_FieldByName _ _ _ part Hv) as Hf.
    destruct (IsValid (FieldByName value part)); simpl in H; [| discriminate].
    destruct rest as [| r rs]; [by inversion H; subst |].
    destruct (reflect.eqb (KindOf (FieldByName value part)) reflect.Ptr) eqn:Hk;
      simpl in H.
    + destruct (IsNil (FieldByName value part)); [discriminate |].
      destruct (reflect.eqb (KindOf (Elem (FieldByName value part))) reflect.Struct);
        simpl in H; [| discriminate].
      eapply IH; [| exact H]. by apply faithful_Elem.
    + destruct (reflect.eqb (KindOf (FieldByName value part)) reflect.Struct);
        simpl in H; [| discriminate].
      eapply IH; [| exact H]. done.
Qed.

(** Storing what is already there changes nothing. *)
Lemma store_fetched t0 c0 l t c :
  fetch t0 c0 l = Some (t, c) -> store c0 l c = c0.
Proof.
  revert t0 c0. induction l as [| s l IH]; intros t0 c0 H; simpl in *.
  - inversion H; subst; reflexivity.
  - destruct s.
    + destruct t0; try discriminate. destruct c0; try discriminate.
      destruct (fields !! i) as [[f ft] |]; try discriminate.
      destruct (fs !! i) as [fc |] eqn:Hc; try discriminate.
      f_equal. apply list_eq. intros j.
      destruct (decide (i = j)) as [-> |].
      * rewrite list_lookup_alter_eq, Hc. simpl. f_equal. eauto.
      * by rewrite list_lookup_alter_ne.
    + destruct t0; try discriminate. destruct c0 as [| | | | | [p |] | | | |]; try discriminate.
      do 2 f_equal. eauto.
Qed.

(** A handle that comes back from a failed coercion writes back to
    nothing new. *)
Lemma assign_faithful t c field :
  faithful t c field -> assign (Some (t, c)) field = Some (t, c).
Proof.
  destruct field as [| ft fc l ro addr]; simpl; [done |].
  intros H. by rewrite (store_fetched _ _ _ _ _ H).
Qed.




(** ** Defaults fill zero values only *)












Lemma assign_type t c field : exists c', assign (Some (t, c)) field = Some (t, c').
Proof. destruct field; simpl; eauto. Qed.

Lemma applyDefaults_type rt entries :
  forall t c, exists c', fst (applyDefaults rt entries (Some (t, c))) = Some (t, c').
Proof.
  induction entries as [| [fieldPath defaultValue] rest IH]; intros t c; simpl.
  - eauto.
  - destruct (getFieldByPath _ fieldPath) as [field | err]; [| eauto].
    destruct (isZeroValue field); [| eauto].
    destruct (setFieldValue rt field defaultValue) as [field' r].
    destruct (assign_type t c field') as [c1 Hc1]. simpl in Hc1.
    destruct r; rewrite Hc1; simpl; eauto.
Qed.



(** The record of the witness in full: the five fields that are set keep
    their values, the one that is zero takes its default. *)
Lemma defaults_on_scalars :
  DefaultProvider_Load noFloats scalarsDefaults
    (map_to_list (DefaultValues scalarsDefaults)) scalarsSet
  = (Some (TPtr ScalarsType,
           VPtr (Some (VStruct [VString "explicit"; VInt 7; VUint 3;
                                VFloat 0.5%float; VBool true; VInt 100]))),
     ok).
Proof. vm_compute. reflexivity. Qed.

(** ** Secrets: warnings and failures *)

Lemma getFieldValue_faithful t c path field :
  getFieldValue (Some (t, c)) path = inl field -> faithful t c field.
Proof.
  unfold getFieldValue, derefStruct.
  destruct (negb _); [discriminate |].
  apply faithful_getFieldValueFrom.
  destruct (reflect.eqb _ _);
    [apply faithful_Elem |]; apply faithful_ValueOf.
Qed.

(** A secret that [applySecret] could not apply has left the record as it
    was. *)
Lemma applySecret_unchanged rt cfg secretKey secretValue :
  snd (applySecret rt cfg secretKey secretValue) <> ok ->
  fst (applySecret rt cfg secretKey secretValue) = cfg.
Proof.
  unfold applySecret.
  destruct (isPtrToStruct cfg); simpl; [| reflexivity].
  destruct (getFieldValue cfg _) as [field | err] eqn:Hget; simpl; [| reflexivity].
  pose proof (setFieldValue_unchanged rt field (Some (stringType, VString secretValue)))
    as Hsame.
  destruct (setFieldValue rt field _) as [field' r]. simpl in *.
  intros Hr. rewrite (Hsame Hr).
  destruct cfg as [[t c] |]; [| reflexivity].
  apply assign_faithful. by eapply getFieldValue_faithful.
Qed.





(** ** Induction over types *)

Lemma rtype_nested_ind (P : rtype -> Prop)
  (Hprim : forall k n, P (TPrim k n))
  (Hptr : forall e, P e -> P (TPtr e))
  (Hslice : forall e, P e -> P (TSlice e))
  (Harray : forall n e, P e -> P (TArray n e))
  (Hstruct : forall n fields, Forall (fun ft => P (snd ft)) fields -> P (TStruct n fields)) :
  forall t, P t.
Proof.
  fix IH 1. intros [k n | e | e | n e | n fields].
  - apply Hprim.
  - apply Hptr, IH.
  - apply Hslice, IH.
  - apply Harray, IH.
  - apply Hstruct.
    induction fields as [| [f ft] fields IHfields]; constructor; [apply IH | exact IHfields].
Qed.

(** The form the traversals need: what holds of a field's type also holds
    of the struct a pointer field points to. *)
Lemma rtype_struct_ind (Q : rtype -> Prop)
  (Hprim : forall k n, Q (TPrim k n))
  (Hptr : forall e, Q (TPtr e))
  (Hslice : forall e, Q (TSlice e))
  (Harray : forall n e, Q (TArray n e))
  (Hstruct : forall n fields,
      Forall (fun ft => Q (snd ft) /\ forall e, snd ft = TPtr e -> Q e) fields ->
      Q (TStruct n fields)) :
  forall t, Q t.
Proof.
  intros t.
  enough (Q t /\ forall e, t = TPtr e -> Q e) as [H _] by exact H.
  induction t as [k n | e IHe | e IHe | n e IHe | n fields IHfields]
    using rtype_nested_ind.
  - split; [apply Hprim | discriminate].
  - split; [apply Hptr |]. intros e' He'. inversion He'; subst. exact (proj1 IHe).
  - split; [apply Hslice | discriminate].
  - split; [apply Harray | discriminate].
  - split; [apply Hstruct; exact IHfields | discriminate].
Qed.

(** ** The environment provider: names *)

(** The [parent] argument, in which [processStruct] joins the names of the
    enclosing fields, has no effect on anything it does. *)
Lemma processStruct_ignores_parent rt env t :
  forall c prefix parent parent',
    processStruct rt env t c prefix parent = processStruct rt env t c prefix parent'.
Proof.
  induction t as [| | | | n fields IH] using rtype_struct_ind;
    intros c prefix parent parent'; try reflexivity.
  destruct c; try reflexivity. simpl.
  lazymatch goal with
  | |- match ?L fields fs with _ => _ end = match ?L' fields fs with _ => _ end =>
      enough (forall gs, L fields gs = L' fields gs) as -> by reflexivity
  end.
  induction IH as [| [f ft] fields [Hft Hptr] _ IHloop]; intros gs.
  - reflexivity.
  - destruct gs as [| fc gs]; [reflexivity |].
    simpl in Hft, Hptr. simpl. rewrite IHloop.
    destruct (IsExported f); simpl; [| reflexivity].
    destruct ft as [k nm | e | e | len e | nm fs'']; try reflexivity.
    + destruct e; try reflexivity.
      rewrite (Hptr _ eq_refl _ prefix
                 (if negb (parent =? "")%string then parent ++ "_" ++ Name f else Name f)
                 (if negb (parent' =? "")%string then parent' ++ "_" ++ Name f else Name f)).
      reflexivity.
    + rewrite (Hft fc prefix
                 (if negb (parent =? "")%string then parent ++ "_" ++ Name f else Name f)
                 (if negb (parent' =? "")%string then parent' ++ "_" ++ Name f else Name f)).
      reflexivity.
Qed.

Lemma allFields_cons n f ft rest :
  allFields (TStruct n ((f, ft) :: rest))
  = f :: (allFields ft ++ allFields (TStruct n rest))%list.
Proof. reflexivity. Qed.

Lemma namesField_head prefix n f ft rest :
  namesField prefix (TStruct n ((f, ft) :: rest)) (envVarName prefix f).
Proof. exists f. rewrite allFields_cons. split; [by left | reflexivity]. Qed.

Lemma namesField_inner prefix n f ft rest name :
  namesField prefix ft name ->
  namesField prefix (TStruct n ((f, ft) :: rest)) name.
Proof.
  intros (g & Hin & ->). exists g. rewrite allFields_cons.
  split; [| reflexivity]. right. apply in_or_app. by left.
Qed.

Lemma namesField_tail prefix n f ft rest name :
  namesField prefix (TStruct n rest) name ->
  namesField prefix (TStruct n ((f, ft) :: rest)) name.
Proof.
  intros (g & Hin & ->). exists g. rewrite allFields_cons.
  split; [| reflexivity]. right. apply in_or_app. by right.
Qed.

(** Every variable [processStruct] asks for is the name of a field of the
    type under the prefix, whatever the depth of the field. *)
Ltac asked_at_leaf :=
  lazymatch goal with
  | Hhead : namesField _ _ _, Htail : List.Forall _ _ |- _ =>
      repeat match goal with
             | |- context [match ?x with _ => _ end] => destruct x; simpl
             | |- context [if ?x then _ else _] => destruct x; simpl
             end;
      repeat constructor; solve [exact Hhead | exact Htail]
  end.

Lemma processStruct_asks_field_names rt env t :
  forall c prefix parent,
    List.Forall (namesField prefix t) (askedOf (processStruct rt env t c prefix parent)).
Proof.
  induction t as [| | | | n fields IH] using rtype_struct_ind;
    intros c prefix parent; try (by constructor).
  destruct c; try (by constructor). simpl.
  lazymatch goal with
  | |- List.Forall _ (askedOf (match ?L fields fs with _ => _ end)) =>
      enough (forall gs, List.Forall (namesField prefix (TStruct n fields))
                           (snd (fst (L fields gs)))) as Hloop
  end.
  { specialize (Hloop fs).
    destruct ((fix loop (fields0 : list (StructField * rtype)) (fs0 : list gval)
                 {struct fields0} : list gval * list string * result := _) fields fs)
      as [[fs' asked] r].
    exact Hloop. }
  induction IH as [| [f ft] fields [Hft Hptr] _ IHloop]; intros gs.
  - destruct gs; constructor.
  - destruct gs as [| fc gs]; [constructor |].
    simpl in Hft, Hptr. simpl.
    specialize (IHloop gs).
    lazymatch type of IHloop with
    | List.Forall _ (snd (fst ?X)) => destruct X as [[fs'' asked'] r']
    end.
    simpl in IHloop.
    assert (List.Forall (namesField prefix (TStruct n ((f, ft) :: fields))) asked')
      as Htail
      by (eapply List.Forall_impl; [| exact IHloop]; intros; by apply namesField_tail).
    destruct (IsExported f); simpl; [| exact Htail].
    pose proof (namesField_head prefix n f ft fields) as Hhead.
    destruct ft as [k nm | e | e | len e | nm sub].
    + asked_at_leaf.
    + destruct e as [| | | | en efields]; try exact Htail.
      lazymatch goal with
      | |- context [processStruct rt env ?T ?C prefix ?P] =>
          pose proof (Hptr _ eq_refl C prefix P) as Hin;
          destruct (processStruct rt env T C prefix P) as [[p' asked] r]
      end.
      unfold askedOf in Hin. simpl in Hin.
      assert (List.Forall (namesField prefix (TStruct n ((f, TPtr (TStruct en efields)) :: fields)))
                asked) as Hhere
        by (eapply List.Forall_impl; [| exact Hin]; intros; by apply namesField_inner).
      destruct r; simpl; [apply Forall_app; by split | exact Hhere | exact Hhere].
    + asked_at_leaf.
    + asked_at_leaf.
    + lazymatch goal with
      | |- context [processStruct rt env ?T ?C prefix ?P] =>
          pose proof (Hft C prefix P) as Hin;
          destruct (processStruct rt env T C prefix P) as [[p' asked] r]
      end.
      unfold askedOf in Hin. simpl in Hin.
      assert (List.Forall (namesField prefix (TStruct n ((f, TStruct nm sub) :: fields)))
                asked) as Hhere
        by (eapply List.Forall_impl; [| exact Hin]; intros; by apply namesField_inner).
      destruct r; simpl; [apply Forall_app; by split | exact Hhere | exact Hhere].
Qed.

(** What [processStruct] does depends on the environment only through
    the variables named after the fields of the type: two environments that
    agree on those give the same record, the same questions and the same
    result. *)
Lemma processStruct_reads_field_names_only rt env env' prefix t :
  (forall f, In f (allFields t) -> env (envVarName prefix f) = env' (envVarName prefix f)) ->
  forall c parent,
    processStruct rt env t c prefix parent = processStruct rt env' t c prefix parent.
Proof.
  induction t as [| | | | n fields IH] using rtype_struct_ind;
    intros Hagree c parent; try reflexivity.
  destruct c; try reflexivity. simpl.
  lazymatch goal with
  | |- match ?L fields fs with _ => _ end = match ?L' fields fs with _ => _ end =>
      enough (forall gs, L fields gs = L' fields gs) as -> by reflexivity
  end.
  revert Hagree.
  induction IH as [| [f ft] fields [Hft Hptr] _ IHloop]; intros Hagree gs.
  - reflexivity.
  - destruct gs as [| fc gs]; [reflexivity |].
    simpl in Hft, Hptr.
    assert (env (envVarName prefix f) = env' (envVarName prefix f)) as Hhere
      by (apply Hagree; rewrite allFields_cons; by left).
    assert (forall g, In g (allFields ft) ->
                      env (envVarName prefix g) = env' (envVarName prefix g)) as Hinner
      by (intros g Hg; apply Hagree; rewrite allFields_cons; right;
          apply in_or_app; by left).
    assert (forall g, In g (allFields (TStruct n fields)) ->
                      env (envVarName prefix g) = env' (envVarName prefix g)) as Hrest
      by (intros g Hg; apply Hagree; rewrite allFields_cons; right;
          apply in_or_app; by right).
    simpl. rewrite (IHloop Hrest).
    destruct (IsExported f); simpl; [| reflexivity].
    destruct ft as [k nm | e | e | len e | nm sub];
      try (rewrite Hhere; reflexivity).
    + destruct e as [| | | | en efields]; try reflexivity.
      lazymatch goal with
      | |- context [processStruct rt env ?T ?C prefix ?P] =>
          rewrite (Hptr _ eq_refl Hinner C P)
      end.
      reflexivity.
    + lazymatch goal with
      | |- context [processStruct rt env ?T ?C prefix ?P] =>
          rewrite (Hft Hinner C P)
      end.
      reflexivity.
Qed.

Lemma envVarName_with_prefix prefix f :
  prefix <> "" ->
  envVarName prefix f = prefix ++ "_" ++ strings.ToUpper (externalName f).
Proof.
  intros Hp. unfold envVarName, externalName.
  apply String.eqb_neq in Hp. rewrite Hp. simpl.
  by destruct (tagGet (Tag f) "env" =? "")%string.
Qed.

(** ** One field at a time *)

Lemma processStruct_cons rt env n f ft fields fc fs prefix parent :
  processStruct rt env (TStruct n ((f, ft) :: fields)) (VStruct (fc :: fs)) prefix parent
  = let '(fc', asked, r) := processField rt env f ft fc prefix parent in
    match r with
    | ok =>
        let '(rest, asked', r') :=
          processStruct rt env (TStruct n fields) (VStruct fs) prefix parent in
        (VStruct (fc' :: match rest with VStruct fs' => fs' | _ => fs end),
         (asked ++ asked')%list, r')
    | _ => (VStruct (fc' :: fs), asked, r)
    end.
Proof.
  unfold processField.
  cbn -[applyValueToField envVarName].
  match goal with
  | |- context [?L fields fs] => set (loop := L)
  end.
  destruct (loop fields fs) as [[fs' asked'] r'].
  destruct (IsExported f); cbn -[applyValueToField envVarName]; [| reflexivity].
  destruct ft as [k nm | e | e | len e | nm sub]; cbn -[applyValueToField envVarName processStruct].
  all: repeat match goal with
       | |- context [String.eqb ?x ""] => destruct (String.eqb x "")
       | |- context [applyValueToField ?a ?b ?c] =>
           destruct (applyValueToField a b c) as [[| ? ? ? ? ?] [| ? | ?]]
       | |- context [processStruct ?a ?b ?c ?d ?e ?g] =>
           destruct (processStruct a b c d e g) as [[? ?] [| ? | ?]]
       | |- context [match ?e with TPrim _ _ => _ | _ => _ end] => destruct e
       end; cbn; rewrite ?app_nil_r; try reflexivity.
Qed.

Lemma processStruct_struct_shape rt env n fields fs prefix parent :
  exists fs', recordOf (processStruct rt env (TStruct n fields) (VStruct fs) prefix parent)
              = VStruct fs'.
Proof.
  unfold recordOf. simpl.
  match goal with
  | |- context [?L fields fs] => destruct (L fields fs) as [[fs' asked'] r']
  end.
  simpl. eauto.
Qed.

Lemma processStruct_nil rt env n fs prefix parent :
  processStruct rt env (TStruct n []) (VStruct fs) prefix parent = (VStruct fs, [], ok).
Proof. reflexivity. Qed.

Lemma processStruct_short rt env n fields prefix parent :
  processStruct rt env (TStruct n fields) (VStruct []) prefix parent = (VStruct [], [], ok).
Proof. destruct fields as [| [f ft] fields]; reflexivity. Qed.

Lemma processField_hidden rt env f ft fc prefix parent :
  IsExported f = false ->
  processField rt env f ft fc prefix parent = (fc, [], ok).
Proof. intros H. unfold processField. cbn. rewrite H. reflexivity. Qed.

Lemma processField_struct rt env f n fields fc prefix parent :
  IsExported f = true ->
  processField rt env f (TStruct n fields) fc prefix parent
  = processStruct rt env (TStruct n fields) fc prefix (pathTo parent f).
Proof.
  intros H. unfold processField, pathTo.
  cbn -[applyValueToField envVarName]. rewrite H. cbn -[applyValueToField envVarName].
  destruct fc; try reflexivity.
  match goal with
  | |- context [?L fields fs] => destruct (L fields fs) as [[fs' asked'] [| |]]
  end; cbn; rewrite ?app_nil_r; reflexivity.
Qed.

Lemma processField_pointer rt env f n fields fc prefix parent :
  IsExported f = true ->
  processField rt env f (TPtr (TStruct n fields)) fc prefix parent
  = let '(p', asked, r) :=
      processStruct rt env (TStruct n fields)
        match fc with VPtr (Some p) => p | _ => zero (TStruct n fields) end
        prefix (pathTo parent f) in
    (VPtr (Some p'), asked, r).
Proof.
  intros H. unfold processField, pathTo.
  cbn -[applyValueToField envVarName zero]. rewrite H.
  cbn -[applyValueToField envVarName zero].
  set (target := match fc with VPtr (Some p) => p | _ => zero (TStruct n fields) end).
  destruct target; try reflexivity.
  match goal with
  | |- context [?L fields fs] => destruct (L fields fs) as [[fs' asked'] [| |]]
  end; cbn; rewrite ?app_nil_r; reflexivity.
Qed.

Lemma processField_passed rt env f e fc prefix parent :
  IsExported f = true ->
  match e with TStruct _ _ => False | _ => True end ->
  processField rt env f (TPtr e) fc prefix parent = (fc, [], ok).
Proof.
  intros H He. unfold processField. cbn. rewrite H. cbn.
  destruct e; try reflexivity. destruct He.
Qed.

Lemma processField_consulted rt env f ft fc prefix parent :
  IsExported f = true ->
  isConsultedType ft = true ->
  processField rt env f ft fc prefix parent
  = let name := envVarName prefix f in
    if String.eqb (env name) "" then (fc, [name], ok)
    else
      let '(field', r) := applyValueToField rt (V ft fc [] false true) (env name) in
      (match field' with V _ c' _ _ _ => c' | VZero => fc end, [name],
       match r with
       | failed err =>
           failed (Errorf "failed to apply environment variable %s: %w" [AStr name] (Some err))
       | other => other
       end).
Proof.
  intros H Ht. unfold processField.
  cbn -[applyValueToField envVarName]. rewrite H.
  cbn -[applyValueToField envVarName].
  destruct ft; try discriminate; cbn -[applyValueToField envVarName];
    destruct (String.eqb (env (envVarName prefix f)) ""); try reflexivity;
    destruct (applyValueToField _ _ _) as [[| ? ? ? ? ?] [| ? | ?]]; reflexivity.
Qed.

Lemma consulted_cons n f ft fields fc fs :
  consulted (TStruct n ((f, ft) :: fields)) (VStruct (fc :: fs))
  = (consultedField f ft fc ++ consulted (TStruct n fields) (VStruct fs))%list.
Proof.
  unfold consultedField. cbn [consulted]. rewrite app_nil_r. reflexivity.
Qed.

Lemma fromEnvironment_cons rt env prefix n f ft fields fc fs :
  fromEnvironment rt env prefix (TStruct n ((f, ft) :: fields)) (VStruct (fc :: fs))
  = VStruct (fieldFromEnvironment rt env prefix f ft fc
             :: match fromEnvironment rt env prefix (TStruct n fields) (VStruct fs) with
                | VStruct fs' => fs'
                | _ => fs
                end).
Proof. reflexivity. Qed.

Lemma envVarName_variableOf prefix f : envVarName prefix f = variableOf prefix f.
Proof.
  unfold envVarName, variableOf, externalName.
  destruct (String.eqb prefix ""); simpl;
    by destruct (tagGet (Tag f) "env" =? "")%string.
Qed.

Ltac consulted_leaf Hexp :=
  rewrite processField_consulted by (exact Hexp || reflexivity);
  unfold consults, fieldFromVariable; cbn [map];
  rewrite <- !envVarName_variableOf; cbv zeta;
  match goal with
  | |- context [String.eqb ?v ""] =>
      destruct (String.eqb v "");
      [split; [exists []; split; [reflexivity | auto] | reflexivity] |]
  end;
  match goal with
  | |- context [applyValueToField ?a ?b ?c] =>
      destruct (applyValueToField a b c) as [? ?]
  end;
  cbn; split; [exists []; split; [reflexivity | auto] | reflexivity].

Lemma consults_field rt env prefix f ft fc parent :
  (forall c parent,
      consults prefix (consulted ft c) (fromEnvironment rt env prefix ft c)
        (processStruct rt env ft c prefix parent)) ->
  (forall e, ft = TPtr e ->
      forall c parent,
        consults prefix (consulted e c) (fromEnvironment rt env prefix e c)
          (processStruct rt env e c prefix parent)) ->
  consults prefix (consultedField f ft fc) (fieldFromEnvironment rt env prefix f ft fc)
    (processField rt env f ft fc prefix parent).
Proof.
  intros Hft Hptr.
  unfold consultedField, fieldFromEnvironment. cbn [consulted fromEnvironment].
  destruct (IsExported f) eqn:Hexp.
  2:{ rewrite processField_hidden by exact Hexp.
      split; [exists []; split; [reflexivity | auto] | reflexivity]. }
  rewrite app_nil_r.
  destruct ft as [k nm | e | e | len e | nm sub].
  - consulted_leaf Hexp.
  - destruct e as [| | | | en efields];
      try (rewrite processField_passed by (exact Hexp || exact I);
           split; [exists []; split; [reflexivity | auto] | reflexivity]).
    rewrite processField_pointer by exact Hexp.
    specialize (Hptr _ eq_refl
                  match fc with VPtr (Some p) => p | _ => zero (TStruct en efields) end
                  (pathTo parent f)).
    destruct (processStruct _ _ _ _ _ _) as [[p' asked] r].
    destruct Hptr as [(rest & Hnames & Hrest) Hrec]. cbn in *.
    split; [exists rest; auto |]. intros Hr. by rewrite (Hrec Hr).
  - consulted_leaf Hexp.
  - consulted_leaf Hexp.
  - rewrite processField_struct by exact Hexp.
    exact (Hft fc (pathTo parent f)).
Qed.

Lemma processStruct_consults rt env prefix t :
  forall c parent,
    consults prefix (consulted t c) (fromEnvironment rt env prefix t c)
      (processStruct rt env t c prefix parent).
Proof.
  assert (Hnone : forall c, consults prefix [] c (c, [], ok))
    by (intros c; split; [exists []; split; [reflexivity | auto] | reflexivity]).
  induction t as [| | | | n fields IH] using rtype_struct_ind;
    intros c parent; try apply Hnone.
  destruct c as [| | | | | | | fs | |]; try apply Hnone.
  revert fs.
  induction IH as [| [f ft] fields [Hft Hptr] _ IHloop]; intros fs.
  - rewrite processStruct_nil. apply Hnone.
  - destruct fs as [| fc fs]; [rewrite processStruct_short; apply Hnone |].
    simpl in Hft, Hptr.
    rewrite processStruct_cons, consulted_cons, fromEnvironment_cons.
    pose proof (consults_field rt env prefix f ft fc parent Hft Hptr) as Hfield.
    destruct (processField rt env f ft fc prefix parent) as [[fc' asked] r].
    destruct Hfield as [(rest & Hnames & Hrest) Hrec]. cbn [fst snd] in Hnames, Hrest, Hrec.
    destruct r as [| err | msg].
    + specialize (IHloop fs).
      destruct (processStruct rt env (TStruct n fields) (VStruct fs) prefix parent)
        as [[tail asked'] r'].
      destruct IHloop as [(rest' & Hnames' & Hrest') Hrec']. cbn [fst snd] in *.
      rewrite (Hrest eq_refl), app_nil_r in Hnames.
      split.
      * exists rest'. rewrite map_app, Hnames, Hnames', app_assoc. auto.
      * intros Hr. rewrite (Hrec eq_refl), (Hrec' Hr). reflexivity.
    + split; [| discriminate]. cbn [fst snd].
      exists (rest ++ map (variableOf prefix) (consulted (TStruct n fields) (VStruct fs)))%list.
      rewrite map_app, Hnames, app_assoc. split; [reflexivity | discriminate].
    + split; [| discriminate]. cbn [fst snd].
      exists (rest ++ map (variableOf prefix) (consulted (TStruct n fields) (VStruct fs)))%list.
      rewrite map_app, Hnames, app_assoc. split; [reflexivity | discriminate].
Qed.

(** C1, as the code has it.  The variable of a field is named after that
    field alone: the prefix and an underscore, when the prefix is not empty,
    and the upper-cased external name of the field (its [env] tag, or its
    own name when it has no tag).  The load asks for the variables of the
    consulted fields, each for its own, in the order of the declarations
    and up to the field at which it stops; when it returns nil every
    consulted field holds what its own variable makes of it and nothing
    else is set.  What the load does depends on the environment through the
    variables of the fields only, and the names of the enclosing fields are
    no part of a name: the [parent] path in which [processStruct] joins them
    changes nothing. *)
Theorem env_variable_is_prefix_and_field_name
  (rt : Runtime) (env : string -> string) (p : EnvProvider) (t : rtype) (c : gval) :
  let cfg := Some (TPtr t, VPtr (Some c)) in
  let run := EnvProvider_Load rt env p cfg in
  (forall f, envVarName (Prefix p) f = variableOf (Prefix p) f)
  /\ (exists rest,
         map (variableOf (Prefix p)) (consulted t c) = (snd (fst run) ++ rest)%list
         /\ (snd run = ok -> rest = []))
  /\ (snd run = ok ->
      fst (fst run)
      = Some (TPtr t, VPtr (Some (fromEnvironment rt env (Prefix p) t c))))
  /\ (forall env',
        (forall f, In f (allFields t) ->
                   env' (variableOf (Prefix p) f) = env (variableOf (Prefix p) f)) ->
        EnvProvider_Load rt env' p cfg = run)
  /\ (forall parent,
        processStruct rt env t c (Prefix p) parent
        = processStruct rt env t c (Prefix p) "").
Proof.
  intros cfg run. subst cfg run.
  split; [intros f; apply envVarName_variableOf |].
  unfold EnvProvider_Load, applyEnvVariables.
  pose proof (processStruct_consults rt env (Prefix p) t c "") as Hrun.
  destruct (isPtrToStruct (Some (TPtr t, VPtr (Some c)))) eqn:Hcfg; cbn [negb].
  - split; [| split; [| split]].
    + destruct (processStruct rt env t c (Prefix p) "") as [[c' asked] r].
      destruct Hrun as [Hnames _]. exact Hnames.
    + destruct (processStruct rt env t c (Prefix p) "") as [[c' asked] r].
      destruct Hrun as [_ Hrec]. cbn in *. intros Hr. by rewrite (Hrec Hr).
    + intros env' Hagree.
      rewrite (processStruct_reads_field_names_only rt env' env (Prefix p) t);
        [reflexivity |].
      intros f Hf. rewrite !envVarName_variableOf. by apply Hagree.
    + intros parent. apply processStruct_ignores_parent.
  - assert (Hnone : consulted t c = []).
    { destruct t; try reflexivity. discriminate. }
    rewrite Hnone. cbn.
    split; [exists []; auto |]. split; [discriminate |].
    split; [reflexivity |]. intros parent. apply processStruct_ignores_parent.
Qed.

Lemma env_variable_is_prefix_and_field_name_witness :
  fst (fst (EnvProvider_Load noFloats testEnvironment (NewEnvProvider "TEST")
              (Some (TPtr TestConfig, VPtr (Some (zero TestConfig))))))
  = Some (TPtr TestConfig,
          VPtr (Some (fromEnvironment noFloats testEnvironment "TEST" TestConfig
                        (zero TestConfig)))).
Proof.
  exact (proj1 (proj2 (proj2 (env_variable_is_prefix_and_field_name noFloats
                                testEnvironment (NewEnvProvider "TEST") TestConfig
                                (zero TestConfig))))
           eq_refl).
Defined.

(** [TestEnvProvider] of configurator_test.go. *)
Lemma TestEnvProvider :
  EnvProvider_Load noFloats testEnvironment (NewEnvProvider "TEST") emptyTestConfig
  = (Some (TPtr TestConfig,
           VPtr (Some (VStruct
                         [ VStruct [VString "testhost"; VInt 9090];
                           VStruct [VString "postgres://localhost:5432/testdb";
                                    VString "pguser"; VString "pgpass"] ]))),
     ["TEST_SERVER_HOST"; "TEST_SERVER_PORT"; "TEST_DB_URL"; "TEST_DB_USER"; "TEST_DB_PASS"],
     ok).
Proof. vm_compute. reflexivity. Qed.

(** The untagged [Server.Port] under the prefix [APP]: the provider asks
    for [APP_PORT] and for nothing else.  Setting [APP_SERVER_PORT] leaves
    the port at zero; setting [APP_PORT] sets it. *)
Lemma nested_field_is_not_read_from_joined_name :
  EnvProvider_Load noFloats onlyJoinedName (NewEnvProvider "APP") emptyAppConfig
  = (emptyAppConfig, ["APP_PORT"], ok)
  /\ EnvProvider_Load noFloats onlyOwnName (NewEnvProvider "APP") emptyAppConfig
     = (Some (TPtr AppConfig, VPtr (Some (VStruct [VStruct [VInt 9090]]))),
        ["APP_PORT"], ok).
Proof. split; vm_compute; reflexivity. Qed.

(** ** The environment provider: optional sub-records *)

Lemma populated_cons n f ft fields fc fs :
  populated (TStruct n ((f, ft) :: fields)) (VStruct (fc :: fs))
  = (if IsExported f then
       match ft with
       | TStruct _ _ => populated ft fc
       | TPtr e =>
           match e with
           | TStruct _ _ =>
               match fc with
               | VPtr (Some p) => populated e p
               | _ => false
               end
           | _ => true
           end
       | _ => true
       end
     else true)
    && populated (TStruct n fields) (VStruct fs).
Proof. reflexivity. Qed.

Lemma populated_nil n fs : populated (TStruct n []) (VStruct fs) = true.
Proof. reflexivity. Qed.

Lemma populated_short n fields : populated (TStruct n fields) (VStruct []) = true.
Proof. destruct fields as [| [f ft] fields]; reflexivity. Qed.

(** A traversal that returns nil has left no reachable pointer nil. *)
Ltac populated_at_leaf IHloop Hexp :=
  repeat match goal with
         | |- context [match ?x with _ => _ end] =>
             lazymatch x with
             | context [populated] => fail
             | _ => destruct x; cbn -[populated processStruct]
             end
         | |- context [if ?x then _ else _] => destruct x; cbn -[populated processStruct]
         end;
  cbn -[populated processStruct];
  try discriminate;
  let Hr := fresh "Hr" in
  intros Hr; rewrite populated_cons, Hexp, (IHloop Hr); reflexivity.

Lemma processStruct_populates rt env t :
  forall c prefix parent,
    resultOf (processStruct rt env t c prefix parent) = ok ->
    populated t (recordOf (processStruct rt env t c prefix parent)) = true.
Proof.
  induction t as [| | | | n fields IH] using rtype_struct_ind;
    intros c prefix parent; try reflexivity.
  destruct c; try reflexivity. simpl.
  lazymatch goal with
  | |- resultOf (match ?L fields fs with _ => _ end) = ok -> _ =>
      enough (forall gs, snd (L fields gs) = ok ->
                         populated (TStruct n fields) (VStruct (fst (fst (L fields gs))))
                         = true) as Hloop
  end.
  { specialize (Hloop fs).
    destruct ((fix loop (fields0 : list (StructField * rtype)) (fs0 : list gval)
                 {struct fields0} : list gval * list string * result := _) fields fs)
      as [[fs' asked] r].
    exact Hloop. }
  induction IH as [| [f ft] fields [Hft Hptr] _ IHloop]; intros gs.
  - intros _. apply populated_nil.
  - destruct gs as [| fc gs]; [intros _; apply populated_short |].
    simpl in Hft, Hptr. cbn -[populated processStruct].
    specialize (IHloop gs).
    lazymatch type of IHloop with
    | snd ?X = ok -> _ => destruct X as [[fs'' asked'] r']
    end.
    cbn -[populated] in IHloop.
    destruct (IsExported f) eqn:Hexp; cbn -[populated processStruct].
    2:{ intros Hr. rewrite populated_cons, Hexp. simpl. auto. }
    destruct ft as [k nm | e | e | len e | nm sub].
    + populated_at_leaf IHloop Hexp.
    + destruct e as [| | | | en efields]; try populated_at_leaf IHloop Hexp.
      lazymatch goal with
      | |- context [processStruct rt env ?T ?C prefix ?P] =>
          pose proof (Hptr _ eq_refl C prefix P) as Hin;
          destruct (processStruct rt env T C prefix P) as [[p' asked] r]
      end.
      unfold resultOf, recordOf in Hin. cbn -[populated] in Hin.
      destruct r; cbn -[populated]; try discriminate.
      intros Hr. rewrite populated_cons, Hexp, (IHloop Hr), (Hin eq_refl). reflexivity.
    + populated_at_leaf IHloop Hexp.
    + populated_at_leaf IHloop Hexp.
    + lazymatch goal with
      | |- context [processStruct rt env ?T ?C prefix ?P] =>
          pose proof (Hft C prefix P) as Hin;
          destruct (processStruct rt env T C prefix P) as [[p' asked] r]
      end.
      unfold resultOf, recordOf in Hin. cbn -[populated] in Hin.
      destruct r; cbn -[populated]; try discriminate.
      intros Hr. rewrite populated_cons, Hexp, (IHloop Hr), (Hin eq_refl). reflexivity.
Qed.

Lemma materialize_cons n f ft fields fc fs :
  materialize (TStruct n ((f, ft) :: fields)) (VStruct (fc :: fs))
  = match materialize (TStruct n fields) (VStruct fs) with
    | VStruct fs' =>
        VStruct
          ((if IsExported f then
              match ft with
              | TStruct _ _ => materialize ft fc
              | TPtr e =>
                  match e with
                  | TStruct _ _ =>
                      VPtr (Some (materialize e
                                    match fc with
                                    | VPtr (Some p) => p
                                    | _ => zero e
                                    end))
                  | _ => fc
                  end
              | _ => fc
              end
            else fc) :: fs')
    | other => other
    end.
Proof. reflexivity. Qed.

Lemma materialize_nil n fs : materialize (TStruct n []) (VStruct fs) = VStruct fs.
Proof. reflexivity. Qed.

Lemma materialize_short n fields : materialize (TStruct n fields) (VStruct []) = VStruct [].
Proof. destruct fields as [| [f ft] fields]; reflexivity. Qed.

(** With no variable set, the traversal returns nil and the record is the
    one it was given with the reachable nil pointers filled in. *)
Lemma processStruct_nothing_set rt env t :
  (forall name, env name = "") ->
  forall c prefix parent,
    resultOf (processStruct rt env t c prefix parent) = ok
    /\ recordOf (processStruct rt env t c prefix parent) = materialize t c.
Proof.
  intros Henv.
  induction t as [| | | | n fields IH] using rtype_struct_ind;
    intros c prefix parent; try (split; reflexivity).
  destruct c; try (split; reflexivity). simpl.
  lazymatch goal with
  | |- resultOf (match ?L fields fs with _ => _ end) = ok /\ _ =>
      enough (forall gs, snd (L fields gs) = ok
                         /\ VStruct (fst (fst (L fields gs)))
                            = materialize (TStruct n fields) (VStruct gs)) as Hloop
  end.
  { specialize (Hloop fs).
    destruct ((fix loop (fields0 : list (StructField * rtype)) (fs0 : list gval)
                 {struct fields0} : list gval * list string * result := _) fields fs)
      as [[fs' asked] r].
    exact Hloop. }
  induction IH as [| [f ft] fields [Hft Hptr] _ IHloop]; intros gs.
  - split; [reflexivity | by rewrite materialize_nil].
  - destruct gs as [| fc gs]; [split; [reflexivity | by rewrite materialize_short] |].
    simpl in Hft, Hptr. cbn -[materialize processStruct].
    rewrite materialize_cons.
    destruct (IHloop gs) as [Hok Hrec].
    lazymatch type of Hok with
    | snd ?X = ok => destruct X as [[fs'' asked'] r']
    end.
    cbn -[materialize] in Hok, Hrec. subst r'. rewrite <- Hrec.
    destruct (IsExported f) eqn:Hexp; cbn -[materialize processStruct];
      [| split; reflexivity].
    destruct ft as [k nm | e | e | len e | nm sub];
      try (rewrite Henv; split; reflexivity).
    + destruct e as [| | | | en efields]; try (split; reflexivity).
      lazymatch goal with
      | |- context [processStruct rt env ?T ?C prefix ?P] =>
          destruct (Hptr _ eq_refl C prefix P) as [Hin1 Hin2];
          destruct (processStruct rt env T C prefix P) as [[p' asked] r]
      end.
      unfold resultOf, recordOf in Hin1, Hin2. cbn -[materialize] in Hin1, Hin2.
      subst r p'. split; reflexivity.
    + lazymatch goal with
      | |- context [processStruct rt env ?T ?C prefix ?P] =>
          destruct (Hft C prefix P) as [Hin1 Hin2];
          destruct (processStruct rt env T C prefix P) as [[p' asked] r]
      end.
      unfold resultOf, recordOf in Hin1, Hin2. cbn -[materialize] in Hin1, Hin2.
      subst r p'. split; reflexivity.
Qed.

(** ** Declared struct types *)

Lemma declared_loop_ofTree rt env decls recurse n fields :
  forall fs prefix parent,
    declared.loop rt env decls recurse (declared.ofTree fields) fs prefix parent
    = match processStruct rt env (TStruct n fields) (VStruct fs) prefix parent with
      | (VStruct fs', asked, r) => Some (fs', asked, r)
      | (_, asked, r) => Some (fs, asked, r)
      end.
Proof.
  induction fields as [| [f ft] fields IH]; intros fs prefix parent.
  - rewrite processStruct_nil. reflexivity.
  - destruct fs as [| fc fs]; [rewrite processStruct_short; reflexivity |].
    rewrite processStruct_cons.
    cbn [declared.ofTree map declared.loop fst snd].
    fold (declared.ofTree fields). rewrite IH.
    destruct (processStruct_struct_shape rt env n fields fs prefix parent) as [tail Htail].
    destruct (processStruct rt env (TStruct n fields) (VStruct fs) prefix parent)
      as [[rest asked'] r'].
    unfold recordOf in Htail. cbn in Htail. subst rest.
    destruct (IsExported f) eqn:Hexp; cbn [negb].
    + destruct (processField rt env f ft fc prefix parent) as [[fc' asked] [| err | msg]];
        reflexivity.
    + rewrite processField_hidden by exact Hexp. reflexivity.
Qed.

Lemma declared_processStruct_ofTree rt env decls name fields c prefix parent fuel :
  decls name = Some (declared.ofTree fields) ->
  declared.processStruct (S fuel) rt env decls name c prefix parent
  = Some (processStruct rt env (TStruct name fields) c prefix parent).
Proof.
  intros Hdecl. cbn [declared.processStruct]. rewrite Hdecl.
  destruct c as [| | | | | | | fs | |]; try reflexivity.
  rewrite (declared_loop_ofTree _ _ _ _ name).
  destruct (processStruct_struct_shape rt env name fields fs prefix parent) as [tail Htail].
  destruct (processStruct rt env (TStruct name fields) (VStruct fs) prefix parent)
    as [[rest asked'] r'].
  unfold recordOf in Htail. cbn in Htail. subst rest. reflexivity.
Qed.

Lemma processField_nothing_set rt env f ft fc prefix parent :
  (forall name, env name = "") ->
  snd (processField rt env f ft fc prefix parent) = ok.
Proof.
  intros Henv. unfold processField.
  pose proof (proj1 (processStruct_nothing_set rt env (TStruct "" [(f, ft)]) Henv
                       (VStruct [fc]) prefix parent)) as Hok.
  destruct (processStruct _ _ _ _ _ _) as [[[] asked] r]; try exact Hok.
  destruct fs; exact Hok.
Qed.

Lemma declared_nothing_set rt env decls prefix :
  (forall name, env name = "") ->
  forall fuel name c parent w,
    declared.processStruct fuel rt env decls name c prefix parent = Some w ->
    resultOf w = ok.
Proof.
  intros Henv. induction fuel as [| fuel IH]; intros name c parent w H; [discriminate |].
  cbn [declared.processStruct] in H.
  destruct (decls name) as [fields |]; [| by inversion H].
  destruct c as [| | | | | | | fs | |]; try (by inversion H).
  assert (Hloop : forall fs out,
             declared.loop rt env decls
               (fun name' target path =>
                  declared.processStruct fuel rt env decls name' target prefix path)
               fields fs prefix parent = Some out ->
             snd out = ok).
  { clear H. induction fields as [| [f ft] fields IHfields]; intros gs out Hout.
    - inversion Hout. reflexivity.
    - destruct gs as [| fc gs]; [by inversion Hout |].
      cbn [declared.loop] in Hout.
      destruct (declared.loop _ _ _ _ fields gs prefix parent) as [[[gs' asked'] r'] |] eqn:Hrest.
      + pose proof (IHfields _ _ Hrest) as Hr'. cbn in Hr'. subst r'.
        destruct (negb (IsExported f)); [by inversion Hout |].
        destruct ft as [t | name'].
        * pose proof (processField_nothing_set rt env f t fc prefix parent Henv) as Hok.
          destruct (processField rt env f t fc prefix parent) as [[fc' asked] r].
          cbn in Hok. subst r. by inversion Hout.
        * destruct (declared.processStruct fuel _ _ _ _ _ _ _) as [[[p' asked] r] |] eqn:Hin;
            [| discriminate].
          pose proof (IH _ _ _ _ Hin) as Hr. unfold resultOf in Hr. cbn in Hr. subst r.
          by inversion Hout.
      + destruct (negb (IsExported f)); [discriminate |].
        destruct ft as [t | name'].
        * pose proof (processField_nothing_set rt env f t fc prefix parent Henv) as Hok.
          destruct (processField rt env f t fc prefix parent) as [[fc' asked] r].
          cbn in Hok. subst r. discriminate.
        * destruct (declared.processStruct fuel _ _ _ _ _ _ _) as [[[p' asked] r] |] eqn:Hin;
            [| discriminate].
          pose proof (IH _ _ _ _ Hin) as Hr. unfold resultOf in Hr. cbn in Hr. subst r.
          discriminate. }
  destruct (declared.loop _ _ _ _ fields fs prefix parent) as [[[fs' asked] r] |] eqn:Hrun;
    [| discriminate].
  inversion H. subst w. exact (Hloop _ _ Hrun).
Qed.

Lemma declared_zero_lookup decls name fields i f ft :
  decls name = Some fields ->
  fields !! i = Some (f, ft) ->
  exists zs, declared.zero decls name = VStruct zs
             /\ zs !! i = Some (declared.zeroField ft).
Proof.
  intros Hdecl Hi. unfold declared.zero. rewrite Hdecl.
  eexists. split; [reflexivity |].
  rewrite list_lookup_fmap, Hi. reflexivity.
Qed.

(** A struct with an exported field that points to the struct type
    itself: when nothing is set and that field is nil, no amount of fuel
    lets the traversal return. *)
Lemma declared_self_reference_never_returns rt env decls prefix name fields i f :
  (forall v, env v = "") ->
  decls name = Some fields ->
  fields !! i = Some (f, declared.FPtrTo name) ->
  IsExported f = true ->
  forall fuel fs parent,
    fs !! i = Some (VPtr None) ->
    declared.processStruct fuel rt env decls name (VStruct fs) prefix parent = None.
Proof.
  intros Henv Hdecl Hi Hexp.
  destruct (declared_zero_lookup decls name fields i f _ Hdecl Hi) as (zs & Hzero & Hzs).
  induction fuel as [| fuel IH]; intros fs parent Hnil; [reflexivity |].
  cbn [declared.processStruct]. rewrite Hdecl.
  enough (Hloop : forall flds j gs,
             flds !! j = Some (f, declared.FPtrTo name) ->
             gs !! j = Some (VPtr None) ->
             declared.loop rt env decls
               (fun name' target path =>
                  declared.processStruct fuel rt env decls name' target prefix path)
               flds gs prefix parent = None)
    by (by rewrite (Hloop fields i fs Hi Hnil)).
  induction flds as [| [g gt] flds IHflds]; intros j gs Hj Hgs; [discriminate |].
  destruct gs as [| fc gs]; [discriminate |].
  cbn [declared.loop].
  destruct j as [| j].
  - cbn in Hj, Hgs. inversion Hj; subst g gt. inversion Hgs; subst fc.
    rewrite Hexp. cbn [negb].
    rewrite Hzero, (IH zs _ Hzs). reflexivity.
  - cbn in Hj, Hgs.
    rewrite (IHflds _ _ Hj Hgs).
    destruct (negb (IsExported g)); [reflexivity |].
    destruct gt as [t | name'].
    + pose proof (processField_nothing_set rt env g t fc prefix parent Henv) as Hok.
      destruct (processField rt env g t fc prefix parent) as [[fc' asked] r].
      cbn in Hok. subst r. reflexivity.
    + destruct (declared.processStruct fuel _ _ _ _ _ _ _) as [[[p' asked] r] |] eqn:Hin;
        [| reflexivity].
      pose proof (declared_nothing_set rt env decls prefix Henv _ _ _ _ _ Hin) as Hr.
      unfold resultOf in Hr. cbn in Hr. subst r. reflexivity.
Qed.

(** ** What the traversal leaves alone *)

Lemma processStruct_keeps_hidden rt env n fields :
  forall fs prefix parent i f ft,
    fields !! i = Some (f, ft) ->
    IsExported f = false ->
    exists fs',
      recordOf (processStruct rt env (TStruct n fields) (VStruct fs) prefix parent)
      = VStruct fs'
      /\ fs' !! i = fs !! i.
Proof.
  induction fields as [| [g gt] fields IH]; intros fs prefix parent i f ft Hi Hexp;
    [discriminate |].
  destruct fs as [| fc fs].
  { rewrite processStruct_short. exists []. split; reflexivity. }
  rewrite processStruct_cons.
  destruct i as [| i].
  - cbn in Hi. inversion Hi; subst g gt.
    rewrite processField_hidden by exact Hexp.
    destruct (processStruct rt env (TStruct n fields) (VStruct fs) prefix parent)
      as [[rest asked'] r'].
    eexists. split; reflexivity.
  - cbn in Hi.
    destruct (IH fs prefix parent i f ft Hi Hexp) as (tail & Htail & Hsame).
    destruct (processStruct rt env (TStruct n fields) (VStruct fs) prefix parent)
      as [[rest asked'] r'].
    unfold recordOf in *. cbn in Htail. subst rest.
    destruct (processField rt env g gt fc prefix parent) as [[fc' asked] [| err | msg]];
      eexists; (split; [reflexivity | cbn; auto]).
Qed.

Lemma processStruct_stops rt env n fields :
  forall fs prefix parent,
    resultOf (processStruct rt env (TStruct n fields) (VStruct fs) prefix parent) <> ok ->
    exists i f ft fc fs',
      fields !! i = Some (f, ft) /\ fs !! i = Some fc
      /\ snd (processField rt env f ft fc prefix parent)
         = resultOf (processStruct rt env (TStruct n fields) (VStruct fs) prefix parent)
      /\ (forall j g gt gc,
             (j < i)%nat -> fields !! j = Some (g, gt) -> fs !! j = Some gc ->
             snd (processField rt env g gt gc prefix parent) = ok)
      /\ recordOf (processStruct rt env (TStruct n fields) (VStruct fs) prefix parent)
         = VStruct fs'
      /\ (forall j, (i < j)%nat -> fs' !! j = fs !! j).
Proof.
  induction fields as [| [g gt] fields IH]; intros fs prefix parent.
  { rewrite processStruct_nil. intros H. by destruct H. }
  destruct fs as [| fc fs].
  { rewrite processStruct_short. intros H. by destruct H. }
  rewrite processStruct_cons.
  destruct (processField rt env g gt fc prefix parent) as [[fc' asked] r] eqn:Hfield.
  destruct r as [| err | msg].
  - specialize (IH fs prefix parent).
    destruct (processStruct rt env (TStruct n fields) (VStruct fs) prefix parent)
      as [[rest asked'] r'].
    unfold resultOf, recordOf in *. cbn [fst snd] in *.
    intros Hr. destruct (IH Hr) as (i & f & ft & gc & fs' & Hi & Hc & Hres & Hbefore & Hrec & Hafter).
    subst rest.
    exists (S i), f, ft, gc, (fc' :: fs').
    repeat split; auto.
    + intros [| j] h ht hc Hj Hh Hhc.
      * cbn in Hh, Hhc. inversion Hh; inversion Hhc; subst. by rewrite Hfield.
      * cbn in Hh, Hhc. eapply Hbefore; eauto. lia.
    + intros [| j] Hj; [lia |]. cbn. apply Hafter. lia.
  - intros _. exists 0%nat, g, gt, fc, (fc' :: fs).
    unfold resultOf, recordOf. cbn [fst snd].
    repeat split; auto.
    + by rewrite Hfield.
    + intros j h ht hc Hj. lia.
    + intros [| j] Hj; [lia | reflexivity].
  - intros _. exists 0%nat, g, gt, fc, (fc' :: fs).
    unfold resultOf, recordOf. cbn [fst snd].
    repeat split; auto.
    + by rewrite Hfield.
    + intros j h ht hc Hj. lia.
    + intros [| j] Hj; [lia | reflexivity].
Qed.

(** C9, as the code has it.  For a record whose types are trees: when
    the environment provider's load returns nil, every exported
    pointer-to-struct field that lies under exported struct and
    pointer-to-struct fields only points to a struct; and the allocation
    does not wait for a variable: with no variable set at all the load
    returns nil and the record is the given one with a zero-valued struct
    attached at each such nil pointer.  In every run, an unexported field of
    a struct the traversal is in keeps what it held, so nothing inside it is
    allocated.  A traversal that does not return nil has stopped at the
    first field whose processing did not, and the fields after that one are
    as they were.  On declared struct types the traversal is the same where
    the fields are of tree types; but for a struct with an exported field
    that points to the struct type itself, a load with no variable set
    never returns when that field is nil: no fuel suffices. *)
Theorem env_load_allocates_reachable_sub_records
  (rt : Runtime) (env : string -> string) (p : EnvProvider) (t : rtype) (c : gval)
  (Hcfg : isPtrToStruct (Some (TPtr t, VPtr (Some c))) = true) :
  let cfg := Some (TPtr t, VPtr (Some c)) in
  let run := EnvProvider_Load rt env p cfg in
  let walkOf n fields fs parent :=
    processStruct rt env (TStruct n fields) (VStruct fs) (Prefix p) parent in
  (snd run = ok ->
   exists c', fst (fst run) = Some (TPtr t, VPtr (Some c')) /\ populated t c' = true)
  /\ ((forall name, env name = "") ->
      run = (Some (TPtr t, VPtr (Some (materialize t c))), snd (fst run), ok))
  /\ (forall n fields fs parent i f ft,
        fields !! i = Some (f, ft) ->
        IsExported f = false ->
        exists fs',
          recordOf (walkOf n fields fs parent) = VStruct fs' /\ fs' !! i = fs !! i)
  /\ (forall n fields fs parent,
        resultOf (walkOf n fields fs parent) <> ok ->
        exists i f ft fc fs',
          fields !! i = Some (f, ft) /\ fs !! i = Some fc
          /\ snd (processField rt env f ft fc (Prefix p) parent)
             = resultOf (walkOf n fields fs parent)
          /\ (forall j g gt gc,
                 (j < i)%nat -> fields !! j = Some (g, gt) -> fs !! j = Some gc ->
                 snd (processField rt env g gt gc (Prefix p) parent) = ok)
          /\ recordOf (walkOf n fields fs parent) = VStruct fs'
          /\ (forall j, (i < j)%nat -> fs' !! j = fs !! j))
  /\ (forall decls n fields fuel,
        t = TStruct n fields ->
        decls n = Some (declared.ofTree fields) ->
        declared.processStruct (S fuel) rt env decls n c (Prefix p) ""
        = Some (processStruct rt env t c (Prefix p) ""))
  /\ (forall decls name fields i f fs fuel,
        (forall v, env v = "") ->
        decls name = Some fields ->
        fields !! i = Some (f, declared.FPtrTo name) ->
        IsExported f = true ->
        fs !! i = Some (VPtr None) ->
        declared.processStruct fuel rt env decls name (VStruct fs) (Prefix p) "" = None).
Proof.
  intros cfg run walkOf. subst cfg run walkOf. cbv beta.
  split; [| split; [| split; [| split; [| split]]]].
  - unfold EnvProvider_Load, applyEnvVariables. rewrite Hcfg. cbn [negb].
    pose proof (processStruct_populates rt env t c (Prefix p) "") as Hpop.
    destruct (processStruct rt env t c (Prefix p) "") as [[c' asked] r].
    unfold resultOf, recordOf in *. simpl in *.
    intros Hr. exists c'. auto.
  - unfold EnvProvider_Load, applyEnvVariables. rewrite Hcfg. cbn [negb].
    pose proof (fun H => processStruct_nothing_set rt env t H c (Prefix p) "") as Hnone.
    destruct (processStruct rt env t c (Prefix p) "") as [[c' asked] r].
    unfold resultOf, recordOf in *. simpl in *.
    intros Henv. destruct (Hnone Henv) as [-> ->]. reflexivity.
  - intros n fields fs parent i f ft. apply processStruct_keeps_hidden.
  - intros n fields fs parent. apply processStruct_stops.
  - intros decls n fields fuel -> Hdecl. by apply declared_processStruct_ofTree.
  - intros decls name fields i f fs fuel Henv Hdecl Hi Hexp Hnil.
    eapply declared_self_reference_never_returns; eauto.
Qed.

Lemma env_load_allocates_reachable_sub_records_witness :
  EnvProvider_Load noFloats nothingSet (NewEnvProvider "APP") outerNil
  = (Some (TPtr OuterType, VPtr (Some (VStruct [VPtr (Some (VStruct [VInt 0]))]))),
     ["APP_X"], ok).
Proof.
  exact (proj1 (proj2 (env_load_allocates_reachable_sub_records noFloats nothingSet
                         (NewEnvProvider "APP") OuterType (zero OuterType) eq_refl))
           (fun _ => eq_refl)).
Defined.

(** Two records whose [Sub] is still nil after an environment load.  In
    the first the load stops at [Port], which comes before [Sub], and
    returns the parse error.  In the second the load returns nil, but [Sub]
    sits inside an unexported field, which the traversal skips. *)
Lemma sub_record_left_nil_after_env_load :
  EnvProvider_Load noFloats badPort (NewEnvProvider "APP") emptyPortThenSub
  = (emptyPortThenSub, ["APP_PORT"],
     failed (Errorf "failed to apply environment variable %s: %w" [AStr "APP_PORT"]
               (Some (NumError "ParseInt" "not-a-number" strconv.ErrSyntax))))
  /\ fetch (TPtr PortThenSub) (VPtr (Some (zero PortThenSub))) [SElem; SField 1%nat]
     = Some (TPtr InnerType, VPtr None)
  /\ EnvProvider_Load noFloats nothingSet (NewEnvProvider "APP") emptyHiddenSub
     = (emptyHiddenSub, [], ok)
  /\ fetch (TPtr HiddenSub) (VPtr (Some (zero HiddenSub)))
       [SElem; SField 0%nat; SField 0%nat]
     = Some (TPtr InnerType, VPtr None).
Proof. repeat split; vm_compute; reflexivity. Qed.

(** [&Node{}] with [type Node struct { Val int; Next *Node }]: the
    traversal allocates a [Node] for [Next], whose [Next] is nil again. *)
Lemma node_never_loads fuel :
  declared.processStruct fuel noFloats nothingSet nodeDecls "main.Node"
    (declared.zero nodeDecls "main.Node") "APP" "" = None.
Proof.
  exact (declared_self_reference_never_returns noFloats nothingSet nodeDecls "APP"
           "main.Node" _ 1%nat (mkField "Next" []) (fun _ => eq_refl) eq_refl eq_refl
           eq_refl fuel [VInt 0; VPtr None] "" eq_refl).
Qed.

(** ** The repository's tests and the spec's examples *)

(** [TestDefaultProvider]. *)
Lemma TestDefaultProvider :
  Load (WithProvider (New true)
          (defaultProvider noFloats allDefaults (map_to_list (DefaultValues allDefaults))))
       emptyTestConfig
  = (filledTestConfig, [LogInfo "default"; CallLoad "default"], ok).
Proof. vm_compute. reflexivity. Qed.

(** [TestValidation]: with the port alone the required host is missing;
    with all the defaults the validation passes. *)
Lemma TestValidation :
  snd (Load (WithValidator
               (WithProvider (New true)
                  (defaultProvider noFloats portDefaultOnly
                     (map_to_list (DefaultValues portDefaultOnly))))
               (defaultValidator NewDefaultValidator []))
            emptyTestConfig)
  = failed (Errorf "validation failed for field %s: %w" [AStr "Server.Host"]
              (Some (Errorf "value is required" [] None)))
  /\ Load (WithValidator
             (WithProvider (New true)
                (defaultProvider noFloats allDefaults
                   (map_to_list (DefaultValues allDefaults))))
             (defaultValidator NewDefaultValidator []))
          emptyTestConfig
     = (filledTestConfig, [LogInfo "default"; CallLoad "default"; CallValidate], ok).
Proof. split; vm_compute; reflexivity. Qed.

(** A comma-separated value for a string slice: the pieces are trimmed and
    the empty ones dropped. *)
Lemma comma_separated_strings rt :
  applyValueToField rt (V (TSlice stringType) (VSlice None) [] false true) "a, b ,,c"
  = (V (TSlice stringType) (VSlice (Some [VString "a"; VString "b"; VString "c"]))
       [] false true,
     ok).
Proof. reflexivity. Qed.

(** The transliteration of secret names: each piece between underscores
    becomes one path segment, lower-cased with a capital first letter. *)
Lemma secret_names :
  secretKeyToFieldPath "SERVER_HOST" = "Server.Host"
  /\ secretKeyToFieldPath "DB_PASSWORD" = "Db.Password"
  /\ secretKeyToFieldPath "DATABASE_URL" = "Database.Url".
Proof. repeat split; reflexivity. Qed.

(** * Further properties of the code *)

(** ** The observable wrapper *)

(** X1.  The wrapper is transparent: record, calls and result are those of
    the wrapped [Load], whatever the observers.  When the load fails every
    observer gets one [OnError] for the operation "Load" with that error,
    in the order the observers were added, and nothing else.  When it
    succeeds every observer gets [OnLoad], and after all of those every
    observer gets [OnValidate]; the validation event always says valid with
    no failed rules (also when no validator is attached), the provider name
    of the load event is always empty, and both carry the same duration. *)
Theorem ObservableLoad_notifications
  (c : ObservableConfigurator) (clock : nat -> Z) (cfg : iface) :
  let out := ObservableLoad c clock cfg in
  let notes := snd (fst out) in
  (fst (fst out), snd out) = Load (wrapped c) cfg
  /\ match snd out with
     | ok =>
         exists loads validations,
           notes = (loads ++ validations)%list
           /\ map observerOf loads = seq 0 (observers c)
           /\ map observerOf validations = seq 0 (observers c)
           /\ List.Forall (isOnLoadWith (getTypeName cfg) (clock 1%nat - clock 0%nat)) loads
           /\ List.Forall (isValidWith (clock 1%nat - clock 0%nat)) validations
     | failed err =>
         map observerOf notes = seq 0 (observers c)
         /\ List.Forall (isOnErrorWith err) notes
     | panicked _ => notes = []
     end.
Proof.
  unfold ObservableLoad.
  destruct (Load (wrapped c) cfg) as [[cfg' trace] r].
  destruct r as [| err | msg]; simpl; split; try reflexivity.
  - eexists _, _. split; [reflexivity |].
    unfold notifyLoad, notifyValidation. rewrite !map_map. simpl.
    rewrite !map_id. repeat split.
    + apply List.Forall_forall. intros n Hn. apply in_map_iff in Hn as (i & <- & _).
      simpl. auto.
    + apply List.Forall_forall. intros n Hn. apply in_map_iff in Hn as (i & <- & _).
      simpl. auto.
  - unfold notifyError. rewrite map_map. simpl. rewrite map_id. split; [reflexivity |].
    apply List.Forall_forall. intros n Hn. apply in_map_iff in Hn as (i & <- & _).
    simpl. auto.
Qed.

(** ** The file provider *)



(** X3.  The record is touched by a codec or not at all: with an empty
    path, a missing file, a directory, or a file that cannot be read,
    [FileProvider.Load] leaves the record as it is; an empty path is not an
    error, a missing file or a directory is.  [Load] panics exactly when
    the path is not empty and [os.Stat] fails for another reason than the
    file not existing. *)
Theorem FileProvider_Load_before_decoding
  (disk : Disk) (p : FileProvider) (cfg : iface) :
  (Path p = "" -> FileProvider_Load disk p cfg = (cfg, ok))
  /\ (Path p <> "" ->
      Stat disk (Path p) = StatNotExist \/ Stat disk (Path p) = StatInfo true ->
      FileProvider_Load disk p cfg
      = (cfg, failed (Errorf "configuration file not found: %s" [AStr (Path p)] None)))
  /\ (forall err,
        Path p <> "" -> Stat disk (Path p) = StatInfo false ->
        ReadFileBytes disk (Path p) = inr err ->
        FileProvider_Load disk p cfg
        = (cfg, failed (Errorf "failed to read configuration file: %w" [] (Some err))))
  /\ ((exists msg, snd (FileProvider_Load disk p cfg) = panicked msg)
      <-> Path p <> "" /\ exists err, Stat disk (Path p) = StatError err).
Proof.
  unfold FileProvider_Load, helpers.fileExists.
  split; [| split; [| split]].
  - intros ->. reflexivity.
  - intros Hp Hstat. apply String.eqb_neq in Hp. rewrite Hp.
    destruct Hstat as [-> | ->]; reflexivity.
  - intros err Hp Hstat Hread. apply String.eqb_neq in Hp.
    rewrite Hp, Hstat, Hread. reflexivity.
  - destruct (Path p =? "")%string eqn:Hp.
    + apply String.eqb_eq in Hp. split.
      * intros [msg H]. discriminate.
      * intros [Hne _]. contradiction.
    + apply String.eqb_neq in Hp.
      destruct (Stat disk (Path p)) as [[|] | | err] eqn:Hstat; simpl.
      * split; [intros [msg H]; discriminate | intros [_ [e He]]; discriminate].
      * split; [| intros [_ [e He]]; discriminate].
        intros [msg H]. destruct (ReadFileBytes disk (Path p)); [| discriminate].
        unfold decodeWith in H.
        repeat match type of H with
               | context [if ?b then _ else _] => destruct b
               | context [Unmarshal ?d ?f ?x ?y] =>
                   destruct (Unmarshal d f x y) as [? [? |]]
               end; discriminate.
      * split; [intros [msg H]; discriminate | intros [_ [e He]]; discriminate].
      * split; eauto.
Qed.


Lemma FileProvider_Load_before_decoding_witness :
  FileProvider_Load oneYamlFile (NewFileProvider "conf") emptyTestConfig
  = (emptyTestConfig,
     failed (Errorf "configuration file not found: %s" [AStr "conf"] None))
  /\ exists msg,
       snd (FileProvider_Load oneYamlFile (NewFileProvider "/root/secret.json")
              emptyTestConfig) = panicked msg.
Proof.
  split.
  - apply (proj1 (proj2 (FileProvider_Load_before_decoding oneYamlFile
                           (NewFileProvider "conf") emptyTestConfig))).
    + discriminate.
    + right. reflexivity.
  - apply (proj2 (proj2 (proj2 (proj2 (FileProvider_Load_before_decoding oneYamlFile
                                         (NewFileProvider "/root/secret.json")
                                         emptyTestConfig))))).
    split; [discriminate | eexists; reflexivity].
Defined.

(** The upper-case extension of the fixture is detected as YAML and the
    codec's write reaches the record. *)
Lemma load_yaml_by_extension :
  LoadFromFile oneYamlFile emptyTestConfig "conf/app.YAML"
  = (Some (TPtr TestConfig,
           VPtr (Some (VStruct [ VStruct [VString ""; VInt 7070];
                                 VStruct [VString ""; VString ""; VString ""] ]))),
     ok).
Proof. vm_compute. reflexivity. Qed.

(** ** The two path resolvers *)

Lemma resolvers_agree_from parts :
  forall value i path,
    match getFieldByPathFrom value parts, getFieldValueFrom value parts i path with
    | inl a, inl b => a = b
    | inr _, inr _ => True
    | _, _ => False
    end.
Proof.
  induction parts as [| part rest IH]; intros value i path; simpl; [exact I |].
  destruct (IsValid (FieldByName value part)); simpl; [| exact I].
  destruct rest as [| r rs]; [reflexivity |].
  destruct (reflect.eqb (KindOf (FieldByName value part)) reflect.Ptr
            && IsNil (FieldByName value part)); [exact I |].
  match goal with
  | |- context [negb ?b] => destruct b
  end; simpl; [| exact I].
  apply IH.
Qed.

(** X4.  On a pointer to a struct the two resolvers, [getFieldByPath] of
    the Default provider and [getFieldValue] of the validator and the
    secrets provider, resolve the same paths, to the same handle; they
    differ only in the error they report for a path that does not
    resolve. *)
Theorem resolvers_agree (cfg : iface) (path : string)
  (Hcfg : isPtrToStruct cfg = true) :
  match getFieldByPath (Elem (ValueOf cfg)) path, getFieldValue cfg path with
  | inl a, inl b => a = b
  | inr _, inr _ => True
  | _, _ => False
  end.
Proof.
  unfold isPtrToStruct in Hcfg. apply andb_true_iff in Hcfg as [Hptr Hstruct].
  unfold getFieldValue, getFieldByPath, derefStruct.
  rewrite Hptr, Hstruct. simpl.
  apply resolvers_agree_from.
Qed.

Lemma resolvers_agree_witness :
  match getFieldByPath (Elem (ValueOf filledTestConfig)) "Database.URL",
        getFieldValue filledTestConfig "Database.URL" with
  | inl a, inl b => a = b
  | inr _, inr _ => True
  | _, _ => False
  end.
Proof. exact (resolvers_agree filledTestConfig "Database.URL" eq_refl). Defined.

(** ** Tag validation *)

Lemma validateStructFields_not_settable t c prefix :
  validateStructFields t c false prefix = ok.
Proof.
  destruct t as [| | | | n fields]; try reflexivity.
  destruct c; try reflexivity. simpl.
  revert fs. induction fields as [| [f ft] fields IH]; intros gs; [reflexivity |].
  destruct gs as [| fc gs]; [reflexivity |]. apply IH.
Qed.

(** X5.  Tag validation needs a pointer: when the record is handed to
    [Validate] as a struct value, none of its fields can be set, the
    traversal skips them all, and validation passes whatever the tags and
    the values are (here with no explicit rules). *)
Theorem Validate_struct_value_checks_nothing
  (v : DefaultValidator) (n : string) (fields : list (StructField * rtype)) (c : gval) :
  Validate v [] (Some (TStruct n fields, c)) = ok.
Proof.
  unfold Validate. cbn [applyExplicitRules].
  destruct (UseTagValidation v); [| reflexivity].
  unfold validateTags, derefStruct. cbn [ValueOf KindOf kindOf reflect.eqb].
  change (reflect.eqb reflect.Struct reflect.Ptr) with false.
  change (reflect.eqb reflect.Struct reflect.Struct) with true.
  cbn [negb CanSet andb].
  apply validateStructFields_not_settable.
Qed.

Lemma required_unfold field path :
  validateFieldByTag field path "required" = applyRule RequiredRule field path.
Proof.
  change (validateFieldByTag field path "required")
    with (match applyRule RequiredRule field path with
          | ok => ok
          | r => r
          end).
  destruct (applyRule RequiredRule field path); reflexivity.
Qed.

(** X6.  On a field that can be set and is not of interface kind, the
    clause [required] rejects exactly the values the Default provider
    counts as zero, with one exception: it has no case for booleans, so it
    accepts [false]. *)
Theorem required_rejects_zero_values
  (t : rtype) (c : gval) (l : loc) (addr : bool) (path : string)
  (Hkind : kindOf t <> reflect.Interface) :
  validateFieldByTag (V t c l false addr) path "required" = ok
  <-> (isZeroValue (V t c l false addr) = false \/ kindOf t = reflect.Bool).
Proof.
  rewrite required_unfold.
  destruct t as [k nm | e | e | len e | nm fields]; [destruct k | | | |];
    simpl in Hkind; try congruence;
    unfold applyRule, Interface, RequiredRule, isZeroValue; simpl;
    try (split; [auto | reflexivity]);
    match goal with
    | |- context [if ?b then _ else _] =>
        destruct b; simpl; split; intros H;
        try discriminate; try reflexivity; try (by left);
        try (destruct H; discriminate)
    | |- _ => idtac
    end.
Qed.

Lemma required_rejects_zero_values_witness :
  validateFieldByTag (V stringType (VString "") [] false true) "Server.Host" "required"
  <> ok.
Proof.
  intros H.
  apply (proj1 (required_rejects_zero_values stringType (VString "") [] true
                  "Server.Host" ltac:(discriminate))) in H.
  destruct H; discriminate.
Defined.

Lemma wrapU64_asUnsigned n :
  - 2 ^ 63 <= n < 2 ^ 63 -> wrapU64 n = asUnsigned n.
Proof.
  intros Hn. unfold wrapU64, asUnsigned.
  destruct (n <? 0) eqn:Hneg.
  - apply Z.ltb_lt in Hneg.
    rewrite <- (Z_mod_plus_full n 1 (2 ^ 64)).
    rewrite Z.mod_small; lia.
  - apply Z.ltb_ge in Hneg. rewrite Z.mod_small; lia.
Qed.

(** X7.  [MinRule] and [MaxRule] on integers.  On a signed field they
    compare the value with the bound.  On an unsigned field they first
    convert the bound to [uint64], so a negative bound counts as the huge
    number it wraps to: [min:-1] rejects every value below 2^64 - 1 and
    [max:-1] accepts every value. *)
Theorem min_max_on_integers (k : Kind) (name : string) (bound x : Z)
  (Hbound : - 2 ^ 63 <= bound < 2 ^ 63) :
  (reflect.isInt k = true ->
   (MinRule bound (Some (TPrim k name, VInt x)) = None <-> bound <= x)
   /\ (MaxRule bound (Some (TPrim k name, VInt x)) = None <-> x <= bound))
  /\
  (reflect.isUint k = true ->
   (MinRule bound (Some (TPrim k name, VUint x)) = None <-> asUnsigned bound <= x)
   /\ (MaxRule bound (Some (TPrim k name, VUint x)) = None <-> x <= asUnsigned bound)).
Proof.
  split; intros Hk.
  - destruct k; try discriminate; unfold MinRule, MaxRule; simpl;
      (split;
       [ destruct (x <? bound) eqn:H; split; intros; try discriminate; try reflexivity; lia
       | destruct (x >? bound) eqn:H; split; intros; try discriminate; try reflexivity; lia ]).
  - destruct k; try discriminate; unfold MinRule, MaxRule; simpl;
      rewrite (wrapU64_asUnsigned _ Hbound);
      (split;
       [ destruct (x <? asUnsigned bound) eqn:H; split; intros;
         try discriminate; try reflexivity; lia
       | destruct (x >? asUnsigned bound) eqn:H; split; intros;
         try discriminate; try reflexivity; lia ]).
Qed.

Lemma min_max_on_integers_witness :
  MinRule (-1) (Some (uint16Type, VUint 5)) <> None
  /\ MaxRule (-1) (Some (uint16Type, VUint 5)) = None.
Proof.
  pose proof (proj2 (min_max_on_integers reflect.Uint16 "uint16" (-1) 5 ltac:(lia))
                eq_refl) as [Hmin Hmax].
  split.
  - intros H. apply Hmin in H. vm_compute in H. apply H. reflexivity.
  - apply Hmax. vm_compute. discriminate.
Defined.

Lemma Split_app_sep (a b : string) (sep : ascii) :
  strings.Split (a ++ String sep b) sep
  = (strings.Split a sep ++ strings.Split b sep)%list.
Proof.
  induction a as [| c a IH]; simpl.
  - by rewrite Ascii.eqb_refl.
  - destruct (Ascii.eqb c sep); [by rewrite IH |].
    rewrite IH. pose proof (Split_not_nil a sep).
    destruct (strings.Split a sep); [congruence | reflexivity].
Qed.

Lemma validateClauses_app field path xs ys :
  validateClauses field path (xs ++ ys)
  = match validateClauses field path xs with
    | ok => validateClauses field path ys
    | r => r
    end.
Proof.
  induction xs as [| x xs IH]; simpl; [reflexivity |].
  destruct (strings.TrimSpace x =? "")%string; [exact IH |].
  destruct (validateClause field path (strings.TrimSpace x)); [exact IH | reflexivity ..].
Qed.

(** X8.  The clauses of a tag are checked from left to right and the first
    one that fails decides: validating against [a,b] is validating against
    [a] and, if that passes, against [b]. *)
Theorem tag_clauses_in_order (field : Value) (path a b : string) :
  validateFieldByTag field path (a ++ "," ++ b)
  = match validateFieldByTag field path a with
    | ok => validateFieldByTag field path b
    | r => r
    end.
Proof.
  unfold validateFieldByTag.
  change (a ++ "," ++ b) with (a ++ String "," b).
  rewrite Split_app_sep. apply validateClauses_app.
Qed.

Lemma Split_length s sep : length (strings.Split s sep) = S (countByte s sep).
Proof.
  induction s as [| c s IH]; simpl; [reflexivity |].
  destruct (Ascii.eqb c sep); simpl; [by rewrite IH |].
  pose proof (Split_not_nil s sep).
  destruct (strings.Split s sep); [congruence |]. simpl in *. lia.
Qed.

Lemma Split_no_sep s sep : hasByte s sep = false -> strings.Split s sep = [s].
Proof.
  induction s as [| c s IH]; simpl; [reflexivity |].
  intros H. apply orb_false_iff in H as [Hc Hs]. rewrite Hc, (IH Hs). reflexivity.
Qed.

Lemma TrimRight_noSpace s : noSpace s = true -> strings.TrimRight s = s.
Proof.
  induction s as [| c s IH]; simpl; [reflexivity |].
  intros H. apply andb_true_iff in H as [Hc Hs]. rewrite (IH Hs).
  destruct s; [| reflexivity].
  apply negb_true_iff in Hc. by rewrite Hc.
Qed.

(** X9.  A [range] clause takes exactly one dash: with any other number of
    dashes in its argument the clause fails as "invalid range format"
    whatever the field holds.  So a range with a negative bound, such as
    [range:-5-10], cannot be written in a tag. *)
Theorem range_clause_needs_one_dash (field : Value) (path arg : string)
  (Hcomma : hasByte arg "," = false)
  (Hspace : noSpace arg = true)
  (Hdashes : countByte arg "-" <> 1%nat) :
  validateFieldByTag field path ("range:" ++ arg)
  = failed (Errorf "invalid range format for field %s: expected min-max"
              [AStr path] None).
Proof.
  unfold validateFieldByTag.
  rewrite Split_no_sep by (simpl; exact Hcomma).
  cbn [validateClauses].
  assert (strings.TrimSpace ("range:" ++ arg) = "range:" ++ arg) as ->.
  { unfold strings.TrimSpace. cbn [strings.TrimLeft append].
    change (strings.isSpace "r") with false. cbn iota.
    apply TrimRight_noSpace. simpl. exact Hspace. }
  change (("range:" ++ arg =? "")%string) with false. cbn iota.
  assert (validateClause field path ("range:" ++ arg)
          = failed (Errorf "invalid range format for field %s: expected min-max"
                      [AStr path] None)) as ->; [| reflexivity].
  unfold validateClause.
  change (strings.SplitN2 ("range:" ++ arg) ":") with ["range"; arg].
  cbn [hd]. change (("range" =? "required")%string) with false.
  change (("range" =? "range")%string) with true. cbn iota.
  pose proof (Split_length arg "-") as Hlen.
  destruct (strings.Split arg "-") as [| lo [| hi [| x rest]]]; try reflexivity.
  simpl in Hlen. congruence.
Qed.

Lemma range_clause_needs_one_dash_witness :
  validateFieldByTag (V intType (VInt 3) [] false true) "Offset" "range:-5-10"
  = failed (Errorf "invalid range format for field %s: expected min-max"
              [AStr "Offset"] None).
Proof.
  apply (range_clause_needs_one_dash (V intType (VInt 3) [] false true) "Offset" "-5-10");
    [reflexivity | reflexivity | discriminate].
Defined.

(** ** Coercion from text *)

(** X10.  A text read from the environment and the same text given as a
    string default or as a secret do the same to a settable field of a
    boolean, integer (other than [time.Duration]), float or [string] type:
    the field ends up holding the same value, and one path returns nil
    exactly when the other does. *)
Theorem env_and_default_coerce_text_alike
  (rt : Runtime) (t : rtype) (c : gval) (l : loc) (text : string)
  (Ht : coercedAlike t = true) :
  let field := V t c l false true in
  fst (setFieldValue rt field (Some (stringType, VString text)))
  = fst (applyValueToField rt field text)
  /\ (snd (setFieldValue rt field (Some (stringType, VString text))) = ok
      <-> snd (applyValueToField rt field text) = ok).
Proof.
  destruct t as [k name | | | |]; try discriminate.
  unfold coercedAlike in Ht.
  destruct k; simpl in Ht; try discriminate;
    repeat match type of Ht with
           | context [String.eqb ?a ?b] =>
               destruct (String.eqb a b) eqn:?; simpl in Ht
           end;
    try discriminate;
    try match goal with
        | H : String.eqb _ "string" = true |- _ => apply String.eqb_eq in H; subst
        end;
    unfold setFieldValue, applyValueToField, convertFromString; simpl;
    repeat match goal with
           | H : String.eqb _ _ = _ |- _ => rewrite H
           end;
    simpl;
    try destruct (strconv.ParseBool text);
    try destruct (strconv.ParseInt text);
    try destruct (strconv.ParseUint text);
    try destruct (ParseFloat rt text);
    simpl;
    repeat match goal with
           | |- context [if ?b then _ else _] => destruct b; simpl
           end;
    split; try reflexivity; split; intros; try discriminate; try reflexivity.
Qed.

Lemma env_and_default_coerce_text_alike_witness :
  fst (setFieldValue noFloats (V intType (VInt 0) [] false true)
         (Some (stringType, VString "9090")))
  = fst (applyValueToField noFloats (V intType (VInt 0) [] false true) "9090").
Proof.
  exact (proj1 (env_and_default_coerce_text_alike noFloats intType (VInt 0) [] "9090"
                  eq_refl)).
Defined.

Lemma signed_fits p q x :
  0 < p -> 0 < q ->
  ((x * p + p * q) mod (2 * (p * q)) - p * q) / p = x <-> - q <= x < q.
Proof.
  intros Hp Hq. split; intros H.
  - pose proof (Z.mod_pos_bound (x * p + p * q) (2 * (p * q)) ltac:(nia)) as Hb.
    set (m := (x * p + p * q) mod (2 * (p * q))) in *.
    pose proof (Z.mod_pos_bound m p Hp) as Hr.
    assert (Hd : (m - p * q) / p = m / p - q).
    { symmetry. apply (Z.div_unique_pos _ _ _ (m mod p)); [lia|].
      pose proof (Z.div_mod m p ltac:(lia)). nia. }
    rewrite Hd in H.
    assert (0 <= m / p) by (apply Z.div_pos; lia).
    assert (m / p < 2 * q) by (apply Z.div_lt_upper_bound; nia).
    lia.
  - rewrite Z.mod_small by nia.
    replace (x * p + p * q - p * q) with (x * p) by lia.
    apply Z.div_mul. lia.
Qed.

Lemma unsigned_fits p q x :
  0 < p -> 0 < q -> 0 <= x ->
  ((x * p) mod (p * q)) / p = x <-> x < q.
Proof.
  intros Hp Hq Hx. split; intros H.
  - pose proof (Z.mod_pos_bound (x * p) (p * q) ltac:(nia)) as Hb.
    assert ((x * p) mod (p * q) / p < q) by (apply Z.div_lt_upper_bound; nia).
    lia.
  - rewrite Z.mod_small by nia. apply Z.div_mul. lia.
Qed.

Lemma truncInt_fits b x :
  1 <= b <= 64 ->
  truncInt b x = x <-> - 2 ^ (b - 1) <= x < 2 ^ (b - 1).
Proof.
  intros Hb. unfold truncInt, wrapS64.
  rewrite Z.shiftl_mul_pow2, Z.shiftr_div_pow2 by lia.
  replace (2 ^ 63) with (2 ^ (64 - b) * 2 ^ (b - 1))
    by (rewrite <- Z.pow_add_r by lia; f_equal; lia).
  replace (2 ^ 64) with (2 * (2 ^ (64 - b) * 2 ^ (b - 1)))
    by (rewrite <- Z.pow_add_r, <- Z.pow_succ_r by lia; f_equal; lia).
  apply signed_fits; apply Z.pow_pos_nonneg; lia.
Qed.

Lemma truncUint_fits b x :
  0 <= b <= 64 ->
  0 <= x ->
  truncUint b x = x <-> x < 2 ^ b.
Proof.
  intros Hb Hx. unfold truncUint, wrapU64.
  rewrite Z.shiftl_mul_pow2, Z.shiftr_div_pow2 by lia.
  replace (2 ^ 64) with (2 ^ (64 - b) * 2 ^ b)
    by (rewrite <- Z.pow_add_r by lia; f_equal; lia).
  apply unsigned_fits; try apply Z.pow_pos_nonneg; lia.
Qed.

Lemma parseUintLoop_range s : forall n u,
  0 <= n -> strconv.parseUintLoop s n = inl u -> 0 <= u < 2 ^ 64 \/ u = n.
Proof.
  induction s as [| c r IH]; intros n u Hn H; simpl in H.
  - inversion H. auto.
  - destruct (strings.isDigitAscii c); [| discriminate].
    destruct (n >=? strconv.maxUint64 / 10 + 1); [discriminate |].
    destruct (_ || _); [discriminate |].
    pose proof (Z.mod_pos_bound (n * 10 + strconv.digitVal c) (2 ^ 64) ltac:(lia)) as Hb.
    destruct (IH _ _ (proj1 Hb) H) as [? | ->]; left; lia.
Qed.

(** What [ParseUint] returns is a [uint64]. *)
Lemma ParseUint_range s u : strconv.ParseUint s = inl u -> 0 <= u < 2 ^ 64.
Proof.
  unfold strconv.ParseUint. destruct s; [discriminate |]. intros H.
  destruct (parseUintLoop_range _ _ _ (Z.le_refl 0) H) as [? | ->]; lia.
Qed.

Lemma bits_of_integer_kind k :
  reflect.isInt k = true \/ reflect.isUint k = true -> 1 <= reflect.bits k <= 64.
Proof. destruct k; simpl; intros [H | H]; try discriminate; lia. Qed.

(** X11.  A text is accepted for an integer field exactly when it is a
    decimal number that fits the width of the field, and the field then
    holds the number that was written, never a wrapped one: between
    [-2^(w-1)] and [2^(w-1) - 1] for a signed field of [w] bits, below
    [2^w] for an unsigned one. *)
Theorem integer_text_is_stored_exactly
  (rt : Runtime) (k : Kind) (name : string) (c : gval) (l : loc)
  (text : string) (field' : Value) :
  let field := V (TPrim k name) c l false true in
  (reflect.isInt k = true ->
   convertFromString rt field text = (field', true)
   <-> exists i, strconv.ParseInt text = inl i
                 /\ - 2 ^ (reflect.bits k - 1) <= i < 2 ^ (reflect.bits k - 1)
                 /\ field' = withCur field (VInt i))
  /\ (reflect.isUint k = true ->
      convertFromString rt field text = (field', true)
      <-> exists u, strconv.ParseUint text = inl u
                    /\ u < 2 ^ reflect.bits k
                    /\ field' = withCur field (VUint u)).
Proof.
  intros field. split; intros Hk.
  - pose proof (bits_of_integer_kind k (or_introl Hk)) as Hb.
    assert (Hc : convertFromString rt field text
                 = match strconv.ParseInt text with
                   | inl i => if OverflowInt field i then (field, false)
                              else (SetInt field i, true)
                   | inr _ => (field, false)
                   end)
      by (destruct k; try discriminate; reflexivity).
    rewrite Hc. unfold OverflowInt, SetInt. simpl.
    destruct (strconv.ParseInt text) as [i | e].
    + pose proof (truncInt_fits (reflect.bits k) i Hb) as Hfit.
      destruct (Z.eqb_spec i (truncInt (reflect.bits k) i)) as [He | He]; simpl.
      * split.
        -- intros [= <-]. exists i. rewrite <- He.
           repeat split; try reflexivity; apply Hfit; congruence.
        -- intros (i' & [= <-] & _ & ->). rewrite <- He. reflexivity.
      * split; [discriminate |].
        intros (i' & [= <-] & Hr & _). destruct He. symmetry. apply Hfit. exact Hr.
    + split; [discriminate |]. intros (i' & [=] & _).
  - pose proof (bits_of_integer_kind k (or_intror Hk)) as Hb.
    assert (Hc : convertFromString rt field text
                 = match strconv.ParseUint text with
                   | inl u => if OverflowUint field u then (field, false)
                              else (SetUint field u, true)
                   | inr _ => (field, false)
                   end)
      by (destruct k; try discriminate; reflexivity).
    rewrite Hc. unfold OverflowUint, SetUint. simpl.
    destruct (strconv.ParseUint text) as [u | e] eqn:Hp.
    + pose proof (ParseUint_range _ _ Hp) as Hu.
      pose proof (truncUint_fits (reflect.bits k) u ltac:(lia) (proj1 Hu)) as Hfit.
      destruct (Z.eqb_spec u (truncUint (reflect.bits k) u)) as [He | He]; simpl.
      * split.
        -- intros [= <-]. exists u. rewrite <- He.
           repeat split; try reflexivity; apply Hfit; congruence.
        -- intros (u' & [= <-] & _ & ->). rewrite <- He. reflexivity.
      * split; [discriminate |].
        intros (u' & [= <-] & Hr & _). destruct He. symmetry. apply Hfit. exact Hr.
    + split; [discriminate |]. intros (u' & [=] & _).
Qed.

Lemma integer_text_is_stored_exactly_witness :
  convertFromString noFloats (V int8Type (VInt 0) [] false true) "127"
  = (V int8Type (VInt 127) [] false true, true)
  <-> exists i, strconv.ParseInt "127" = inl i
                /\ - 2 ^ (reflect.bits reflect.Int8 - 1) <= i
                   < 2 ^ (reflect.bits reflect.Int8 - 1)
                /\ V int8Type (VInt 127) [] false true
                   = withCur (V int8Type (VInt 0) [] false true) (VInt i).
Proof.
  exact (proj1 (integer_text_is_stored_exactly noFloats reflect.Int8 "int8" (VInt 0) []
                  "127" (V int8Type (VInt 127) [] false true)) eq_refl).
Defined.

(** X12.  A whole number given as a default of a signed integer type to
    an unsigned field is stored exactly when it is not negative and fits the
    width of the field; otherwise the field is refused as incompatible and
    keeps what it held.  Nothing is wrapped on this route. *)
Theorem integer_default_into_unsigned_field
  (rt : Runtime) (k kv : Kind) (name namev : string) (c : gval) (l : loc) (i : Z)
  (Hk : reflect.isUint k = true) (Hkv : reflect.isInt kv = true)
  (Hi : - 2 ^ 63 <= i < 2 ^ 63) :
  let field := V (TPrim k name) c l false true in
  setFieldValue rt field (Some (TPrim kv namev, VInt i))
  = if (0 <=? i) && (i <? 2 ^ reflect.bits k)
    then (withCur field (VUint i), ok)
    else (field, failed ErrIncompatibleType).
Proof.
  intros field.
  assert (Hb : 0 <= reflect.bits k <= 64) by (destruct k; try discriminate; simpl; lia).
  set (val := ValueOf (Some (TPrim kv namev, VInt i))).
  assert (Hc : tryConversion rt field val
               = if (i >=? 0) && negb (OverflowUint field (wrapU64 i))
                 then (SetUint field (wrapU64 i), true) else (field, false))
    by (destruct kv; try discriminate; destruct k; try discriminate; reflexivity).
  assert (Hs : setFieldValue rt field (Some (TPrim kv namev, VInt i))
               = let '(field', converted) := tryConversion rt field val in
                 if negb converted then (field', failed ErrIncompatibleType)
                 else (field', ok))
    by (destruct kv; try discriminate; destruct k; try discriminate; reflexivity).
  rewrite Hs, Hc. unfold OverflowUint, SetUint. simpl.
  destruct (Z.geb_spec i 0) as [Hpos | Hneg]; simpl.
  - assert (Hw : wrapU64 i = i) by (unfold wrapU64; apply Z.mod_small; lia).
    rewrite Hw.
    pose proof (truncUint_fits (reflect.bits k) i Hb ltac:(lia)) as Hfit.
    destruct (Z.leb_spec 0 i); [| lia]. simpl.
    destruct (Z.eqb_spec i (truncUint (reflect.bits k) i)) as [He | He]; simpl.
    + rewrite <- He.
      destruct (Z.ltb_spec i (2 ^ reflect.bits k)) as [| Hge]; [reflexivity |].
      assert (i < 2 ^ reflect.bits k) by (apply Hfit; congruence). lia.
    + destruct (Z.ltb_spec i (2 ^ reflect.bits k)) as [Hlt |]; [| reflexivity].
      destruct He. symmetry. by apply Hfit.
  - destruct (Z.leb_spec 0 i); [lia |]. reflexivity.
Qed.

Lemma integer_default_into_unsigned_field_witness :
  setFieldValue noFloats (V uint8Type (VUint 7) [] false true) (Some (intType, VInt (-1)))
  = (V uint8Type (VUint 7) [] false true, failed ErrIncompatibleType).
Proof.
  exact (integer_default_into_unsigned_field noFloats reflect.Uint8 reflect.Int
           "uint8" "int" (VUint 7) [] (-1) eq_refl eq_refl ltac:(lia)).
Defined.

Lemma hasByte_app_last text c : hasByte (text ++ String c "") c = true.
Proof.
  induction text as [| d r IH]; simpl.
  - rewrite Ascii.eqb_refl. reflexivity.
  - rewrite IH. apply orb_true_r.
Qed.

Lemma parseUintLoop_line_feed s : forall n u,
  hasByte s lineFeed = true -> strconv.parseUintLoop s n <> inl u.
Proof.
  induction s as [| c r IH]; intros n u Hs; simpl in *; [discriminate |].
  destruct (Ascii.eqb_spec c lineFeed) as [-> | Hc]; simpl in Hs.
  - discriminate.
  - destruct (strings.isDigitAscii c); [| discriminate].
    destruct (n >=? _); [discriminate |].
    destruct (_ || _); [discriminate |].
    apply IH. exact Hs.
Qed.

Lemma ParseUint_line_feed s u :
  hasByte s lineFeed = true -> strconv.ParseUint s <> inl u.
Proof.
  intros Hs. unfold strconv.ParseUint. destruct s; [discriminate |].
  apply parseUintLoop_line_feed. exact Hs.
Qed.

Lemma ParseInt_line_feed s i :
  hasByte s lineFeed = true -> strconv.ParseInt s <> inl i.
Proof.
  intros Hs. unfold strconv.ParseInt. destruct s as [| c r]; [discriminate |].
  assert (Hd : hasByte (if Ascii.eqb c "+" || Ascii.eqb c "-" then r else String c r)
                 lineFeed = true).
  { destruct (Ascii.eqb_spec c "+") as [-> | ?]; [exact Hs |].
    destruct (Ascii.eqb_spec c "-") as [-> | ?]; [exact Hs |]. exact Hs. }
  destruct (strconv.ParseUint _) as [un | []] eqn:Hp; try discriminate.
  exfalso. exact (ParseUint_line_feed _ _ Hd Hp).
Qed.

Lemma ParseBool_line_feed s :
  hasByte s lineFeed = true -> strconv.ParseBool s = None.
Proof.
  intros Hs. unfold strconv.ParseBool.
  repeat match goal with
         | |- context [String.eqb s ?k] =>
             destruct (String.eqb_spec s k) as [E | _];
             [rewrite E in Hs; discriminate Hs |]
         end.
  reflexivity.
Qed.

(** A text with a line feed anywhere in it is no boolean and no whole
    number. *)
Lemma convertFromString_line_feed rt field text :
  strictlyParsed (KindOf field) = true ->
  hasByte text lineFeed = true ->
  convertFromString rt field text = (field, false).
Proof.
  intros Hk Ht. unfold convertFromString.
  destruct (KindOf field); try discriminate;
    try (rewrite (ParseBool_line_feed _ Ht); reflexivity);
    try (pose proof (ParseInt_line_feed text) as Hp;
         destruct (strconv.ParseInt text); [destruct (Hp _ Ht eq_refl) | reflexivity]);
    try (pose proof (ParseUint_line_feed text) as Hp;
         destruct (strconv.ParseUint text); [destruct (Hp _ Ht eq_refl) | reflexivity]).
Qed.

(** ** Secrets *)

(** X13.  The content of a secret file is used as it is read, so a file
    that ends in a line feed never sets a boolean or integer field: the
    conversion refuses the text, [applySecret] returns an error (which
    [SecretsProvider.Load] turns into a warning) and the record is left as
    it was. *)
Theorem secret_with_line_feed_is_refused
  (rt : Runtime) (field : Value) (text : string)
  (Hkind : strictlyParsed (KindOf field) = true) :
  let content := text ++ String lineFeed "" in
  convertFromString rt field content = (field, false)
  /\ forall cfg key,
       getFieldValue cfg (secretKeyToFieldPath key) = inl field ->
       exists err, applySecret rt cfg key content = (cfg, failed err).
Proof.
  intros content.
  assert (Hc : convertFromString rt field content = (field, false))
    by (apply convertFromString_line_feed; [exact Hkind | apply hasByte_app_last]).
  split; [exact Hc |].
  intros cfg key Hget.
  pose proof (applySecret_unchanged rt cfg key content) as Hsame.
  unfold applySecret in *.
  destruct (isPtrToStruct cfg); simpl in *; [| eauto].
  rewrite Hget in *.
  unfold setFieldValue in *.
  destruct (CanSet field); simpl in *.
  - assert (Hne : reflect.eqb (KindOf field) reflect.String = false)
      by (destruct (KindOf field); try discriminate; reflexivity).
    rewrite Hne in *. simpl in *. rewrite Hc in *. simpl in *.
    exists ErrIncompatibleType. rewrite Hsame by discriminate. reflexivity.
  - exists ErrFieldNotSettable. rewrite Hsame by discriminate. reflexivity.
Qed.

Lemma secret_with_line_feed_is_refused_witness :
  convertFromString noFloats (V intType (VInt 0) [] false true)
    ("8080" ++ String lineFeed "")
  = (V intType (VInt 0) [] false true, false).
Proof.
  exact (proj1 (secret_with_line_feed_is_refused noFloats
                  (V intType (VInt 0) [] false true) "8080" eq_refl)).
Defined.

Ltac by_byte c :=
  destruct c as [[] [] [] [] [] [] [] []]; vm_compute;
  try reflexivity; try discriminate; auto.

Lemma lowerAscii_underscore c :
  Ascii.eqb (strings.lowerAscii c) "_" = Ascii.eqb c "_".
Proof. by_byte c. Qed.

Lemma lowerAscii_upperAscii c :
  strings.lowerAscii (strings.upperAscii c) = strings.lowerAscii c.
Proof. by_byte c. Qed.

Lemma ToLower_ToUpper s : strings.ToLower (strings.ToUpper s) = strings.ToLower s.
Proof.
  induction s as [| c r IH]; simpl; [reflexivity |].
  by rewrite lowerAscii_upperAscii, IH.
Qed.

Lemma Join_cons_byte c h t sep :
  strings.Join (String c h :: t) sep = String c (strings.Join (h :: t) sep).
Proof. destruct t; reflexivity. Qed.

Lemma Join_cons2 p q rest sep :
  strings.Join (p :: q :: rest) sep = p ++ sep ++ strings.Join (q :: rest) sep.
Proof. reflexivity. Qed.

(** The parts of a key joined by dots, the first part titled from a given
    state of [strings.Title]. *)
Lemma titled_parts_closed_form key : forall prevSep,
  match strings.Split key "_" with
  | [] => EmptyString
  | h :: t =>
      strings.Join (strings.titleFrom prevSep (strings.ToLower h)
                    :: map (fun part => strings.Title (strings.ToLower part)) t) "."
  end
  = strings.titleFrom prevSep (underscoresToDots (strings.ToLower key)).
Proof.
  induction key as [| c r IH]; intros prevSep; [reflexivity |].
  cbn [strings.Split strings.ToLower underscoresToDots strings.titleFrom].
  rewrite lowerAscii_underscore.
  destruct (Ascii.eqb_spec c "_") as [-> | Hc].
  - specialize (IH true).
    destruct (strings.Split r "_") as [| h t] eqn:Hs;
      [destruct (Split_not_nil _ _ Hs) |].
    cbn [map strings.titleFrom strings.ToLower].
    change (strings.Title (strings.ToLower h))
      with (strings.titleFrom true (strings.ToLower h)).
    rewrite Join_cons2, IH.
    destruct prevSep; reflexivity.
  - specialize (IH (strings.isSeparator (strings.lowerAscii c))).
    destruct (strings.Split r "_") as [| h t] eqn:Hs;
      [destruct (Split_not_nil _ _ Hs) |].
    cbn [strings.ToLower strings.titleFrom].
    rewrite Join_cons_byte, IH. reflexivity.
Qed.

(** Splitting at the underscores, titling the lower-cased parts and joining
    them with dots is one pass over the key. *)
Lemma secretKeyToFieldPath_closed_form key :
  secretKeyToFieldPath key
  = strings.Title (underscoresToDots (strings.ToLower key)).
Proof.
  unfold secretKeyToFieldPath, strings.Title.
  rewrite <- titled_parts_closed_form.
  destruct (strings.Split key "_"); reflexivity.
Qed.

Lemma isSeparator_upperAscii c :
  strings.isSeparator (strings.upperAscii c) = strings.isSeparator c.
Proof. by_byte c. Qed.

Lemma lowered_byte_not_upper c :
  strings.isUpperAscii
    (if Ascii.eqb (strings.lowerAscii c) "_" then "."%char else strings.lowerAscii c)
  = false.
Proof. by_byte c. Qed.

Lemma titled_lower_no_capital_inside key : forall prevSep,
  capitalInsideWord (negb prevSep)
    (strings.titleFrom prevSep (underscoresToDots (strings.ToLower key))) = false.
Proof.
  induction key as [| c r IH]; intros prevSep; [reflexivity |].
  cbn [strings.ToLower underscoresToDots strings.titleFrom capitalInsideWord].
  pose proof (lowered_byte_not_upper c) as Hup.
  set (d := if Ascii.eqb (strings.lowerAscii c) "_" then "."%char
            else strings.lowerAscii c) in *.
  destruct prevSep; cbn [negb andb orb].
  - rewrite isSeparator_upperAscii. apply IH.
  - rewrite Hup. apply IH.
Qed.

(** X14.  The field path of a secret is its file name in lower case with
    the underscores turned into dots and the first letter of every word in
    upper case (for names in ASCII, as everywhere here).  So the case of the
    file name does not matter: two names that differ only in case address
    the same field. *)
Theorem secret_key_is_case_insensitive (key key' : string)
  (Hsame : strings.ToLower key' = strings.ToLower key) :
  secretKeyToFieldPath key = strings.Title (underscoresToDots (strings.ToLower key))
  /\ secretKeyToFieldPath key' = secretKeyToFieldPath key
  /\ secretKeyToFieldPath (strings.ToUpper key) = secretKeyToFieldPath key.
Proof.
  rewrite !secretKeyToFieldPath_closed_form, Hsame, ToLower_ToUpper. auto.
Qed.

Lemma secret_key_is_case_insensitive_witness :
  secretKeyToFieldPath "DB_Password" = secretKeyToFieldPath "db_password".
Proof.
  exact (proj1 (proj2 (secret_key_is_case_insensitive "db_password" "DB_Password"
                         eq_refl))).
Defined.

(** X15.  No secret reaches a field whose name has an upper-case letter
    after a letter, a digit or an underscore, such as [URL], [APIKey] or
    [Database.MaxConns]: the path made from a file name never has one. *)
Theorem secret_never_reaches_capital_inside_word (key path : string)
  (Hcap : capitalInsideWord false path = true) :
  secretKeyToFieldPath key <> path.
Proof.
  intros <-. rewrite secretKeyToFieldPath_closed_form in Hcap.
  pose proof (titled_lower_no_capital_inside key true) as Hno.
  unfold strings.Title in Hcap. simpl negb in Hno. congruence.
Qed.

Lemma secret_never_reaches_capital_inside_word_witness :
  secretKeyToFieldPath "DATABASE_URL" <> "Database.URL".
Proof.
  exact (secret_never_reaches_capital_inside_word "DATABASE_URL" "Database.URL" eq_refl).
Defined.

(** ** [DefaultLoad] *)

Lemma DefaultProvider_Load_no_defaults rt order cfg :
  DefaultProvider_Load rt NewDefaultProvider order cfg = (cfg, ok).
Proof.
  unfold DefaultProvider_Load, NewDefaultProvider. simpl.
  destruct (decide _) as [| Hn]; [reflexivity |].
  destruct Hn. apply map_size_empty.
Qed.

Ltac no_validate :=
  let H := fresh in
  intros H; simpl in H; repeat (destruct H as [H | H]; [discriminate H |]); exact H.

(** X16.  [DefaultLoad] on a pointer to a struct is the file load followed
    by the environment load: its default provider has no defaults and
    changes nothing, an empty path skips the file, an empty prefix skips the
    environment altogether (no variable is read), and the record is never
    validated, whatever its tags say. *)
Theorem DefaultLoad_is_file_then_environment
  (rt : Runtime) (env : string -> string) (disk : Disk)
  (configPath envPrefix : string) (cfg : iface) (logger : bool)
  (Hcfg : isPtrToStruct cfg = true) :
  let out := DefaultLoad rt env disk configPath envPrefix cfg logger in
  ~ In CallValidate (snd (fst out))
  /\ (fst (fst out), snd out)
     = match LoadFromFile disk cfg configPath with
       | (cfg1, ok) =>
           if String.eqb envPrefix "" then (cfg1, ok)
           else let '(cfg2, _, r) :=
                  EnvProvider_Load rt env (NewEnvProvider envPrefix) cfg1 in
                (cfg2, r)
       | failedLoad => failedLoad
       end.
Proof.
  unfold DefaultLoad, LoadFromFile, Load, New, WithProvider, defaultProvider,
    fileProvider, envProvider.
  cbn -[DefaultProvider_Load FileProvider_Load EnvProvider_Load NewFileProvider
        NewEnvProvider isPtrToStruct].
  assert (Hfile : String.eqb configPath "" = true ->
                  FileProvider_Load disk (NewFileProvider configPath) cfg = (cfg, ok)).
  { intros E. unfold FileProvider_Load. simpl. rewrite E. reflexivity. }
  destruct (String.eqb configPath "") eqn:Epath;
    [rewrite (Hfile eq_refl) |];
    (destruct (String.eqb envPrefix "") eqn:Eprefix;
     cbn -[DefaultProvider_Load FileProvider_Load EnvProvider_Load NewFileProvider
           NewEnvProvider isPtrToStruct];
     rewrite Hcfg, DefaultProvider_Load_no_defaults;
     cbn -[DefaultProvider_Load FileProvider_Load EnvProvider_Load NewFileProvider
           NewEnvProvider isPtrToStruct]).
  - split; [destruct logger; simpl; no_validate | reflexivity].
  - destruct (EnvProvider_Load rt env (NewEnvProvider envPrefix) cfg) as [[cfg2 asked] r].
    destruct r; destruct logger; simpl; (split; [no_validate | reflexivity]).
  - destruct (FileProvider_Load disk (NewFileProvider configPath) cfg) as [cfg1 r].
    destruct r; destruct logger; simpl; (split; [no_validate | reflexivity]).
  - destruct (FileProvider_Load disk (NewFileProvider configPath) cfg) as [cfg1 r].
    destruct r; simpl;
      try (destruct logger; simpl; (split; [no_validate | reflexivity])).
    destruct (EnvProvider_Load rt env (NewEnvProvider envPrefix) cfg1) as [[cfg2 asked] r].
    destruct r; destruct logger; simpl; (split; [no_validate | reflexivity]).
Qed.

Lemma DefaultLoad_is_file_then_environment_witness :
  ~ In CallValidate
      (snd (fst (DefaultLoad noFloats testEnvironment oneYamlFile "" "TEST"
                   emptyTestConfig true))).
Proof.
  exact (proj1 (DefaultLoad_is_file_then_environment noFloats testEnvironment
                  oneYamlFile "" "TEST" emptyTestConfig true eq_refl)).
Defined.

(** ** The environment provider, again *)

(** What [applyValueToField] stores depends on the type of the field and
    on the text, not on what the field held. *)
Lemma applyValueToField_again rt t c l ro a value field' r :
  applyValueToField rt (V t c l ro a) value = (field', r) ->
  exists c', field' = V t c' l ro a
             /\ applyValueToField rt (V t c' l ro a) value = (V t c' l ro a, r).
Proof.
  unfold applyValueToField, SetString, SetInt, SetUint, SetFloat, SetBool, Set_,
    OverflowInt, OverflowUint, OverflowFloat.
  cbn [KindOf Type_ withCur ValueOf].
  intros H.
  destruct (directlyAssignable t durationType) eqn:Hassign.
  all: repeat match type of H with
         | context [match ?x with _ => _ end] => destruct x eqn:?
         | context [if ?x then _ else _] => destruct x eqn:?
         end;
    inversion H; subst; clear H; eexists; (split; [reflexivity |]);
    cbn [withCur]; reflexivity.
Qed.

Ltac continue_again loop IHloop :=
  let gs1 := fresh "gs" in let a1 := fresh "a" in let r1 := fresh "r" in
  let Hrest := fresh "Hrest" in
  match goal with
  | |- context [loop ?fields ?gs] =>
      destruct (loop fields gs) as [[gs1 a1] r1] eqn:Hrest;
      intros [= <- <- <-]; rewrite ?(IHloop _ _ _ _ Hrest); reflexivity
  end.

Ltac leaf_again loop IHloop :=
  let Happ := fresh "Happ" in let c1 := fresh "c" in let Hagain := fresh "Hagain" in
  match goal with
  | |- context [String.eqb ?v ""] =>
      destruct (String.eqb v "") eqn:?; [continue_again loop IHloop |]
  end;
  match goal with
  | |- context [applyValueToField ?rt ?field ?v] =>
      destruct (applyValueToField rt field v) as [? [| ? | ?]] eqn:Happ;
      apply applyValueToField_again in Happ as (c1 & -> & Hagain)
  end;
  [ match goal with
    | |- context [loop ?fields ?gs] =>
        let Hrest := fresh "Hrest" in
        destruct (loop fields gs) as [[? ?] ?] eqn:Hrest;
        intros [= <- <- <-]; rewrite Hagain, (IHloop _ _ _ _ Hrest); reflexivity
    end
  | intros [= <- <- <-]; rewrite Hagain; reflexivity
  | intros [= <- <- <-]; rewrite Hagain; reflexivity ].

(** Running [processStruct] on what it left behind asks for the same
    variables, ends the same way and changes nothing. *)
Lemma processStruct_again rt env t :
  forall c prefix parent c' asked r,
    processStruct rt env t c prefix parent = (c', asked, r) ->
    processStruct rt env t c' prefix parent = (c', asked, r).
Proof.
  induction t as [| | | | n fields IH] using rtype_struct_ind;
    intros c prefix parent c' asked r; try (simpl; intros [= <- <- <-]; reflexivity).
  destruct c as [| | | | | | | fs | |]; try (simpl; intros [= <- <- <-]; reflexivity).
  simpl.
  lazymatch goal with
  | |- match ?L fields fs with _ => _ end = _ -> _ =>
      enough (Hloop : forall gs gs' asked' r',
                 L fields gs = (gs', asked', r') -> L fields gs' = (gs', asked', r'))
  end.
  { match goal with
    | |- match ?L fields fs with _ => _ end = _ -> _ =>
        destruct (L fields fs) as [[gs' asked'] r'] eqn:Hrun
    end.
    intros [= <- <- <-]. rewrite (Hloop _ _ _ _ Hrun). reflexivity. }
  clear fs c' asked r.
  induction IH as [| [f ft] fields [Hft Hptr] _ IHloop]; intros gs gs' asked' r'.
  - destruct gs; intros [= <- <- <-]; reflexivity.
  - destruct gs as [| fc gs]; [intros [= <- <- <-]; reflexivity |].
    simpl in Hft, Hptr.
    cbn -[processStruct applyValueToField envVarName].
    match goal with
    | |- context [?L fields gs] => set (loop := L) in *
    end.
    destruct (IsExported f); cbn -[processStruct applyValueToField envVarName].
    2:{ destruct (loop fields gs) as [[gs1 a1] r1] eqn:Hrest.
        intros [= <- <- <-]. rewrite (IHloop _ _ _ _ Hrest). reflexivity. }
    destruct ft as [k nm | e | e | len e | nm fs''].
    + leaf_again loop IHloop.
    + destruct e as [| | | | nm' fs'']; try continue_again loop IHloop.
      match goal with
      | |- context [processStruct rt env ?ty ?target prefix ?path] =>
          destruct (processStruct rt env ty target prefix path) as [[p' a1] r1] eqn:Hrun;
          apply (Hptr _ eq_refl) in Hrun
      end.
      destruct r1; [| intros [= <- <- <-]; rewrite Hrun; reflexivity ..].
      destruct (loop fields gs) as [[gs1 a2] r2] eqn:Hrest.
      intros [= <- <- <-]. rewrite Hrun, (IHloop _ _ _ _ Hrest). reflexivity.
    + leaf_again loop IHloop.
    + leaf_again loop IHloop.
    + match goal with
      | |- context [processStruct rt env ?ty fc prefix ?path] =>
          destruct (processStruct rt env ty fc prefix path) as [[p' a1] r1] eqn:Hrun;
          apply Hft in Hrun
      end.
      destruct r1; [| intros [= <- <- <-]; rewrite Hrun; reflexivity ..].
      destruct (loop fields gs) as [[gs1 a2] r2] eqn:Hrest.
      intros [= <- <- <-]. rewrite Hrun, (IHloop _ _ _ _ Hrest). reflexivity.
Qed.

(** X17.  Loading from the environment a second time, with the environment
    unchanged, changes nothing: the second load leaves the record the first
    one produced, asks for the same variables and returns the same result,
    be it nil, an error or a panic. *)
Theorem EnvProvider_Load_twice
  (rt : Runtime) (env : string -> string) (p : EnvProvider) (cfg : iface) :
  let out := EnvProvider_Load rt env p cfg in
  EnvProvider_Load rt env p (fst (fst out)) = out.
Proof.
  unfold EnvProvider_Load, applyEnvVariables.
  destruct (isPtrToStruct cfg) eqn:Hcfg; simpl; [| rewrite Hcfg; reflexivity].
  destruct cfg as [[t c] |]; try (simpl; rewrite ?Hcfg; reflexivity).
  destruct t as [| e | | |]; try (simpl; rewrite ?Hcfg; reflexivity).
  destruct c as [| | | | | [c |] | | | |]; try (simpl; rewrite ?Hcfg; reflexivity).
  destruct (processStruct rt env e c (Prefix p) "") as [[c' asked] r] eqn:Hrun.
  simpl.
  assert (Hcfg' : isPtrToStruct (Some (TPtr e, VPtr (Some c'))) = true) by exact Hcfg.
  rewrite Hcfg'. simpl. rewrite (processStruct_again _ _ _ _ _ _ _ _ _ Hrun). reflexivity.
Qed.

Lemma TrimLeft_TrimLeft s : strings.TrimLeft (strings.TrimLeft s) = strings.TrimLeft s.
Proof.
  induction s as [| c r IH]; simpl; [reflexivity |].
  destruct (strings.isSpace c) eqn:Hc; [exact IH |]. simpl. by rewrite Hc.
Qed.

Lemma TrimRight_TrimRight s :
  strings.TrimRight (strings.TrimRight s) = strings.TrimRight s.
Proof.
  induction s as [| c r IH]; simpl; [reflexivity |].
  destruct (strings.TrimRight r) as [| d r'] eqn:Hr.
  - destruct (strings.isSpace c) eqn:Hc; simpl; [reflexivity |]. by rewrite Hc.
  - simpl in *. rewrite IH. reflexivity.
Qed.

Lemma TrimLeft_TrimRight_TrimLeft s :
  strings.TrimLeft (strings.TrimRight (strings.TrimLeft s))
  = strings.TrimRight (strings.TrimLeft s).
Proof.
  induction s as [| c r IH]; simpl; [reflexivity |].
  destruct (strings.isSpace c) eqn:Hc; [exact IH |].
  simpl. destruct (strings.TrimRight r); rewrite ?Hc; simpl; by rewrite Hc.
Qed.

Lemma TrimSpace_TrimSpace s :
  strings.TrimSpace (strings.TrimSpace s) = strings.TrimSpace s.
Proof.
  unfold strings.TrimSpace.
  by rewrite TrimLeft_TrimRight_TrimLeft, TrimRight_TrimRight.
Qed.

Lemma appendTrimmed_assignable e values :
  directlyAssignable e stringType = true ->
  appendTrimmed e values
  = Some (map VString
            (List.filter (fun s => negb (String.eqb s "")) (map strings.TrimSpace values))).
Proof.
  intros He. induction values as [| v rest IH]; simpl; [reflexivity |].
  destruct (String.eqb (strings.TrimSpace v) ""); simpl; [exact IH |].
  by rewrite He, IH.
Qed.

Lemma appendTrimmed_not_assignable e values :
  directlyAssignable e stringType = false ->
  appendTrimmed e values
  = match List.filter (fun s => negb (String.eqb s "")) (map strings.TrimSpace values) with
    | [] => Some []
    | _ :: _ => None
    end.
Proof.
  intros He. induction values as [| v rest IH]; simpl; [reflexivity |].
  destruct (String.eqb (strings.TrimSpace v) ""); simpl; [exact IH |].
  by rewrite He.
Qed.

Lemma filter_length_le {A} (f : A -> bool) xs :
  (length (List.filter f xs) <= length xs)%nat.
Proof. induction xs as [| x xs IH]; simpl; [lia |]. destruct (f x); simpl; lia. Qed.

Lemma trimmedPieces_trimmed text :
  List.Forall (fun s => s <> "" /\ strings.TrimSpace s = s) (trimmedPieces text).
Proof.
  unfold trimmedPieces. apply List.Forall_forall. intros s Hs.
  apply filter_In in Hs as [Hin Hne].
  apply in_map_iff in Hin as (v & <- & _).
  split; [| apply TrimSpace_TrimSpace].
  apply negb_true_iff in Hne. by apply String.eqb_neq.
Qed.

(** X18.  A variable for a slice field.  When the elements are not of
    string kind the variable is accepted and ignored: no error, and the
    field keeps what it held.  When the slice is a [[]string], the field is
    replaced by the comma-separated pieces of the text, each trimmed and
    the empty ones dropped, in their order; they are at most one more than
    there are commas, none is empty and none has a space at either end.
    When the elements are of a defined string type, [reflect.Append] panics
    at the first piece that is not empty and the field keeps what it held;
    with no such piece the field becomes the empty slice. *)
Theorem env_text_into_slice
  (rt : Runtime) (e : rtype) (c : gval) (l : loc) (text : string) :
  let field := V (TSlice e) c l false true in
  let pieces := trimmedPieces text in
  (length pieces <= S (countByte text ","))%nat
  /\ List.Forall (fun s => s <> "" /\ strings.TrimSpace s = s) pieces
  /\ applyValueToField rt field text
     = if negb (reflect.eqb (kindOf e) reflect.String) then (field, ok)
       else if rtype_eqb e stringType
       then (withCur field (VSlice (Some (map VString pieces))), ok)
       else match pieces with
            | [] => (withCur field (VSlice (Some [])), ok)
            | _ :: _ => (field, panicked "reflect.Set: value is not assignable to type")
            end.
Proof.
  intros field pieces. subst pieces. split; [| split].
  - unfold trimmedPieces. etransitivity; [apply filter_length_le |].
    rewrite length_map, Split_length. lia.
  - apply trimmedPieces_trimmed.
  - unfold applyValueToField, trimmedPieces. cbn [field KindOf kindOf Type_ elemKind elemType].
    change (reflect.eqb reflect.Slice reflect.Slice) with true.
    destruct (reflect.eqb (kindOf e) reflect.String) eqn:Hk; cbn [negb]; [| reflexivity].
    assert (Hassign : directlyAssignable e stringType = rtype_eqb e stringType).
    { unfold directlyAssignable. destruct e; simpl; try discriminate; apply orb_false_r. }
    destruct (rtype_eqb e stringType) eqn:He.
    + rewrite appendTrimmed_assignable by (by rewrite Hassign). reflexivity.
    + rewrite appendTrimmed_not_assignable by (by rewrite Hassign).
      destruct (List.filter _ _); reflexivity.
Qed.


(** The pieces of [a, ,b]. *)
Lemma pieces_of_a_b :
  applyValueToField noFloats (V (TSlice stringType) (VSlice None) [] false true) "a, ,b"
  = (V (TSlice stringType) (VSlice (Some [VString "a"; VString "b"])) [] false true, ok).
Proof. reflexivity. Qed.

(** ** Validation tags, again *)

Lemma TrimLeft_noSpace s : noSpace s = true -> strings.TrimLeft s = s.
Proof.
  destruct s as [| c r]; simpl; [reflexivity |].
  intros H. apply andb_true_iff in H as [Hc _].
  apply negb_true_iff in Hc. by rewrite Hc.
Qed.

Lemma cut_first_sep name arg sep :
  hasByte name sep = false ->
  strings.cut (name ++ String sep arg) sep = Some (name, arg).
Proof.
  induction name as [| c r IH]; simpl; intros H.
  - by rewrite Ascii.eqb_refl.
  - apply orb_false_iff in H as [Hc Hr]. rewrite Hc, (IH Hr). reflexivity.
Qed.

Lemma cut_no_sep name sep : hasByte name sep = false -> strings.cut name sep = None.
Proof.
  induction name as [| c r IH]; simpl; intros H; [reflexivity |].
  apply orb_false_iff in H as [Hc Hr]. rewrite Hc, (IH Hr). reflexivity.
Qed.

(** X19.  A clause whose name is not exactly [required], [range], [min] or
    [max] checks nothing, with or without an argument: a misspelt or
    capitalised rule name is accepted in silence, whatever the field
    holds. *)
Theorem unknown_rule_name_is_ignored
  (field : Value) (path name : string) (arg : option string)
  (Hname : ~ In name ["required"; "range"; "min"; "max"])
  (Hcolon : hasByte name ":" = false) :
  let clause := match arg with Some a => name ++ ":" ++ a | None => name end in
  validateClause field path clause = ok
  /\ (hasByte clause "," = false -> noSpace clause = true ->
      validateFieldByTag field path clause = ok).
Proof.
  intros clause.
  assert (Hhd : hd "" (strings.SplitN2 clause ":") = name).
  { unfold strings.SplitN2, clause. destruct arg as [a |].
    - change (name ++ ":" ++ a) with (name ++ String ":" a).
      by rewrite cut_first_sep.
    - by rewrite cut_no_sep. }
  assert (Hok : validateClause field path clause = ok).
  { unfold validateClause. rewrite Hhd.
    repeat match goal with
           | |- context [String.eqb name ?k] =>
               destruct (String.eqb_spec name k) as [-> | _];
               [destruct Hname; simpl; tauto |]
           end.
    reflexivity. }
  split; [exact Hok |].
  intros Hcomma Hspace. unfold validateFieldByTag.
  rewrite (Split_no_sep _ _ Hcomma). simpl.
  unfold strings.TrimSpace.
  rewrite (TrimLeft_noSpace _ Hspace), (TrimRight_noSpace _ Hspace).
  rewrite Hok. destruct (String.eqb clause ""); reflexivity.
Qed.

Lemma unknown_rule_name_is_ignored_witness :
  validateClause (V stringType (VString "") [] false true) "Server.Host" "Required" = ok.
Proof.
  refine (proj1 (unknown_rule_name_is_ignored (V stringType (VString "") [] false true)
                   "Server.Host" "Required" None _ eq_refl)).
  simpl. intros [H | [H | [H | [H | []]]]]; discriminate H.
Defined.

(** ** The Default provider, again *)



Lemma FieldByName_valid t c l ro a name ft fc lf rof af :
  FieldByName (V t c l ro a) name = V ft fc lf rof af ->
  exists n fields fs i f,
    t = TStruct n fields /\ c = VStruct fs
    /\ fieldIndex fields name = Some i
    /\ fields !! i = Some (f, ft) /\ fs !! i = Some fc
    /\ lf = (l ++ [SField i])%list /\ rof = (ro || negb (IsExported f)) /\ af = a.
Proof.
  unfold FieldByName, Field.
  destruct t as [| | | | n fields]; try discriminate.
  destruct (fieldIndex fields name) as [i |] eqn:Hi; [| discriminate].
  destruct c as [| | | | | | | fs | |]; try discriminate.
  destruct (fields !! i) as [[f ft'] |] eqn:Hf; [| discriminate].
  destruct (fs !! i) as [fc' |] eqn:Hc; [| discriminate].
  intros [= <- <- <- <- <-]. exists n, fields, fs, i, f. auto 10.
Qed.

Lemma FieldByName_stored n fields fs l ro a name i f ft new :
  fieldIndex fields name = Some i ->
  fields !! i = Some (f, ft) ->
  (i < length fs)%nat ->
  FieldByName (V (TStruct n fields) (VStruct (alter (fun _ => new) i fs)) l ro a) name
  = V ft new (l ++ [SField i])%list (ro || negb (IsExported f)) a.
Proof.
  intros Hi Hf Hlen. unfold FieldByName, Field. rewrite Hi, Hf.
  rewrite list_lookup_alter.
  destruct (fs !! i) as [fc |] eqn:Hc;
    [destruct (decide (i = i)); [reflexivity | congruence] |].
  apply lookup_ge_None in Hc. lia.
Qed.

Lemma alter_at (fs : list gval) i fc (g : gval -> gval) :
  fs !! i = Some fc -> alter g i fs = alter (fun _ => g fc) i fs.
Proof.
  revert i. induction fs as [| x fs IH]; intros [| i] H; simpl in *; try discriminate.
  - inversion H. reflexivity.
  - f_equal. by apply IH.
Qed.

(** Resolving a path again after the field it leads to was written: the
    same field, with what was written. *)
Lemma getFieldByPathFrom_after_store parts :
  forall t c l ro a ft fc lf rof af new,
    getFieldByPathFrom (V t c l ro a) parts = inl (V ft fc lf rof af) ->
    exists rel, lf = (l ++ rel)%list
      /\ getFieldByPathFrom (V t (store c rel new) l ro a) parts
         = inl (V ft new lf rof af).
Proof.
  induction parts as [| part rest IH]; intros t c l ro a ft fc lf rof af new H.
  - simpl in H. discriminate.
  - destruct rest as [| r rs].
    + cbn [getFieldByPathFrom] in H.
      destruct (FieldByName (V t c l ro a) part) as [| ft' fc' lf' rof' af'] eqn:Hfield;
        [discriminate |].
      cbn [IsValid negb] in H. inversion H; subst. clear H.
      apply FieldByName_valid in Hfield
        as (n & fields & fs & i & f & -> & -> & Hi & Hf & Hc & -> & -> & ->).
      exists [SField i]. split; [reflexivity |].
      cbn [store getFieldByPathFrom].
      rewrite (FieldByName_stored _ _ _ _ _ _ _ _ _ _ _ Hi Hf);
        [reflexivity | by eapply lookup_lt_Some].
    + rewrite getFieldByPathFrom_step in H. cbv zeta in H.
      destruct (FieldByName (V t c l ro a) part) as [| ti ci li roi ai] eqn:Hfield;
        [discriminate |].
      apply FieldByName_valid in Hfield
        as (n & fields & fs & i & f & -> & -> & Hi & Hf & Hc & -> & -> & ->).
      cbn [IsValid negb] in H.
      destruct (reflect.eqb (KindOf (V ti ci _ _ _)) reflect.Ptr) eqn:Hptr.
      * destruct (IsNil _) eqn:Hnil; [discriminate |]. cbn [andb] in H.
        destruct ti as [| e | | |]; try discriminate.
        destruct ci as [| | | | | [p |] | | | |]; try discriminate.
        cbn [Elem] in H.
        destruct (negb (reflect.eqb (KindOf _) reflect.Struct)) eqn:Hstruct;
          [discriminate |].
        destruct (IH _ _ _ _ _ _ _ _ _ _ new H) as (rel & -> & Hagain).
        exists (SField i :: SElem :: rel). split.
        { rewrite <- !app_assoc. reflexivity. }
        rewrite getFieldByPathFrom_step. cbv zeta.
        cbn [store].
        rewrite (alter_at _ _ _ _ Hc). cbn [store].
        rewrite (FieldByName_stored _ _ _ _ _ _ _ _ _ _ _ Hi Hf)
          by (by eapply lookup_lt_Some).
        cbn [IsValid negb KindOf kindOf IsNil andb Elem].
        change (reflect.eqb reflect.Ptr reflect.Ptr) with true. cbn [andb].
        cbn [KindOf] in Hstruct |- *. rewrite Hstruct. exact Hagain.
      * cbn [andb] in H.
        destruct (negb (reflect.eqb (KindOf _) reflect.Struct)) eqn:Hstruct;
          [discriminate |].
        destruct (IH _ _ _ _ _ _ _ _ _ _ new H) as (rel & -> & Hagain).
        exists (SField i :: rel). split.
        { rewrite <- !app_assoc. reflexivity. }
        rewrite getFieldByPathFrom_step. cbv zeta.
        cbn [store].
        rewrite (alter_at _ _ _ _ Hc).
        rewrite (FieldByName_stored _ _ _ _ _ _ _ _ _ _ _ Hi Hf)
          by (by eapply lookup_lt_Some).
        cbn [IsValid negb KindOf] in *. rewrite !Hptr. cbn [andb KindOf].
        rewrite Hstruct.
        exact Hagain.
Qed.

Lemma convertFromString_handle rt t c l ro a text :
  exists new, fst (convertFromString rt (V t c l ro a) text) = V t new l ro a.
Proof.
  unfold convertFromString, SetBool, SetInt, SetUint, SetFloat.
  cbn [KindOf withCur].
  repeat case_match; simpl; eauto.
Qed.

Lemma tryConversion_handle rt t c l ro a val :
  exists new, fst (tryConversion rt (V t c l ro a) val) = V t new l ro a.
Proof.
  unfold tryConversion, SetInt, SetUint, SetFloat.
  cbn [KindOf withCur].
  repeat case_match; simpl; eauto.
Qed.

(** [setFieldValue] hands back the handle it was given, with new contents
    or the old ones. *)
Lemma setFieldValue_handle rt t c l ro a value :
  exists new, fst (setFieldValue rt (V t c l ro a) value) = V t new l ro a.
Proof.
  unfold setFieldValue.
  destruct (negb (CanSet _)); [simpl; eauto |].
  destruct (negb (reflect.eqb _ _)).
  - destruct (reflect.eqb (KindOf (ValueOf value)) reflect.String).
    + destruct (convertFromString_handle rt t c l ro a (getString (ValueOf value)))
        as [new Hnew].
      destruct (convertFromString _ _ _) as [f' [|]]; simpl in *; eauto.
    + destruct (tryConversion_handle rt t c l ro a (ValueOf value)) as [new Hnew].
      destruct (tryConversion _ _ _) as [f' [|]]; simpl in *; eauto.
  - unfold Set_. destruct (ValueOf value) as [| t' c' ? ? ?]; [simpl; eauto |].
    destruct (directlyAssignable t t'); simpl; eauto.
Qed.

Lemma getFieldByPathFrom_invalid v parts :
  match v with V (TStruct _ _) _ _ _ _ => False | _ => True end ->
  getFieldByPathFrom v parts = inr ErrFieldNotFound.
Proof.
  intros Hv. destruct parts as [| part rest]; [reflexivity |].
  cbn [getFieldByPathFrom].
  assert (FieldByName v part = VZero) as ->; [| reflexivity].
  destruct v as [| [] ? ? ? ?]; try reflexivity. destruct Hv.
Qed.

(** X21.  A default that applies can be read back: when the path of the
    only default resolves to a field that holds its zero value and
    [setFieldValue] accepts the value, [Load] returns nil, the record is the
    old one with that field written, and resolving the same path in the new
    record gives the field as [setFieldValue] left it, at any depth and
    through any pointers on the way. *)
Theorem default_can_be_read_back
  (rt : Runtime) (cfg : iface) (path : string) (value : iface) (field field' : Value)
  (Hfield : getFieldByPath (Elem (ValueOf cfg)) path = inl field)
  (Hzero : isZeroValue field = true)
  (Hset : setFieldValue rt field value = (field', ok)) :
  let cfg' := assign cfg field' in
  DefaultProvider_Load rt (WithDefault NewDefaultProvider path value) [(path, value)] cfg
  = (cfg', ok)
  /\ getFieldByPath (Elem (ValueOf cfg')) path = inl field'.
Proof.
  intros cfg'. subst cfg'.
  assert (Hshape : exists n fields p, cfg = Some (TPtr (TStruct n fields), VPtr (Some p))).
  { destruct cfg as [[[| [| | | | n fields] | | |] [| | | | | [p |] | | | |]] |];
      try (unfold getFieldByPath in Hfield;
           rewrite getFieldByPathFrom_invalid in Hfield by exact I; discriminate).
    eauto. }
  destruct Hshape as (n & fields & p & ->).
  set (e := TStruct n fields) in *.
  destruct field as [| ft fc lf rof af]; [discriminate |].
  destruct (setFieldValue_handle rt ft fc lf rof af value) as [new Hnew].
  rewrite Hset in Hnew. simpl in Hnew. subst field'.
  unfold getFieldByPath in *. cbn [ValueOf Elem] in *.
  destruct (getFieldByPathFrom_after_store _ _ _ _ _ _ _ _ _ _ _ new Hfield)
    as (rel & -> & Hagain).
  assert (He : reflect.eqb (kindOf e) reflect.Struct = true) by reflexivity.
  split.
  - unfold DefaultProvider_Load, WithDefault, NewDefaultProvider. cbn [DefaultValues].
    destruct (decide _) as [Hsize | _].
    { rewrite insert_empty, map_size_singleton in Hsize. discriminate. }
    unfold isPtrToStruct. cbn [ValueOf KindOf kindOf Elem].
    change (reflect.eqb reflect.Ptr reflect.Ptr) with true. rewrite He.
    cbn [andb negb applyDefaults ValueOf Elem].
    unfold getFieldByPath. rewrite Hfield, Hzero, Hset. reflexivity.
  - cbn [assign app store ValueOf Elem]. exact Hagain.
Qed.

Lemma default_can_be_read_back_witness :
  getFieldByPath
    (Elem (ValueOf (assign emptyTestConfig
                      (V intType (VInt 8080) [SElem; SField 0; SField 1] false true))))
    "Server.Port"
  = inl (V intType (VInt 8080) [SElem; SField 0; SField 1] false true).
Proof.
  exact (proj2 (default_can_be_read_back noFloats emptyTestConfig "Server.Port"
                  (Some (intType, VInt 8080))
                  (V intType (VInt 0) [SElem; SField 0; SField 1] false true)
                  (V intType (VInt 8080) [SElem; SField 0; SField 1] false true)
                  eq_refl eq_refl eq_refl)).
Defined.
